(** * quickcut: the editor session store, the timeline interaction layer
      and the coordinate mapper

    A shallow embedding of the browser editor's state handling:

    - [apps/web/src/types/editConfig.ts]: the edit configuration;
    - the Zustand store [useEditorStore]: history stacks, debounced gesture
      commit, zoom anchor clamp, segment / zoom / caption / annotation
      actions;
    - [components/editor/Timeline.tsx]: segment blocks, source boundary
      lookup, snap points, the drag handlers, split at playhead, the
      delete key and button, seeking by click and zooming by wheel;
    - [CaptionEditor]: the words of the clip, the active word, the walk
      from output time to source time and the commit of a word edit;
    - [components/editor/PropertiesPanel.tsx]: the zoom sliders, the
      transition select and the choice of the panel shown;
    - [components/editor/TransitionPopover.tsx], [EditConfigPanel] and
      [EditorPage]: the callers of [updateEditConfig];
    - [stores/editorStore.ts]: the earlier store, where it differs;
    - the coordinate mapper and the segment library, which the sources
      import from [lib/editor] and which are written after the
      specification.

    JavaScript numbers are modelled as exact rationals ([Q]); where an
    outcome turns on the rounding of the source's arithmetic (the times a
    drag proposes at the snap threshold, the millisecond rounding of the
    snap points, the split at the playhead), the operations are the rounded
    ones of [Double]. Object identity is not modelled, values are compared
    structurally. Timers run on a logical clock in milliseconds. *)

From Stdlib Require Import ZArith QArith Qround Qminmax Qabs Lia Lqa.
From Stdlib Require Import Qpower PrimFloat FloatOps SpecFloat.
From stdpp Require Import base option list strings gmap sorting.

Open Scope Q_scope.

(** ** Numbers *)

(** [a < b] on numbers, as a boolean. *)
Definition Qltb (a b : Q) : bool := negb (Qle_bool b a).

(** *** Double precision

    The arithmetic of JavaScript numbers on rationals: the exact result
    rounded to the nearest binary64 value, ties to the even mantissa, with
    gradual underflow. Results beyond the binary64 range (magnitudes of
    2^1024 and more), a division by zero, [NaN] and the sign of zero are
    not modelled. *)
Module Double.

(** [floor (log2 q)] for a positive [q]. *)
Definition ilog2 (q : Q) : Z :=
  let k := (Z.log2 (Qnum q) - Z.log2 (Zpos (Qden q)))%Z in
  if Qle_bool (2 ^ k) q then k else (k - 1)%Z.

(** The integer nearest to [m], the even one of two that are equally
    near. *)
Definition roundHalfEven (m : Q) : Z :=
  let f := Qfloor m in
  match Qcompare (m - inject_Z f) (1#2) with
  | Lt => f
  | Gt => (f + 1)%Z
  | Eq => if Z.even f then f else (f + 1)%Z
  end.

(** The binary64 value nearest to [x]: a mantissa of 53 bits at the
    exponent of [x], or a multiple of 2^-1074 below the normal range. *)
Definition round (x : Q) : Q :=
  let q := Qred x in
  if Qeq_bool q 0 then 0
  else
    let a := Qabs q in
    let e := Z.max (ilog2 a - 52) (-1074) in
    let r := Qred (inject_Z (roundHalfEven (a / 2 ^ e)) * 2 ^ e) in
    if Qle_bool 0 q then r else Qred (- r).

Definition add (x y : Q) : Q := round (x + y).
Definition sub (x y : Q) : Q := round (x - y).
Definition mul (x y : Q) : Q := round (x * y).
Definition div (x y : Q) : Q := round (x / y).

(** The rational a finite primitive float stands for. *)
Definition ofFloat (f : float) : option Q :=
  match Prim2SF f with
  | S754_zero _ => Some 0
  | S754_finite s m e =>
      Some (Qred ((if s then -1 else 1) * inject_Z (Zpos m) * 2 ^ e))
  | _ => None
  end.

End Double.

Notation "x ⊕ y" := (Double.add x y) (at level 50, left associativity).
Notation "x ⊖ y" := (Double.sub x y) (at level 50, left associativity).
Notation "x ⊗ y" := (Double.mul x y) (at level 40, left associativity).
Notation "x ⊘ y" := (Double.div x y) (at level 40, left associativity).

(** ** The edit configuration ([types/editConfig.ts]) *)

Inductive OutputRatio := R9_16 | R1_1 | R4_5.

Inductive CutReason := silence | uhm | repetition | filler | manual.

Record CutConfig := mkCut {
  cut_id : string;
  cut_start : Q;
  cut_end : Q;
  cut_reason : CutReason
}.

Inductive Easing := ease_in_out | ease_in | linear | snap.

Record ZoomConfig := mkZoom {
  zoom_id : string;
  time : Q;
  duration : Q;
  scale : Q;
  easing : Easing;
  anchorX : Q;
  anchorY : Q;
  reason : string
}.

Inductive ReframingMode := face_track | center_mode | manual_mode.

Record ReframingConfig := mkReframing {
  reframing_enabled : bool;
  mode : ReframingMode;
  manualCropX : option Q
}.

Inductive CaptionStyleType := hormozi | minimal | karaoke | bold_style | outline | custom.
Inductive CaptionPosition := bottom | center | top.
Inductive CaptionFontSize := small | medium | large.
Inductive CaptionAnimation := word_by_word | line_by_line | fade_anim | no_anim.

Record CaptionConfig := mkCaptions {
  captions_enabled : bool;
  style : CaptionStyleType;
  position : CaptionPosition;
  fontSize : CaptionFontSize;
  primaryColor : string;
  highlightColor : string;
  backgroundColor : option string;
  font : string;
  maxWordsPerLine : Q;
  animation : CaptionAnimation;
  highlightKeywords : bool;
  customKeywords : list string
}.

Inductive IntroTransition := intro_none | fade_in | intro_slide_up | intro_zoom_in.
Inductive OutroTransition := outro_none | fade_out | slide_down.
Inductive BetweenCuts := between_hard | between_crossfade | swipe.

Record TransitionConfig := mkTransitions {
  intro : IntroTransition;
  outro : OutroTransition;
  betweenCuts : BetweenCuts
}.

Record MusicConfig := mkMusic {
  music_enabled : bool;
  track : option string;
  music_volume : Q;
  duckOnSpeech : bool
}.

Record SoundEffectsConfig := mkSfx {
  sfx_enabled : bool;
  whooshOnCut : bool;
  boomOnKeyMoment : bool;
  sfx_volume : Q
}.

Record AudioConfig := mkAudio {
  normalizeVolume : bool;
  removeBackgroundNoise : bool;
  music : MusicConfig;
  soundEffects : SoundEffectsConfig
}.

Record Watermark := mkWatermark {
  watermark_enabled : bool;
  imageUrl : option string;
  watermark_position : string
}.

Record OverlayConfig := mkOverlays {
  progressBar : bool;
  hookText : option string;
  ctaText : option string;
  watermark : Watermark
}.

Inductive SegmentTransition :=
  | t_none | t_hard | t_crossfade | t_fade | t_wipe_left | t_wipe_right
  | t_slide_up | t_dissolve | t_zoom_in | t_circle.

Record SegmentConfig := mkSegment {
  seg_id : string;
  sourceStart : Q;
  sourceEnd : Q;
  transition : SegmentTransition;
  transitionDuration : option Q
}.

Record CaptionOverride := mkOverride {
  text : option string;
  hidden : option bool;
  highlight : option bool
}.

(** The annotation types are imported by the store from
    [types/editConfig.ts]; the fields are the ones [addAnnotation] fills. *)
Record AnnotationStyle := mkAnnotationStyle {
  fontFamily : string;
  ann_fontSize : Q;
  color : string;
  ann_backgroundColor : option string;
  bold : bool;
  italic : bool;
  borderRadius : Q
}.

Record AnnotationConfig := mkAnnotation {
  ann_id : string;
  ann_type : string;
  content : string;
  ann_x : Q;
  ann_y : Q;
  ann_width : Q;
  ann_height : Q;
  startTime : Q;
  endTime : Q;
  ann_style : AnnotationStyle
}.

Record EditConfig := mkEditConfig {
  outputRatio : OutputRatio;
  segments : list SegmentConfig;
  cuts : list CutConfig;
  zooms : list ZoomConfig;
  reframing : ReframingConfig;
  captions : CaptionConfig;
  transitions : TransitionConfig;
  audio : AudioConfig;
  overlays : OverlayConfig;
  captionOverrides : gmap Z CaptionOverride;
  annotations : option (list AnnotationConfig)
}.

(** [Partial<EditConfig>]: the keys present in a change object. *)
Record EditConfigChanges := mkChanges {
  ch_outputRatio : option OutputRatio;
  ch_segments : option (list SegmentConfig);
  ch_cuts : option (list CutConfig);
  ch_zooms : option (list ZoomConfig);
  ch_reframing : option ReframingConfig;
  ch_captions : option CaptionConfig;
  ch_transitions : option TransitionConfig;
  ch_audio : option AudioConfig;
  ch_overlays : option OverlayConfig;
  ch_captionOverrides : option (gmap Z CaptionOverride);
  ch_annotations : option (option (list AnnotationConfig))
}.

(** [{ ...config, ...changes }] *)
Definition spreadConfig (config : EditConfig) (changes : EditConfigChanges) : EditConfig :=
  {| outputRatio := default (outputRatio config) (ch_outputRatio changes);
     segments := default (segments config) (ch_segments changes);
     cuts := default (cuts config) (ch_cuts changes);
     zooms := default (zooms config) (ch_zooms changes);
     reframing := default (reframing config) (ch_reframing changes);
     captions := default (captions config) (ch_captions changes);
     transitions := default (transitions config) (ch_transitions changes);
     audio := default (audio config) (ch_audio changes);
     overlays := default (overlays config) (ch_overlays changes);
     captionOverrides := default (captionOverrides config) (ch_captionOverrides changes);
     annotations := default (annotations config) (ch_annotations changes) |}.

Definition noChanges : EditConfigChanges :=
  mkChanges None None None None None None None None None None None.

(** Field replacements written [{ ...config, field: v }] in the source. *)
Definition withSegments (c : EditConfig) (v : list SegmentConfig) : EditConfig :=
  mkEditConfig (outputRatio c) v (cuts c) (zooms c) (reframing c) (captions c)
    (transitions c) (audio c) (overlays c) (captionOverrides c) (annotations c).

Definition withCuts (c : EditConfig) (v : list CutConfig) : EditConfig :=
  mkEditConfig (outputRatio c) (segments c) v (zooms c) (reframing c) (captions c)
    (transitions c) (audio c) (overlays c) (captionOverrides c) (annotations c).

Definition withZooms (c : EditConfig) (v : list ZoomConfig) : EditConfig :=
  mkEditConfig (outputRatio c) (segments c) (cuts c) v (reframing c) (captions c)
    (transitions c) (audio c) (overlays c) (captionOverrides c) (annotations c).

Definition withCaptions (c : EditConfig) (v : CaptionConfig) : EditConfig :=
  mkEditConfig (outputRatio c) (segments c) (cuts c) (zooms c) (reframing c) v
    (transitions c) (audio c) (overlays c) (captionOverrides c) (annotations c).

Definition withCaptionOverrides (c : EditConfig) (v : gmap Z CaptionOverride) : EditConfig :=
  mkEditConfig (outputRatio c) (segments c) (cuts c) (zooms c) (reframing c) (captions c)
    (transitions c) (audio c) (overlays c) v (annotations c).

Definition withAnnotations (c : EditConfig) (v : list AnnotationConfig) : EditConfig :=
  mkEditConfig (outputRatio c) (segments c) (cuts c) (zooms c) (reframing c) (captions c)
    (transitions c) (audio c) (overlays c) (captionOverrides c) (Some v).

(** [Partial<ZoomConfig>] and [{ ...z, ...changes }] *)
Record ZoomChanges := mkZoomChanges {
  zc_id : option string;
  zc_time : option Q;
  zc_duration : option Q;
  zc_scale : option Q;
  zc_easing : option Easing;
  zc_anchorX : option Q;
  zc_anchorY : option Q;
  zc_reason : option string
}.

Definition spreadZoom (z : ZoomConfig) (changes : ZoomChanges) : ZoomConfig :=
  {| zoom_id := default (zoom_id z) (zc_id changes);
     time := default (time z) (zc_time changes);
     duration := default (duration z) (zc_duration changes);
     scale := default (scale z) (zc_scale changes);
     easing := default (easing z) (zc_easing changes);
     anchorX := default (anchorX z) (zc_anchorX changes);
     anchorY := default (anchorY z) (zc_anchorY changes);
     reason := default (reason z) (zc_reason changes) |}.

Definition noZoomChanges : ZoomChanges :=
  mkZoomChanges None None None None None None None None.

(** [Partial<CaptionConfig>] and [{ ...captions, ...changes }] *)
Record CaptionChanges := mkCaptionChanges {
  cc_enabled : option bool;
  cc_style : option CaptionStyleType;
  cc_position : option CaptionPosition;
  cc_fontSize : option CaptionFontSize;
  cc_primaryColor : option string;
  cc_highlightColor : option string;
  cc_backgroundColor : option (option string);
  cc_font : option string;
  cc_maxWordsPerLine : option Q;
  cc_animation : option CaptionAnimation;
  cc_highlightKeywords : option bool;
  cc_customKeywords : option (list string)
}.

Definition spreadCaptions (c : CaptionConfig) (changes : CaptionChanges) : CaptionConfig :=
  {| captions_enabled := default (captions_enabled c) (cc_enabled changes);
     style := default (style c) (cc_style changes);
     position := default (position c) (cc_position changes);
     fontSize := default (fontSize c) (cc_fontSize changes);
     primaryColor := default (primaryColor c) (cc_primaryColor changes);
     highlightColor := default (highlightColor c) (cc_highlightColor changes);
     backgroundColor := default (backgroundColor c) (cc_backgroundColor changes);
     font := default (font c) (cc_font changes);
     maxWordsPerLine := default (maxWordsPerLine c) (cc_maxWordsPerLine changes);
     animation := default (animation c) (cc_animation changes);
     highlightKeywords := default (highlightKeywords c) (cc_highlightKeywords changes);
     customKeywords := default (customKeywords c) (cc_customKeywords changes) |}.

(** [Partial<AnnotationConfig>] and [{ ...a, ...changes }] *)
Record AnnotationChanges := mkAnnotationChanges {
  ac_id : option string;
  ac_type : option string;
  ac_content : option string;
  ac_x : option Q;
  ac_y : option Q;
  ac_width : option Q;
  ac_height : option Q;
  ac_startTime : option Q;
  ac_endTime : option Q;
  ac_style : option AnnotationStyle
}.

Definition spreadAnnotation (a : AnnotationConfig) (changes : AnnotationChanges) : AnnotationConfig :=
  {| ann_id := default (ann_id a) (ac_id changes);
     ann_type := default (ann_type a) (ac_type changes);
     content := default (content a) (ac_content changes);
     ann_x := default (ann_x a) (ac_x changes);
     ann_y := default (ann_y a) (ac_y changes);
     ann_width := default (ann_width a) (ac_width changes);
     ann_height := default (ann_height a) (ac_height changes);
     startTime := default (startTime a) (ac_startTime changes);
     endTime := default (endTime a) (ac_endTime changes);
     ann_style := default (ann_style a) (ac_style changes) |}.

(** ** The store state ([interface EditorState]) *)

Inductive SelectedElementType := sel_segment | sel_caption | sel_zoom | sel_annotation.

Record SelectedElement := mkSelected {
  sel_type : SelectedElementType;
  sel_id : string;
  sel_index : option Z
}.

Record SourceVideo := mkSourceVideo {
  sv_id : string;
  originalName : string;
  storageUrl : string;
  sv_duration : Q;
  fileSize : Q;
  order : Q;
  offsetInTimeline : Q
}.

Record Word := mkWord {
  word : string;
  w_start : Q;
  w_end : Q;
  confidence : Q;
  speaker : option Q
}.

(** Of [Clip] and [Project] the store reads [clip.editConfig] only; the
    records keep the title and, for the clip, the configuration. *)
Record Clip := mkClip {
  clip_title : string;
  clip_editConfig : EditConfig
}.

Record Project := mkProject {
  project_title : string
}.

Record EditorState := mkState {
  clip : option Clip;
  project : option Project;
  sourceVideoUrl : option string;
  proxyVideoUrl : option string;
  useProxy : bool;
  sourceVideos : list SourceVideo;
  transcript : list Word;
  clipStart : Q;
  clipEnd : Q;
  editConfig : option EditConfig;
  editHistory : list EditConfig;
  editFuture : list EditConfig;
  selectedElement : option SelectedElement;
  timelineZoom : Q;
  timelineScroll : Q;
  isPlaying : bool;
  currentTime : Q;
  totalDuration : Q;
  isDirty : bool;
  isSaving : bool;
  lastSavedAt : option Q
}.

(** The store together with the module-level debounce variables and a
    logical clock in milliseconds; [_debounceTimer] holds the instant at
    which the pending timeout fires. *)
Record Session := mkSession {
  store : EditorState;
  _debounceTimer : option nat;
  _debounceSnapshot : option EditConfig;
  clock : nat
}.

Definition MAX_HISTORY : nat := 50.
Definition DEBOUNCE_MS : nat := 300.

(** [list.slice(-n)]: the last [n] elements. *)
Definition sliceLast {A} (n : nat) (l : list A) : list A :=
  drop (length l - n) l.

(** Zustand's [set] with the partial objects the actions pass. *)
Definition setEdit (s : EditorState) (cfg : option EditConfig)
    (hist fut : list EditConfig) (dirty : bool) (sel : option SelectedElement) : EditorState :=
  mkState (clip s) (project s) (sourceVideoUrl s) (proxyVideoUrl s) (useProxy s)
    (sourceVideos s) (transcript s) (clipStart s) (clipEnd s)
    cfg hist fut sel (timelineZoom s) (timelineScroll s)
    (isPlaying s) (currentTime s) (totalDuration s) dirty (isSaving s) (lastSavedAt s).

Definition pushHistory (state : EditorState) : list EditConfig * list EditConfig :=
  match editConfig state with
  | None => (editHistory state, editFuture state)
  | Some c => (sliceLast MAX_HISTORY (editHistory state ++ [c]), [])
  end.

(** Clamp zoom anchor so the viewport doesn't exceed frame bounds. *)
Definition clampZoomAnchor (anchorX anchorY scale : Q) : Q * Q :=
  let half := (1#2) / scale in
  (Qmin (Qmax anchorX half) (1 - half), Qmin (Qmax anchorY half) (1 - half)).

Inductive Edge := edge_start | edge_end.

(** [!!proxyVideoUrl] and [proxyVideoUrl || null] on an optional string. *)
Definition truthyString (u : option string) : bool :=
  match u with
  | Some EmptyString | None => false
  | Some _ => true
  end.

Definition orNull (u : option string) : option string :=
  if truthyString u then u else None.

(** ** The store actions

    [lib/editor/segments.ts] is imported by the store; its four functions
    are a parameter of the development. *)
Record SegmentsLib := mkSegmentsLib {
  splitSeg : list SegmentConfig -> string -> Q -> list SegmentConfig;
  adjustEdge : list SegmentConfig -> string -> Edge -> Q -> list SegmentConfig;
  deleteSeg : list SegmentConfig -> string -> list SegmentConfig;
  segmentsToCuts : list SegmentConfig -> Q -> list CutConfig
}.

Section Store.

Variable lib : SegmentsLib.

Definition syncCutsFromSegments (config : EditConfig) (clipDuration : Q) : EditConfig :=
  withCuts config (segmentsToCuts lib (segments config) clipDuration).

Definition initialStore : EditorState :=
  {| clip := None; project := None; sourceVideoUrl := None; proxyVideoUrl := None;
     useProxy := true; sourceVideos := []; transcript := [];
     clipStart := 0; clipEnd := 0;
     editConfig := None; editHistory := []; editFuture := [];
     selectedElement := None; timelineZoom := 50; timelineScroll := 0;
     isPlaying := false; currentTime := 0; totalDuration := 0;
     isDirty := false; isSaving := false; lastSavedAt := None |}.

Definition initialSession : Session :=
  {| store := initialStore; _debounceTimer := None; _debounceSnapshot := None; clock := 0 |}.

Definition initialize (c : Clip) (p : Project) (url : string) (proxy : option string)
    (videos : option (list SourceVideo)) (words : list Word) (cStart cEnd : Q)
    (s : EditorState) : EditorState :=
  {| clip := Some c; project := Some p; sourceVideoUrl := Some url;
     proxyVideoUrl := orNull proxy; useProxy := truthyString proxy;
     sourceVideos := default [] videos; transcript := words;
     clipStart := cStart; clipEnd := cEnd;
     editConfig := Some (clip_editConfig c); editHistory := []; editFuture := [];
     selectedElement := None;
     timelineZoom := timelineZoom s; timelineScroll := timelineScroll s;
     isPlaying := isPlaying s; currentTime := currentTime s;
     totalDuration := totalDuration s;
     isDirty := false; isSaving := isSaving s; lastSavedAt := lastSavedAt s |}.

Definition toggleProxy (s : EditorState) : EditorState :=
  if truthyString (proxyVideoUrl s) then
    mkState (clip s) (project s) (sourceVideoUrl s) (proxyVideoUrl s) (negb (useProxy s))
      (sourceVideos s) (transcript s) (clipStart s) (clipEnd s)
      (editConfig s) (editHistory s) (editFuture s) (selectedElement s)
      (timelineZoom s) (timelineScroll s) (isPlaying s) (currentTime s)
      (totalDuration s) (isDirty s) (isSaving s) (lastSavedAt s)
  else s.

Definition setPlaybackState (playing : bool) (cur total : Q) (s : EditorState) : EditorState :=
  mkState (clip s) (project s) (sourceVideoUrl s) (proxyVideoUrl s) (useProxy s)
    (sourceVideos s) (transcript s) (clipStart s) (clipEnd s)
    (editConfig s) (editHistory s) (editFuture s) (selectedElement s)
    (timelineZoom s) (timelineScroll s) playing cur total
    (isDirty s) (isSaving s) (lastSavedAt s).

(** The configuration both [updateEditConfig] and
    [updateEditConfigDebounced] compute. *)
Definition applyChanges (state : EditorState) (c : EditConfig)
    (changes : EditConfigChanges) : EditConfig :=
  let clipDuration := clipEnd state - clipStart state in
  let newConfig := spreadConfig c changes in
  match ch_segments changes with
  | Some _ => syncCutsFromSegments newConfig clipDuration
  | None => newConfig
  end.

Definition updateEditConfig (changes : EditConfigChanges) (state : EditorState) : EditorState :=
  match editConfig state with
  | None => state
  | Some c =>
      let historyUpdate := pushHistory state in
      setEdit state (Some (applyChanges state c changes))
        historyUpdate.1 historyUpdate.2 true (selectedElement state)
  end.

(** The callback handed to [setTimeout]. *)
Definition debounceFire (w : Session) : Session :=
  let current := store w in
  let st :=
    match _debounceSnapshot w, editConfig current with
    | Some snapshot, Some _ =>
        setEdit current (editConfig current)
          (sliceLast MAX_HISTORY (editHistory current ++ [snapshot])) []
          (isDirty current) (selectedElement current)
    | _, _ => current
    end in
  mkSession st None None (clock w).

Definition updateEditConfigDebounced (changes : EditConfigChanges) (w : Session) : Session :=
  let state := store w in
  match editConfig state with
  | None => w
  | Some c =>
      let snapshot :=
        match _debounceSnapshot w with
        | None => Some c
        | Some old => Some old
        end in
      let newConfig := applyChanges state c changes in
      mkSession
        (setEdit state (Some newConfig) (editHistory state) (editFuture state)
           true (selectedElement state))
        (Some (clock w + DEBOUNCE_MS)%nat) snapshot (clock w)
  end.

(** The part of [undo] and [redo] after the flush. *)
Definition popUndo (s : EditorState) : EditorState :=
  match last (editHistory s), editConfig s with
  | Some previous, Some c =>
      setEdit s (Some previous) (take (length (editHistory s) - 1) (editHistory s))
        (c :: editFuture s) true (selectedElement s)
  | _, _ => s
  end.

Definition popRedo (s : EditorState) : EditorState :=
  match editFuture s, editConfig s with
  | next :: rest, Some c =>
      setEdit s (Some next) (editHistory s ++ [c]) rest true (selectedElement s)
  | _, _ => s
  end.

Definition undo (w : Session) : Session :=
  let st :=
    match _debounceSnapshot w with
    | Some snapshot =>
        setEdit (store w) (editConfig (store w))
          (sliceLast MAX_HISTORY (editHistory (store w) ++ [snapshot])) []
          (isDirty (store w)) (selectedElement (store w))
    | None => store w
    end in
  mkSession (popUndo st) None None (clock w).

Definition redo (w : Session) : Session :=
  let snapshot :=
    match _debounceTimer w with
    | Some _ => None
    | None => _debounceSnapshot w
    end in
  mkSession (popRedo (store w)) None snapshot (clock w).

Definition selectElement (element : option SelectedElement) (s : EditorState) : EditorState :=
  setEdit s (editConfig s) (editHistory s) (editFuture s) (isDirty s) element.

Definition setTimelineZoom (zoom : Q) (s : EditorState) : EditorState :=
  mkState (clip s) (project s) (sourceVideoUrl s) (proxyVideoUrl s) (useProxy s)
    (sourceVideos s) (transcript s) (clipStart s) (clipEnd s)
    (editConfig s) (editHistory s) (editFuture s) (selectedElement s)
    (Qmax 10 (Qmin 200 zoom)) (timelineScroll s) (isPlaying s) (currentTime s)
    (totalDuration s) (isDirty s) (isSaving s) (lastSavedAt s).

Definition setTimelineScroll (scroll : Q) (s : EditorState) : EditorState :=
  mkState (clip s) (project s) (sourceVideoUrl s) (proxyVideoUrl s) (useProxy s)
    (sourceVideos s) (transcript s) (clipStart s) (clipEnd s)
    (editConfig s) (editHistory s) (editFuture s) (selectedElement s)
    (timelineZoom s) (Qmax 0 scroll) (isPlaying s) (currentTime s)
    (totalDuration s) (isDirty s) (isSaving s) (lastSavedAt s).

(** [dateNow] is the value [Date.now()] returns at the call. *)
Definition markSaved (dateNow : Q) (s : EditorState) : EditorState :=
  mkState (clip s) (project s) (sourceVideoUrl s) (proxyVideoUrl s) (useProxy s)
    (sourceVideos s) (transcript s) (clipStart s) (clipEnd s)
    (editConfig s) (editHistory s) (editFuture s) (selectedElement s)
    (timelineZoom s) (timelineScroll s) (isPlaying s) (currentTime s)
    (totalDuration s) false false (Some dateNow).

Definition markSaving (s : EditorState) : EditorState :=
  mkState (clip s) (project s) (sourceVideoUrl s) (proxyVideoUrl s) (useProxy s)
    (sourceVideos s) (transcript s) (clipStart s) (clipEnd s)
    (editConfig s) (editHistory s) (editFuture s) (selectedElement s)
    (timelineZoom s) (timelineScroll s) (isPlaying s) (currentTime s)
    (totalDuration s) (isDirty s) true (lastSavedAt s).

(** *** Segment actions *)

Definition splitSegment (segmentId : string) (atSourceTime : Q) (state : EditorState) : EditorState :=
  match editConfig state with
  | None => state
  | Some c =>
      let historyUpdate := pushHistory state in
      let newSegments := splitSeg lib (segments c) segmentId atSourceTime in
      let clipDuration := clipEnd state - clipStart state in
      let newConfig := syncCutsFromSegments (withSegments c newSegments) clipDuration in
      setEdit state (Some newConfig) historyUpdate.1 historyUpdate.2 true
        (selectedElement state)
  end.

Definition deleteSegment (segmentId : string) (state : EditorState) : EditorState :=
  match editConfig state with
  | None => state
  | Some c =>
      let historyUpdate := pushHistory state in
      let newSegments := deleteSeg lib (segments c) segmentId in
      let clipDuration := clipEnd state - clipStart state in
      let newConfig := syncCutsFromSegments (withSegments c newSegments) clipDuration in
      setEdit state (Some newConfig) historyUpdate.1 historyUpdate.2 true
        (selectedElement state)
  end.

Definition adjustSegmentEdge (segmentId : string) (edge : Edge) (newTime : Q)
    (state : EditorState) : EditorState :=
  match editConfig state with
  | None => state
  | Some c =>
      let historyUpdate := pushHistory state in
      let newSegments := adjustEdge lib (segments c) segmentId edge newTime in
      let clipDuration := clipEnd state - clipStart state in
      let newConfig := syncCutsFromSegments (withSegments c newSegments) clipDuration in
      setEdit state (Some newConfig) historyUpdate.1 historyUpdate.2 true
        (selectedElement state)
  end.

(** *** Zoom actions

    [stamp] is the string [Date.now().toString(36)] evaluates to at the
    call. *)

Definition addZoom (stamp : string) (t : Q) (state : EditorState) : EditorState :=
  match editConfig state with
  | None => state
  | Some c =>
      let historyUpdate := pushHistory state in
      let clamped := clampZoomAnchor (1#2) (4#10) (115#100) in
      let newZoom :=
        {| zoom_id := "z_" +:+ stamp; time := t; duration := 1#2; scale := 115#100;
           easing := ease_in_out; anchorX := clamped.1; anchorY := clamped.2;
           reason := "manual" |} in
      setEdit state (Some (withZooms c (zooms c ++ [newZoom])))
        historyUpdate.1 historyUpdate.2 true
        (Some (mkSelected sel_zoom (zoom_id newZoom) None))
  end.

Definition updateZoom (zoomId : string) (changes : ZoomChanges) (state : EditorState) : EditorState :=
  match editConfig state with
  | None => state
  | Some c =>
      let historyUpdate := pushHistory state in
      let zooms' :=
        map (fun z =>
               if decide (zoom_id z ≠ zoomId) then z
               else
                 let merged := spreadZoom z changes in
                 let clamped :=
                   clampZoomAnchor (anchorX merged) (anchorY merged) (scale merged) in
                 mkZoom (zoom_id merged) (time merged) (duration merged) (scale merged)
                   (easing merged) clamped.1 clamped.2 (reason merged))
            (zooms c) in
      setEdit state (Some (withZooms c zooms')) historyUpdate.1 historyUpdate.2 true
        (selectedElement state)
  end.

(** [state.selectedElement?.id === id ? null : state.selectedElement] *)
Definition clearIfSelected (sel : option SelectedElement) (id : string) : option SelectedElement :=
  match sel with
  | Some e => if decide (sel_id e = id) then None else sel
  | None => sel
  end.

Definition deleteZoom (zoomId : string) (state : EditorState) : EditorState :=
  match editConfig state with
  | None => state
  | Some c =>
      let historyUpdate := pushHistory state in
      let zooms' := filter (fun z => zoom_id z ≠ zoomId) (zooms c) in
      setEdit state (Some (withZooms c zooms')) historyUpdate.1 historyUpdate.2 true
        (clearIfSelected (selectedElement state) zoomId)
  end.

(** *** Caption actions *)

Definition emptyOverride : CaptionOverride := mkOverride None None None.

Definition updateCaptionText (wordIndex : Z) (newText : string) (state : EditorState) : EditorState :=
  match editConfig state with
  | None => state
  | Some c =>
      let historyUpdate := pushHistory state in
      let overrides := captionOverrides c in
      let existing := default emptyOverride (overrides !! wordIndex) in
      let overrides' :=
        <[wordIndex := mkOverride (Some newText) (hidden existing) (highlight existing)]>
          overrides in
      setEdit state (Some (withCaptionOverrides c overrides'))
        historyUpdate.1 historyUpdate.2 true (selectedElement state)
  end.

Definition toggleWordHighlight (wordIndex : Z) (state : EditorState) : EditorState :=
  match editConfig state with
  | None => state
  | Some c =>
      let historyUpdate := pushHistory state in
      let overrides := captionOverrides c in
      let existing := default emptyOverride (overrides !! wordIndex) in
      let overrides' :=
        <[wordIndex := mkOverride (text existing) (hidden existing)
                         (Some (negb (default false (highlight existing))))]>
          overrides in
      setEdit state (Some (withCaptionOverrides c overrides'))
        historyUpdate.1 historyUpdate.2 true (selectedElement state)
  end.

Definition hideWord (wordIndex : Z) (state : EditorState) : EditorState :=
  match editConfig state with
  | None => state
  | Some c =>
      let historyUpdate := pushHistory state in
      let overrides := captionOverrides c in
      let existing := default emptyOverride (overrides !! wordIndex) in
      let overrides' :=
        <[wordIndex := mkOverride (text existing)
                         (Some (negb (default false (hidden existing))))
                         (highlight existing)]>
          overrides in
      setEdit state (Some (withCaptionOverrides c overrides'))
        historyUpdate.1 historyUpdate.2 true (selectedElement state)
  end.

Definition updateCaptionStyle (changes : CaptionChanges) (state : EditorState) : EditorState :=
  match editConfig state with
  | None => state
  | Some c =>
      let historyUpdate := pushHistory state in
      setEdit state (Some (withCaptions c (spreadCaptions (captions c) changes)))
        historyUpdate.1 historyUpdate.2 true (selectedElement state)
  end.

(** *** Annotation actions *)

Definition addAnnotation (stamp : string) (t : Q) (state : EditorState) : EditorState :=
  match editConfig state with
  | None => state
  | Some c =>
      let historyUpdate := pushHistory state in
      let newAnnotation :=
        {| ann_id := "ann_" +:+ stamp; ann_type := "text"; content := "Text";
           ann_x := 50; ann_y := 50; ann_width := 20; ann_height := 5;
           startTime := t;
           endTime := Qmin (t + 3) (clipEnd state - clipStart state);
           ann_style :=
             {| fontFamily := "Inter"; ann_fontSize := 32; color := "#FFFFFF";
                ann_backgroundColor := None; bold := true; italic := false;
                borderRadius := 4 |} |} in
      let annotations' := default [] (annotations c) ++ [newAnnotation] in
      setEdit state (Some (withAnnotations c annotations'))
        historyUpdate.1 historyUpdate.2 true
        (Some (mkSelected sel_annotation (ann_id newAnnotation) None))
  end.

Definition updateAnnotation (id : string) (changes : AnnotationChanges) (state : EditorState) : EditorState :=
  match editConfig state with
  | None => state
  | Some c =>
      let historyUpdate := pushHistory state in
      let annotations' :=
        map (fun a => if decide (ann_id a = id) then spreadAnnotation a changes else a)
          (default [] (annotations c)) in
      setEdit state (Some (withAnnotations c annotations'))
        historyUpdate.1 historyUpdate.2 true (selectedElement state)
  end.

Definition deleteAnnotation (id : string) (state : EditorState) : EditorState :=
  match editConfig state with
  | None => state
  | Some c =>
      let historyUpdate := pushHistory state in
      let annotations' := filter (fun a => ann_id a ≠ id) (default [] (annotations c)) in
      setEdit state (Some (withAnnotations c annotations'))
        historyUpdate.1 historyUpdate.2 true
        (clearIfSelected (selectedElement state) id)
  end.

(** *** Actions as data *)

(** The immediate-commit actions: each one pushes history. *)
Inductive DiscreteEdit :=
  | UpdateEditConfig (changes : EditConfigChanges)
  | SplitSegment (segmentId : string) (atSourceTime : Q)
  | DeleteSegment (segmentId : string)
  | AdjustSegmentEdge (segmentId : string) (edge : Edge) (newTime : Q)
  | AddZoom (stamp : string) (t : Q)
  | UpdateZoom (zoomId : string) (changes : ZoomChanges)
  | DeleteZoom (zoomId : string)
  | UpdateCaptionText (wordIndex : Z) (newText : string)
  | ToggleWordHighlight (wordIndex : Z)
  | HideWord (wordIndex : Z)
  | UpdateCaptionStyle (changes : CaptionChanges)
  | AddAnnotation (stamp : string) (t : Q)
  | UpdateAnnotation (id : string) (changes : AnnotationChanges)
  | DeleteAnnotation (id : string).

Definition discrete (e : DiscreteEdit) : EditorState -> EditorState :=
  match e with
  | UpdateEditConfig changes => updateEditConfig changes
  | SplitSegment i t => splitSegment i t
  | DeleteSegment i => deleteSegment i
  | AdjustSegmentEdge i e t => adjustSegmentEdge i e t
  | AddZoom stamp t => addZoom stamp t
  | UpdateZoom i ch => updateZoom i ch
  | DeleteZoom i => deleteZoom i
  | UpdateCaptionText i t => updateCaptionText i t
  | ToggleWordHighlight i => toggleWordHighlight i
  | HideWord i => hideWord i
  | UpdateCaptionStyle ch => updateCaptionStyle ch
  | AddAnnotation stamp t => addAnnotation stamp t
  | UpdateAnnotation i ch => updateAnnotation i ch
  | DeleteAnnotation i => deleteAnnotation i
  end.

Inductive Action :=
  | Initialize (c : Clip) (p : Project) (url : string) (proxy : option string)
      (videos : option (list SourceVideo)) (words : list Word) (cStart cEnd : Q)
  | ToggleProxy
  | SetPlaybackState (playing : bool) (cur total : Q)
  | Edit (e : DiscreteEdit)
  | UpdateEditConfigDebounced (changes : EditConfigChanges)
  | Undo
  | Redo
  | SelectElement (element : option SelectedElement)
  | SetTimelineZoom (zoom : Q)
  | SetTimelineScroll (scroll : Q)
  | MarkSaved (dateNow : Q)
  | MarkSaving.

Definition onStore (f : EditorState -> EditorState) (w : Session) : Session :=
  mkSession (f (store w)) (_debounceTimer w) (_debounceSnapshot w) (clock w).

Definition perform (a : Action) : Session -> Session :=
  match a with
  | Initialize c p url proxy videos words cStart cEnd =>
      onStore (initialize c p url proxy videos words cStart cEnd)
  | ToggleProxy => onStore toggleProxy
  | SetPlaybackState playing cur total => onStore (setPlaybackState playing cur total)
  | Edit e => onStore (discrete e)
  | UpdateEditConfigDebounced changes => updateEditConfigDebounced changes
  | Undo => undo
  | Redo => redo
  | SelectElement element => onStore (selectElement element)
  | SetTimelineZoom zoom => onStore (setTimelineZoom zoom)
  | SetTimelineScroll scroll => onStore (setTimelineScroll scroll)
  | MarkSaved dateNow => onStore (markSaved dateNow)
  | MarkSaving => onStore markSaving
  end.

(** What happens to a session: an action is called, or time passes. When
    [dt] milliseconds pass, the pending timeout fires once its instant is
    reached. *)
Inductive Event :=
  | Call (a : Action)
  | Elapse (dt : nat).

Definition elapse (dt : nat) (w : Session) : Session :=
  let w' :=
    match _debounceTimer w with
    | Some due => if (due <=? clock w + dt)%nat then debounceFire w else w
    | None => w
    end in
  mkSession (store w') (_debounceTimer w') (_debounceSnapshot w') (clock w + dt)%nat.

Definition step (w : Session) (e : Event) : Session :=
  match e with
  | Call a => perform a w
  | Elapse dt => elapse dt w
  end.

Definition run (w : Session) (es : list Event) : Session := foldl step w es.

Inductive reachable : Session -> Prop :=
  | reachable_initial : reachable initialSession
  | reachable_step w e : reachable w -> reachable (step w e).

End Store.

(** ** The timeline ([components/editor/Timeline.tsx]) *)

Module Timeline.

Definition SNAP_THRESHOLD_PX : Q := 8.

(** Convert output time to pixel position, and back. *)
Definition timeToX (timelineZoom t : Q) : Q := t * timelineZoom.

(** The same conversions as the source computes them in double
    precision; the functions of the drag path below that carry the suffix
    64 are the ones of the same name with every operation rounded. *)
Definition timeToX64 (timelineZoom t : Q) : Q := t ⊗ timelineZoom.
Definition xToTime64 (timelineZoom x : Q) : Q := x ⊘ timelineZoom.

Record SegmentBlock := mkBlock {
  block_seg : SegmentConfig;
  outputStart : Q;
  outputEnd : Q;
  width : Q;
  left : Q
}.

(** The [map] callback of [segmentBlocks] with its running
    [outputOffset]. *)
Fixpoint segmentBlocksFrom (timelineZoom outputOffset : Q) (segs : list SegmentConfig)
    : list SegmentBlock :=
  match segs with
  | [] => []
  | seg :: rest =>
      let duration := sourceEnd seg - sourceStart seg in
      {| block_seg := seg;
         outputStart := outputOffset;
         outputEnd := outputOffset + duration;
         width := timeToX timelineZoom duration;
         left := timeToX timelineZoom outputOffset |}
      :: segmentBlocksFrom timelineZoom (outputOffset + duration) rest
  end.

Definition segmentBlocks (editConfig : option EditConfig) (timelineZoom : Q) : list SegmentBlock :=
  match editConfig with
  | None => []
  | Some c => segmentBlocksFrom timelineZoom 0 (segments c)
  end.

Record ZoomMarker := mkMarker {
  marker_zoom : ZoomConfig;
  marker_x : Q;
  marker_width : Q
}.

Definition zoomMarkers (editConfig : option EditConfig) (timelineZoom : Q) : list ZoomMarker :=
  match editConfig with
  | None => []
  | Some c =>
      map (fun zoom => mkMarker zoom (timeToX timelineZoom (time zoom))
                         (timeToX timelineZoom (duration zoom)))
        (zooms c)
  end.

(** The inner loop of [sourceBoundaryMarkers]: the output time of a source
    time, in the first block whose source range contains it. *)
Fixpoint locateSource (blocks : list SegmentBlock) (clipRelative : Q) : option Q :=
  match blocks with
  | [] => None
  | seg :: rest =>
      if Qle_bool (sourceStart (block_seg seg)) clipRelative
         && Qle_bool clipRelative (sourceEnd (block_seg seg))
      then Some (outputStart seg + (clipRelative - sourceStart (block_seg seg)))
      else locateSource rest clipRelative
  end.

(** [sourceBoundaryMarkers]: pixel position and name of the boundaries
    between source videos that fall inside a kept segment. *)
Definition sourceBoundaryMarkers (sourceVideos : list SourceVideo)
    (editConfig : option EditConfig) (blocks : list SegmentBlock)
    (clipStart clipEnd timelineZoom : Q) : list (Q * string) :=
  if (length sourceVideos <=? 1)%nat then []
  else
    match editConfig with
    | None => []
    | Some _ =>
        flat_map (fun video =>
                    let clipRelative := offsetInTimeline video - clipStart in
                    if Qle_bool clipRelative 0 || Qle_bool (clipEnd - clipStart) clipRelative
                    then []
                    else
                      match locateSource blocks clipRelative with
                      | Some outputTime => [(timeToX timelineZoom outputTime, originalName video)]
                      | None => []
                      end)
          (drop 1 sourceVideos)
    end.

(** The loop of [handleSplitAtPlayhead]: the segment whose output range
    contains the playhead, and the source time there. *)
Fixpoint splitPoint (outputOffset currentTime : Q) (segs : list SegmentConfig)
    : option (string * Q) :=
  match segs with
  | [] => None
  | seg :: rest =>
      let duration := sourceEnd seg ⊖ sourceStart seg in
      if Qle_bool outputOffset currentTime && Qle_bool currentTime (outputOffset ⊕ duration)
      then Some (seg_id seg, sourceStart seg ⊕ (currentTime ⊖ outputOffset))
      else splitPoint (outputOffset ⊕ duration) currentTime rest
  end.

(** [segmentBlocks] and [zoomMarkers] in double precision. *)
Fixpoint segmentBlocksFrom64 (timelineZoom outputOffset : Q) (segs : list SegmentConfig)
    : list SegmentBlock :=
  match segs with
  | [] => []
  | seg :: rest =>
      let duration := sourceEnd seg ⊖ sourceStart seg in
      {| block_seg := seg;
         outputStart := outputOffset;
         outputEnd := outputOffset ⊕ duration;
         width := timeToX64 timelineZoom duration;
         left := timeToX64 timelineZoom outputOffset |}
      :: segmentBlocksFrom64 timelineZoom (outputOffset ⊕ duration) rest
  end.

Definition segmentBlocks64 (editConfig : option EditConfig) (timelineZoom : Q)
    : list SegmentBlock :=
  match editConfig with
  | None => []
  | Some c => segmentBlocksFrom64 timelineZoom 0 (segments c)
  end.

Definition zoomMarkers64 (editConfig : option EditConfig) (timelineZoom : Q)
    : list ZoomMarker :=
  match editConfig with
  | None => []
  | Some c =>
      map (fun zoom => mkMarker zoom (timeToX64 timelineZoom (time zoom))
                         (timeToX64 timelineZoom (duration zoom)))
        (zooms c)
  end.

(** *** Snap logic *)

(** [Math.round]: the nearest integer, halves rounded up. *)
Definition Math_round (x : Q) : Q := inject_Z (Qfloor (x + (1#2))).

(** [Math.round(p * 1000) / 1000]: the product and the quotient are
    rounded to double precision, [Math.round] is exact. *)
Definition roundMs (p : Q) : Q := Math_round (p ⊗ 1000) ⊘ 1000.

(** [for (let t = 0; t <= dur; t += 1) points.push(t)], from [t] on;
    [fuel] bounds the number of iterations. *)
Fixpoint gridFrom (fuel : nat) (t dur : Q) : list Q :=
  match fuel with
  | O => []
  | S fuel' => if Qle_bool t dur then t :: gridFrom fuel' (t + 1) dur else []
  end.

Definition gridFuel (dur : Q) : nat := Z.to_nat (Qfloor dur + 2).

Definition grid (dur : Q) : list Q := gridFrom (gridFuel dur) 0 dur.

(** [[...new Set(l)]]: the first occurrence of every value, in order. *)
Fixpoint setOf (l : list Q) : list Q :=
  match l with
  | [] => []
  | x :: rest => x :: filter (fun y => negb (Qeq_bool x y)) (setOf rest)
  end.

(** [l.sort((a, b) => a - b)]: a stable ascending sort. *)
Fixpoint insertSorted (x : Q) (l : list Q) : list Q :=
  match l with
  | [] => [x]
  | y :: rest => if Qle_bool x y then x :: y :: rest else y :: insertSorted x rest
  end.

Definition sortAscending (l : list Q) : list Q := foldr insertSorted [] l.

(** The points collected before rounding. *)
Definition rawPoints (blocks : list SegmentBlock) (markers : list ZoomMarker)
    (totalDuration clipDuration : Q) : list Q :=
  let dur := if Qeq_bool totalDuration 0 then clipDuration else totalDuration in
  flat_map (fun seg => [outputStart seg; outputEnd seg]) blocks
  ++ flat_map (fun m => [time (marker_zoom m);
                         time (marker_zoom m) ⊕ duration (marker_zoom m)]) markers
  ++ grid dur.

Definition snapPoints (blocks : list SegmentBlock) (markers : list ZoomMarker)
    (totalDuration clipDuration : Q) : list Q :=
  sortAscending (setOf (map roundMs (rawPoints blocks markers totalDuration clipDuration))).

Record Snap := mkSnap {
  snap_time : Q;
  snapped : bool;
  snapPoint : option Q
}.



(** [snapTime] in double precision: the threshold is the rounded quotient
    and every distance the magnitude of a rounded difference. *)
Definition snapLoop64 (threshold t : Q) (points : list Q) : option (Q * Q) :=
  foldl (fun acc sp =>
           let dist := Qabs (t ⊖ sp) in
           if Qltb dist threshold
              && match acc with
                 | None => true
                 | Some (_, closestDist) => Qltb dist closestDist
                 end
           then Some (sp, dist) else acc)
    None points.

Definition snapTime64 (timelineZoom : Q) (points : list Q) (t : Q) : Snap :=
  let threshold := xToTime64 timelineZoom SNAP_THRESHOLD_PX in
  match snapLoop64 threshold t points with
  | Some (closest, _) => mkSnap closest true (Some closest)
  | None => mkSnap t false None
  end.

(** *** Drag state *)

Inductive DragState :=
  | SegmentEdgeDrag (segmentId : string) (edge : Edge) (initialSourceTime : Q)
  | ZoomMove (zoomId : string) (initialTime : Q).

(** The component's own state: [dragState], [dragPreviewTime],
    [snappedPoint] and [dragStartXRef.current]. *)
Record Local := mkLocal {
  dragState : option DragState;
  dragPreviewTime : option Q;
  snappedPoint : option Q;
  dragStartX : Q
}.

Section Handlers.

Variable lib : SegmentsLib.

(** The snap points the component holds for a store state. *)
Definition currentSnapPoints (s : EditorState) : list Q :=
  snapPoints (segmentBlocks64 (editConfig s) (timelineZoom s))
    (zoomMarkers64 (editConfig s) (timelineZoom s))
    (totalDuration s) (clipEnd s ⊖ clipStart s).

Definition handleSegmentEdgeMouseDown (clientX : Q) (segmentId : string) (edge : Edge)
    (ui : Local) (s : EditorState) : Local * EditorState :=
  match editConfig s with
  | None => (ui, s)
  | Some c =>
      match List.find (fun sg => bool_decide (seg_id sg = segmentId)) (segments c) with
      | None => (ui, s)
      | Some seg =>
          let t := match edge with
                   | edge_start => sourceStart seg
                   | edge_end => sourceEnd seg
                   end in
          (mkLocal (Some (SegmentEdgeDrag segmentId edge t)) (Some t) None clientX,
           selectElement (Some (mkSelected sel_segment segmentId None)) s)
      end
  end.

Definition handleZoomMouseDown (clientX : Q) (zoomId : string)
    (ui : Local) (s : EditorState) : Local * EditorState :=
  match editConfig s with
  | None => (ui, s)
  | Some c =>
      match List.find (fun z => bool_decide (zoom_id z = zoomId)) (zooms c) with
      | None => (ui, s)
      | Some zoom =>
          (mkLocal (Some (ZoomMove zoomId (time zoom))) (Some (time zoom)) None clientX,
           selectElement (Some (mkSelected sel_zoom zoomId None)) s)
      end
  end.

(** [dragState.initialSourceTime] or [dragState.initialTime]. *)
Definition initialTimeOf (d : DragState) : Q :=
  match d with
  | SegmentEdgeDrag _ _ initialSourceTime => initialSourceTime
  | ZoomMove _ initialTime => initialTime
  end.

(** The time a drag proposes at pointer position [clientX], in double
    precision. *)
Definition dragCandidate (d : DragState) (ui : Local) (s : EditorState) (clientX : Q) : Snap :=
  let deltaX := clientX ⊖ dragStartX ui in
  let deltaTime := xToTime64 (timelineZoom s) deltaX in
  let rawTime := Qmax 0 (initialTimeOf d ⊕ deltaTime) in
  snapTime64 (timelineZoom s) (currentSnapPoints s) rawTime.

Definition handleMouseMove (clientX : Q) (ui : Local) (s : EditorState)
    : Local * EditorState :=
  match dragState ui with
  | None => (ui, s)
  | Some d =>
      let snap := dragCandidate d ui s clientX in
      (mkLocal (dragState ui) (Some (snap_time snap)) (snapPoint snap) (dragStartX ui), s)
  end.

Definition handleMouseUp (clientX : Q) (ui : Local) (s : EditorState)
    : Local * EditorState :=
  match dragState ui with
  | None => (ui, s)
  | Some d =>
      let deltaX := clientX ⊖ dragStartX ui in
      let s' :=
        if Qltb 2 (Qabs deltaX) then
          let snap := dragCandidate d ui s clientX in
          match d with
          | SegmentEdgeDrag segmentId edge _ =>
              adjustSegmentEdge lib segmentId edge (snap_time snap) s
          | ZoomMove zoomId _ =>
              updateZoom zoomId
                (mkZoomChanges None (Some (snap_time snap)) None None None None None None) s
          end
        else s in
      (mkLocal None None None (dragStartX ui), s')
  end.

Definition handleSplitAtPlayhead (s : EditorState) : EditorState :=
  match editConfig s with
  | None => s
  | Some c =>
      match splitPoint 0 (currentTime s) (segments c) with
      | Some (id, splitSourceTime) => splitSegment lib id splitSourceTime s
      | None => s
      end
  end.

(** The [Delete] / [Backspace] branch of [handleKeyDown]. *)
Definition handleDeleteKey (s : EditorState) : EditorState :=
  match selectedElement s with
  | None => s
  | Some sel =>
      match sel_type sel with
      | sel_segment =>
          match editConfig s with
          | Some c =>
              if (1 <? length (segments c))%nat
              then selectElement None (deleteSegment lib (sel_id sel) s)
              else s
          | None => s
          end
      | sel_zoom => selectElement None (deleteZoom (sel_id sel) s)
      | sel_annotation => selectElement None (deleteAnnotation (sel_id sel) s)
      | sel_caption => s
      end
  end.

(** [handleDeleteSelected], the toolbar button; it reads the selection
    and the segments the component was rendered with. *)
Definition handleDeleteSelected (s : EditorState) : EditorState :=
  match selectedElement s with
  | None => s
  | Some sel =>
      match sel_type sel with
      | sel_segment =>
          match editConfig s with
          | Some c =>
              if (1 <? length (segments c))%nat
              then selectElement None (deleteSegment lib (sel_id sel) s)
              else s
          | None => s
          end
      | sel_zoom => selectElement None (deleteZoom (sel_id sel) s)
      | sel_annotation => selectElement None (deleteAnnotation (sel_id sel) s)
      | sel_caption => s
      end
  end.

(** [canDeleteSelected]: whether the toolbar shows the delete button. The
    component renders nothing while no configuration is loaded. *)
Definition canDeleteSelected (s : EditorState) : bool :=
  match editConfig s, selectedElement s with
  | Some c, Some sel =>
      match sel_type sel with
      | sel_segment => (1 <? length (segments c))%nat
      | sel_zoom | sel_annotation => true
      | sel_caption => false
      end
  | _, _ => false
  end.


(** [handleWheel]; [ctrlOrMeta] is [e.ctrlKey || e.metaKey]. *)
Definition handleWheel (ctrlOrMeta : bool) (deltaY : Q) (s : EditorState) : EditorState :=
  if ctrlOrMeta then
    let delta := if Qltb 0 deltaY then -5 else 5 in
    setTimelineZoom (timelineZoom s + delta) s
  else s.

End Handlers.

End Timeline.

(** ** The caption editor ([CaptionEditor]) *)

Module CaptionEditor.

(** The loop of [activeWordIndex] that converts output time to source time
    by walking the segments. *)
Fixpoint walk (sourceTime remainingOutputTime : Q) (segs : list SegmentConfig) : Q :=
  match segs with
  | [] => sourceTime
  | seg :: rest =>
      let segDuration := sourceEnd seg - sourceStart seg in
      if Qle_bool remainingOutputTime segDuration
      then sourceStart seg + remainingOutputTime
      else walk (sourceEnd seg) (remainingOutputTime - segDuration) rest
  end.

Definition sourceTimeAt (segs : list SegmentConfig) (currentTime : Q) : Q :=
  walk 0 currentTime segs.

(** A transcript word with its index in the transcript and its
    clip-relative times. *)
Record ClipWord := mkClipWord {
  cw_word : Word;
  originalIndex : Z;
  relativeStart : Q;
  relativeEnd : Q
}.

(** [clipWords]: the words within the clip range. *)
Definition clipWords (transcript : list Word) (clipStart clipEnd : Q) : list ClipWord :=
  match transcript with
  | [] => []
  | _ =>
      filter (fun w => Qle_bool clipStart (w_start (cw_word w))
                       && Qle_bool (w_end (cw_word w)) clipEnd)
        (imap (fun originalIndex w =>
                 mkClipWord w (Z.of_nat originalIndex)
                   (w_start w - clipStart) (w_end w - clipStart))
           transcript)
  end.

(** The test of the second loop of [activeWordIndex]. *)
Definition spokenAt (currentTime : Q) (w : ClipWord) : bool :=
  Qle_bool (relativeStart w - (5#100)) currentTime
  && Qle_bool currentTime (relativeEnd w + (5#100)).

(** [activeWordIndex]: the source time is computed and then not used. *)
Definition activeWordIndex (words : list ClipWord) (editConfig : option EditConfig)
    (currentTime : Q) : Z :=
  match words, editConfig with
  | _ :: _, Some c =>
      let sourceTime := sourceTimeAt (segments c) currentTime in
      match List.find (spokenAt currentTime) words with
      | Some w => originalIndex w
      | None => -1
      end
  | _, _ => -1
  end.

(** The component's own state: [editingWordIndex] and [editText]. *)
Record Editing := mkEditing {
  editingWordIndex : option Z;
  editText : string
}.

(** [transcript[i]] for a number [i]. *)
Definition wordAt (transcript : list Word) (i : Z) : option Word :=
  if (0 <=? i)%Z then transcript !! Z.to_nat i else None.

(** [override?.text ?? word.word], the text a word is shown with. *)
Definition displayText (editConfig : option EditConfig) (i : Z) (original : string) : string :=
  match editConfig with
  | Some c =>
      match captionOverrides c !! i with
      | Some override => default original (text override)
      | None => original
      end
  | None => original
  end.

Section Commit.

(** [String.prototype.trim]. *)
Variable trim : string -> string.

Definition commitEdit (ui : Editing) (s : EditorState) : Editing * EditorState :=
  let s' :=
    match editingWordIndex ui with
    | Some i =>
        match trim (editText ui) with
        | EmptyString => s
        | trimmed =>
            let original := default "" (word <$> wordAt (transcript s) i) in
            let currentOverrideText := displayText (editConfig s) i original in
            if decide (trimmed ≠ currentOverrideText)
            then updateCaptionText i trimmed s
            else s
        end
    | None => s
    end in
  (mkEditing None "", s').

End Commit.

End CaptionEditor.

(** ** The zoom sliders ([components/editor/PropertiesPanel.tsx]) *)

Module PropertiesPanel.

(** The bounds the two anchor sliders are given for a zoom. *)
Definition anchorMin (zoom : ZoomConfig) : Q :=
  Timeline.Math_round ((1#2) / scale zoom * 100) / 100.

Definition anchorMax (zoom : ZoomConfig) : Q :=
  Timeline.Math_round ((1 - (1#2) / scale zoom) * 100) / 100.

Definition withScale (z : ZoomConfig) (v : Q) : ZoomConfig :=
  mkZoom (zoom_id z) (time z) (duration z) v (easing z) (anchorX z) (anchorY z) (reason z).

Definition withAnchorX (z : ZoomConfig) (v : Q) : ZoomConfig :=
  mkZoom (zoom_id z) (time z) (duration z) (scale z) (easing z) v (anchorY z) (reason z).

Definition withAnchorY (z : ZoomConfig) (v : Q) : ZoomConfig :=
  mkZoom (zoom_id z) (time z) (duration z) (scale z) (easing z) (anchorX z) v (reason z).

Definition zoomsChange (zs : list ZoomConfig) : EditConfigChanges :=
  mkChanges None None None (Some zs) None None None None None None None.

Section Sliders.

Variable lib : SegmentsLib.

(** [onChange] of a slider of the zoom [zoom], which replaces one field
    of that zoom in the list and hands the list to the debounced
    update. *)
Definition sliderChange (field : ZoomConfig -> Q -> ZoomConfig)
    (zoom : ZoomConfig) (value : Q) (w : Session) : Session :=
  match editConfig (store w) with
  | None => w
  | Some c =>
      let zooms' :=
        map (fun z => if decide (zoom_id z = zoom_id zoom) then field z value else z)
          (zooms c) in
      updateEditConfigDebounced lib (zoomsChange zooms') w
  end.

Definition scaleSliderChange := sliderChange withScale.
Definition anchorXSliderChange := sliderChange withAnchorX.
Definition anchorYSliderChange := sliderChange withAnchorY.

End Sliders.

(** *** The segment controls ([SegmentProperties]) *)

Definition withTransition (s : SegmentConfig) (v : SegmentTransition) : SegmentConfig :=
  mkSegment (seg_id s) (sourceStart s) (sourceEnd s) v (transitionDuration s).

Definition withTransitionDuration (s : SegmentConfig) (v : Q) : SegmentConfig :=
  mkSegment (seg_id s) (sourceStart s) (sourceEnd s) (transition s) (Some v).

Definition segmentsChange (segs : list SegmentConfig) : EditConfigChanges :=
  mkChanges None (Some segs) None None None None None None None None None.

Section SegmentControls.

Variable lib : SegmentsLib.

(** [onChange] of the transition select of the segment [segment]. *)
Definition transitionSelectChange (segment : SegmentConfig) (value : SegmentTransition)
    (s : EditorState) : EditorState :=
  match editConfig s with
  | None => s
  | Some cfg =>
      let segments' :=
        map (fun sg => if decide (seg_id sg = seg_id segment)
                       then withTransition sg value else sg)
          (segments cfg) in
      updateEditConfig lib (segmentsChange segments') s
  end.

End SegmentControls.

(** *** The panel shown ([PropertiesPanel]) *)

Inductive Panel :=
  | SegmentPanel (segment : SegmentConfig)
  | ZoomPanel (zoom : ZoomConfig)
  | AnnotationPanel (annotation : AnnotationConfig)
  | GlobalPanel.

Definition panelFor (s : EditorState) : Panel :=
  match selectedElement s, editConfig s with
  | Some sel, Some c =>
      match sel_type sel with
      | sel_segment =>
          match List.find (fun sg => bool_decide (seg_id sg = sel_id sel)) (segments c) with
          | Some segment => SegmentPanel segment
          | None => GlobalPanel
          end
      | sel_zoom =>
          match List.find (fun z => bool_decide (zoom_id z = sel_id sel)) (zooms c) with
          | Some zoom => ZoomPanel zoom
          | None => GlobalPanel
          end
      | sel_annotation =>
          match List.find (fun a => bool_decide (ann_id a = sel_id sel))
                  (default [] (annotations c)) with
          | Some annotation => AnnotationPanel annotation
          | None => GlobalPanel
          end
      | sel_caption => GlobalPanel
      end
  | _, _ => GlobalPanel
  end.

End PropertiesPanel.

(** ** The transition popover ([components/editor/TransitionPopover.tsx]) *)

Module TransitionPopover.

Section Popover.

Variable lib : SegmentsLib.

Definition setTransition (segmentId : string) (transition : SegmentTransition)
    (s : EditorState) : EditorState :=
  match editConfig s with
  | None => s
  | Some c =>
      let segments' :=
        map (fun sg => if decide (seg_id sg = segmentId)
                       then PropertiesPanel.withTransition sg transition else sg)
          (segments c) in
      updateEditConfig lib (PropertiesPanel.segmentsChange segments') s
  end.

Definition setDuration (segmentId : string) (duration : Q) (s : EditorState) : EditorState :=
  match editConfig s with
  | None => s
  | Some c =>
      let segments' :=
        map (fun sg => if decide (seg_id sg = segmentId)
                       then PropertiesPanel.withTransitionDuration sg duration else sg)
          (segments c) in
      updateEditConfig lib (PropertiesPanel.segmentsChange segments') s
  end.

End Popover.

End TransitionPopover.

(** ** The global panel ([EditConfigPanel]) *)

Module EditConfigPanel.

Inductive ZoomIntensity := subtle | medium | aggressive.

(** The [intensity] the zoom controls are given. *)
Definition intensity (config : EditConfig) : ZoomIntensity :=
  match zooms config with
  | z :: _ =>
      if Qltb (12#10) (scale z) then aggressive
      else if Qltb (11#10) (scale z) then medium
      else subtle
  | [] => medium
  end.

Definition enabled (config : EditConfig) : bool := (0 <? length (zooms config))%nat.

Definition scaleMap (i : ZoomIntensity) : Q :=
  match i with
  | subtle => 108#100
  | medium => 115#100
  | aggressive => 125#100
  end.

(** [updateConfig]: the configuration handed to the panel's
    [onChange]. *)
Definition updateConfig (config : EditConfig) (partial : EditConfigChanges) : EditConfig :=
  spreadConfig config partial.

(** [onChange] of the zoom controls. *)
Definition intensityChange (config : EditConfig) (i : ZoomIntensity) : EditConfig :=
  updateConfig config
    (PropertiesPanel.zoomsChange
       (map (fun z => PropertiesPanel.withScale z (scaleMap i)) (zooms config))).

(** [onEnabledChange] of the zoom controls; [None] when [onChange] is not
    called. *)
Definition enabledChange (config : EditConfig) (on : bool) : option EditConfig :=
  if on then None else Some (updateConfig config (PropertiesPanel.zoomsChange [])).

End EditConfigPanel.

(** ** The editor page ([EditorPage]) *)

Module EditorPage.

(** A whole configuration as a change object. *)
Definition wholeConfig (c : EditConfig) : EditConfigChanges :=
  mkChanges (Some (outputRatio c)) (Some (segments c)) (Some (cuts c)) (Some (zooms c))
    (Some (reframing c)) (Some (captions c)) (Some (transitions c)) (Some (audio c))
    (Some (overlays c)) (Some (captionOverrides c))
    (match annotations c with
     | Some l => Some (Some l)
     | None => None
     end).

Section Page.

Variable lib : SegmentsLib.

(** [onChange] of the properties panel:
    [updateEditConfig(newConfig)]. *)
Definition onChange (newConfig : EditConfig) (s : EditorState) : EditorState :=
  updateEditConfig lib (wholeConfig newConfig) s.

End Page.

(** The keys that set the shuttle speed. *)
Inductive ShuttleKey := KeySpace | KeyJ | KeyK | KeyL.

(** [shuttleSpeedRef.current] after a key. *)
Definition shuttleKey (k : ShuttleKey) (speed : Z) : Z :=
  match k with
  | KeySpace => 0
  | KeyJ => Z.max (speed - 1) (-2)
  | KeyK => 0
  | KeyL => Z.min (speed + 1) 2
  end.

End EditorPage.

(** ** The earlier store ([stores/editorStore.ts]) *)

Module EditorStore.

Definition updateZoom (zoomId : string) (changes : ZoomChanges) (state : EditorState)
    : EditorState :=
  match editConfig state with
  | None => state
  | Some c =>
      let historyUpdate := pushHistory state in
      let zooms' :=
        map (fun z => if decide (zoom_id z = zoomId) then spreadZoom z changes else z)
          (zooms c) in
      setEdit state (Some (withZooms c zooms')) historyUpdate.1 historyUpdate.2 true
        (selectedElement state)
  end.

Definition undo (s : EditorState) : EditorState :=
  match last (editHistory s), editConfig s with
  | Some previous, Some c =>
      setEdit s (Some previous) (take (length (editHistory s) - 1) (editHistory s))
        (c :: editFuture s) true (selectedElement s)
  | _, _ => s
  end.

Definition redo (s : EditorState) : EditorState :=
  match editFuture s, editConfig s with
  | next :: rest, Some c =>
      setEdit s (Some next) (editHistory s ++ [c]) rest true (selectedElement s)
  | _, _ => s
  end.

End EditorStore.

(** ** The coordinate mapper *)

Module TimeMap.

Record Entry := mkEntry {
  e_sourceStart : Q;
  e_sourceEnd : Q;
  e_outputStart : Q
}.

Definition e_duration (e : Entry) : Q := e_sourceEnd e - e_sourceStart e.
Definition e_outputEnd (e : Entry) : Q := e_outputStart e + e_duration e.

(** Modelled from the spec: [lib/editor/TimeMap.ts] is not among the
    sources. "Built from the ordered segment list: for each segment in
    array order, outputStart_i = sum of duration_j (j<i)". *)
Fixpoint buildFrom (outputOffset : Q) (segs : list SegmentConfig) : list Entry :=
  match segs with
  | [] => []
  | seg :: rest =>
      mkEntry (sourceStart seg) (sourceEnd seg) outputOffset
      :: buildFrom (outputOffset + (sourceEnd seg - sourceStart seg)) rest
  end.

Definition build (segs : list SegmentConfig) : list Entry := buildFrom 0 segs.

(** Modelled from the spec: the engine's [totalDuration], "totalDuration
    = sum of duration_i". *)
Definition totalDuration (segs : list SegmentConfig) : Q :=
  foldr (fun seg acc => (sourceEnd seg - sourceStart seg) + acc) 0 segs.

(** Modelled from the spec: the test of [outputToSource], "the segment
    whose [outputStart, outputStart+duration) contains t". *)
Definition containsOutput (t : Q) (e : Entry) : bool :=
  Qle_bool (e_outputStart e) t && Qltb t (e_outputEnd e).

(** Modelled from the spec: [outputToSource] of the absent
    [lib/editor/TimeMap.ts], "locate the segment whose [outputStart,
    outputStart+duration) contains t; result = sourceStart + (t -
    outputStart). For t beyond total duration, clamp to the end of the last
    segment." The spec is silent on an empty list and on negative [t]; the
    model answers 0 for the first and clamps the second like the times
    beyond the end. *)
Definition outputToSource (segs : list SegmentConfig) (t : Q) : Q :=
  let entries := build segs in
  match List.find (containsOutput t) entries with
  | Some e => e_sourceStart e + (t - e_outputStart e)
  | None =>
      match last entries with
      | Some e => e_sourceEnd e
      | None => 0
      end
  end.

(** Modelled from the spec: the test of [sourceToOutput], "the segment
    whose [sourceStart, sourceEnd] contains s". *)
Definition containsSource (s : Q) (e : Entry) : bool :=
  Qle_bool (e_sourceStart e) s && Qle_bool s (e_sourceEnd e).

(** Modelled from the spec: "the nearest preceding segment" of a source
    time in a removed region, taken to be the segment with the greatest
    [sourceEnd] below [s]. *)
Definition nearestPreceding (s : Q) (entries : list Entry) : option Entry :=
  foldl (fun best e =>
           if Qltb (e_sourceEnd e) s
              && match best with
                 | None => true
                 | Some b => Qltb (e_sourceEnd b) (e_sourceEnd e)
                 end
           then Some e else best)
    None entries.

(** Modelled from the spec: [sourceToOutput] of the absent
    [lib/editor/TimeMap.ts], "locate the segment whose [sourceStart,
    sourceEnd] contains s; result = outputStart + (s - sourceStart)", the
    first such segment in array order as in the timeline's
    [sourceBoundaryMarkers]; in a removed region, "the output position of
    the end of the nearest preceding segment", and 0 when there is none. *)
Definition sourceToOutput (segs : list SegmentConfig) (s : Q) : Q :=
  let entries := build segs in
  match List.find (containsSource s) entries with
  | Some e => e_outputStart e + (s - e_sourceStart e)
  | None =>
      match nearestPreceding s entries with
      | Some e => e_outputEnd e
      | None => 0
      end
  end.

(** Modelled from the spec: [sourceToOutput] read the other way where
    several segments contain [s] (which the spec leaves open): the last
    such segment in array order. *)
Definition sourceToOutputLast (segs : list SegmentConfig) (s : Q) : Q :=
  let entries := build segs in
  match List.find (containsSource s) (rev entries) with
  | Some e => e_outputStart e + (s - e_sourceStart e)
  | None =>
      match nearestPreceding s entries with
      | Some e => e_outputEnd e
      | None => 0
      end
  end.

(** The segment invariant: every segment has a positive duration and
    there is at least one segment. *)
Definition validSegments (segs : list SegmentConfig) : Prop :=
  segs <> [] /\ Forall (fun seg => sourceStart seg < sourceEnd seg) segs.

(** [s] lies inside a kept segment. *)
Definition kept (segs : list SegmentConfig) (s : Q) : Prop :=
  Exists (fun seg => sourceStart seg <= s <= sourceEnd seg) segs.

(** The segments are listed in source order and do not overlap. *)
Fixpoint chronological (segs : list SegmentConfig) : Prop :=
  match segs with
  | [] => True
  | seg :: rest =>
      Forall (fun later => sourceEnd seg <= sourceStart later) rest
      /\ chronological rest
  end.

(** [s] is the [sourceEnd] of the segment [sourceToOutput] locates. *)
Definition atLocatedEnd (segs : list SegmentConfig) (s : Q) : Prop :=
  match List.find (containsSource s) (build segs) with
  | Some e => s == e_sourceEnd e
  | None => False
  end.

End TimeMap.

(** ** The segment library, for concrete runs *)

Module SegmentsSpec.

(** Modelled from the spec: the minimum duration of a segment, "sourceEnd >
    sourceStart + epsilon (epsilon about 0.1s)". *)
Definition MIN_DURATION : Q := 1#10.

(** Modelled from the spec: [lib/editor/segments.ts] is not among the
    sources. "split(segments, id, atSourceTime): replaces one segment with
    two contiguous ones summing to the original duration; the second half
    defaults to no transition, the first half retains the original's
    incoming transition. Returns input unchanged if atSourceTime is not
    strictly inside the segment's range." The second half's id is not
    specified; the model appends a suffix. *)
Definition splitSegment (segs : list SegmentConfig) (id : string) (atSourceTime : Q)
    : list SegmentConfig :=
  flat_map (fun seg =>
              if bool_decide (seg_id seg = id)
                 && Qltb (sourceStart seg) atSourceTime
                 && Qltb atSourceTime (sourceEnd seg)
              then [mkSegment (seg_id seg) (sourceStart seg) atSourceTime
                      (transition seg) (transitionDuration seg);
                    mkSegment (seg_id seg +:+ "_b") atSourceTime (sourceEnd seg)
                      t_none None]
              else [seg])
    segs.

(** Modelled from the spec: "deleteSegment(segments, id): removes the
    segment unless it is the last remaining one". *)
Definition deleteSegment (segs : list SegmentConfig) (id : string) : list SegmentConfig :=
  if (length segs <=? 1)%nat then segs
  else filter (fun seg => seg_id seg ≠ id) segs.

(** Modelled from the spec: "adjustEdge(segments, id, edge,
    newSourceTime): moves sourceStart or sourceEnd, rejecting values that
    would violate the minimum-duration invariant" ([sourceEnd >
    sourceStart + 0.1]). *)
Definition adjustSegmentEdge (segs : list SegmentConfig) (id : string) (edge : Edge)
    (newSourceTime : Q) : list SegmentConfig :=
  map (fun seg =>
         if bool_decide (seg_id seg = id) then
           match edge with
           | edge_start =>
               if Qltb (newSourceTime + MIN_DURATION) (sourceEnd seg)
               then mkSegment (seg_id seg) newSourceTime (sourceEnd seg)
                      (transition seg) (transitionDuration seg)
               else seg
           | edge_end =>
               if Qltb (sourceStart seg + MIN_DURATION) newSourceTime
               then mkSegment (seg_id seg) (sourceStart seg) newSourceTime
                      (transition seg) (transitionDuration seg)
               else seg
           end
         else seg)
    segs.

(** Modelled from the spec: "segmentsToCuts(segments, clipDuration):
    derives the gap list", "gaps between consecutive kept source
    ranges". Cut ids and reasons are not specified; the model names the
    cut after the segment it follows. *)
Fixpoint segmentsToCuts (segs : list SegmentConfig) (clipDuration : Q) : list CutConfig :=
  match segs with
  | a :: (b :: _) as rest =>
      (if Qltb (sourceEnd a) (sourceStart b)
       then [mkCut ("cut_" +:+ seg_id a) (sourceEnd a) (sourceStart b) manual]
       else [])
      ++ segmentsToCuts rest clipDuration
  | _ => []
  end.

Definition lib : SegmentsLib :=
  mkSegmentsLib splitSegment adjustSegmentEdge deleteSegment segmentsToCuts.

End SegmentsSpec.

(** ** Sample data *)

Module Sample.

Definition captions0 : CaptionConfig :=
  mkCaptions true hormozi bottom medium "#FFFFFF" "#FFD700" None "Inter" 3
    word_by_word true [].

Definition audio0 : AudioConfig :=
  mkAudio true false (mkMusic false None (3#10) true) (mkSfx false false false (1#2)).

Definition overlays0 : OverlayConfig :=
  mkOverlays false None None (mkWatermark false None "bottom-right").

Definition seg (id : string) (a b : Q) : SegmentConfig := mkSegment id a b t_none None.

Definition configOf (segs : list SegmentConfig) (zs : list ZoomConfig) : EditConfig :=
  mkEditConfig R9_16 segs [] zs (mkReframing false center_mode None) captions0
    (mkTransitions intro_none outro_none between_hard) audio0 overlays0 ∅ None.

(** Two kept ranges, [0,10] and [12,20], of a 20 second clip. *)
Definition config0 : EditConfig := configOf [seg "seg_1" 0 10; seg "seg_2" 12 20] [].

Definition clip0 : Clip := mkClip "clip" config0.

(** The store after [initialize] with [clip0]. *)
Definition store0 : EditorState :=
  initialize clip0 (mkProject "project") "video.mp4" None None [] 0 20 initialStore.

Definition session0 : Session := mkSession store0 None None 0.

End Sample.

(** ** Runs of the store *)

Section Runs.

Variable lib : SegmentsLib.

(** The two stacks together never hold more than [MAX_HISTORY] entries. *)
Definition stacksBounded (s : EditorState) : Prop :=
  (length (editHistory s) + length (editFuture s) <= MAX_HISTORY)%nat.

(** A sequence of immediate-commit edits. *)
Definition edits (es : list DiscreteEdit) (s : EditorState) : EditorState :=
  foldl (fun s e => discrete lib e s) s es.

(** The calls of one gesture: a first debounced update, then further ones,
    each [gap] milliseconds after the one before. *)
Definition gestureCalls (first : EditConfigChanges) (rest : list (nat * EditConfigChanges))
    : list Event :=
  Call (UpdateEditConfigDebounced first)
  :: flat_map (fun p => [Elapse p.1; Call (UpdateEditConfigDebounced p.2)]) rest.

(** The state of a session in the middle of a gesture that started from
    the store [s0] with configuration [c0]. *)
Definition inGesture (s0 : EditorState) (c0 cfg : EditConfig) (w : Session) : Prop :=
  editConfig (store w) = Some cfg
  /\ editHistory (store w) = editHistory s0
  /\ editFuture (store w) = editFuture s0
  /\ clipEnd (store w) = clipEnd s0
  /\ clipStart (store w) = clipStart s0
  /\ _debounceSnapshot w = Some c0
  /\ _debounceTimer w = Some (clock w + DEBOUNCE_MS)%nat.

(** The whole gesture: the calls, then [quiet] milliseconds without a
    call. *)
Definition gestureEvents (first : EditConfigChanges) (rest : list (nat * EditConfigChanges))
    (quiet : nat) : list Event :=
  gestureCalls first rest ++ [Elapse quiet].

(** The configuration after the changes of a gesture have been applied in
    order. *)
Definition gestureConfig (s : EditorState) (c : EditConfig) (changes : list EditConfigChanges)
    : EditConfig :=
  foldl (applyChanges lib s) c changes.

(** A key of a change object has been applied: the key holds the value
    the object gives for it, or what it held before when the object does
    not carry the key. *)
Definition keyApplied {A} (given : option A) (before after : A) : Prop :=
  match given with
  | Some v => after = v
  | None => after = before
  end.

(** The change object [changes] has been applied to the configuration
    [before], giving [after]: every key of the object is applied, and with
    new segments the cuts are the ones the segment library derives from
    them for a clip of [clipDuration] seconds. *)
Definition changesApplied (clipDuration : Q) (changes : EditConfigChanges)
    (before after : EditConfig) : Prop :=
  keyApplied (ch_outputRatio changes) (outputRatio before) (outputRatio after)
  /\ keyApplied (ch_segments changes) (segments before) (segments after)
  /\ match ch_segments changes with
     | Some segs => cuts after = segmentsToCuts lib segs clipDuration
     | None => keyApplied (ch_cuts changes) (cuts before) (cuts after)
     end
  /\ keyApplied (ch_zooms changes) (zooms before) (zooms after)
  /\ keyApplied (ch_reframing changes) (reframing before) (reframing after)
  /\ keyApplied (ch_captions changes) (captions before) (captions after)
  /\ keyApplied (ch_transitions changes) (transitions before) (transitions after)
  /\ keyApplied (ch_audio changes) (audio before) (audio after)
  /\ keyApplied (ch_overlays changes) (overlays before) (overlays after)
  /\ keyApplied (ch_captionOverrides changes) (captionOverrides before)
       (captionOverrides after)
  /\ keyApplied (ch_annotations changes) (annotations before) (annotations after).

End Runs.

(** ** Zoom anchor bounds *)

(** The invariant of a zoom keyframe: [half <= anchor <= 1 - half] with
    [half = 0.5 / scale], for both anchors. *)
Definition anchorsInBounds (z : ZoomConfig) : Prop :=
  let half := (1#2) / scale z in
  (half <= anchorX z /\ anchorX z <= 1 - half)
  /\ (half <= anchorY z /\ anchorY z <= 1 - half).

(** The store fields an edit is not meant to touch. *)
Definition sameOutsideEdit (s s' : EditorState) : Prop :=
  clip s' = clip s /\ project s' = project s
  /\ sourceVideoUrl s' = sourceVideoUrl s /\ proxyVideoUrl s' = proxyVideoUrl s
  /\ useProxy s' = useProxy s /\ sourceVideos s' = sourceVideos s
  /\ transcript s' = transcript s
  /\ clipStart s' = clipStart s /\ clipEnd s' = clipEnd s
  /\ timelineZoom s' = timelineZoom s /\ timelineScroll s' = timelineScroll s
  /\ isPlaying s' = isPlaying s /\ currentTime s' = currentTime s
  /\ totalDuration s' = totalDuration s
  /\ isSaving s' = isSaving s /\ lastSavedAt s' = lastSavedAt s.

(** ** More sample data *)

Module Scenario.

Import Sample.

Definition red : CaptionChanges :=
  mkCaptionChanges None None None None (Some "#FF0000") None None None None None None None.

(** A zoom at scale 2 with both anchors at the lower bound 0.25. *)
Definition wideZoom : ZoomConfig :=
  mkZoom "z_1" 1 (1#2) 2 ease_in_out (1#4) (1#4) "manual".

(** The zoom [addZoom] creates. *)
Definition defaultZoom : ZoomConfig :=
  mkZoom "z_1" 1 (1#2) (115#100) ease_in_out (1#2) (10#23) "manual".

Definition zoomed (z : ZoomConfig) : Session :=
  mkSession
    (setEdit store0 (Some (configOf [seg "seg_1" 0 10; seg "seg_2" 12 20] [z])) [] []
       false (Some (mkSelected sel_zoom "z_1" None)))
    None None 0.

(** An edit, its undo, and a slider gesture that is still pending. *)
Definition pendingAfterUndo : Session :=
  run SegmentsSpec.lib session0
    [Call (Edit (UpdateCaptionStyle red));
     Call Undo;
     Elapse 1000;
     Call (UpdateEditConfigDebounced (PropertiesPanel.zoomsChange [wideZoom]))].

(** Fifty-one immediate-commit edits. *)
Definition manyEdits : list DiscreteEdit :=
  map (fun k => AddZoom "t" (inject_Z (Z.of_nat k))) (seq 0 51).

(** A store with a single segment, which is selected. *)
Definition single : EditorState :=
  setEdit store0 (Some (configOf [seg "seg_1" 0 10] [])) [] [] false
    (Some (mkSelected sel_segment "seg_1" None)).

End Scenario.

(** ** Output ranges *)



(** ** Mapper entries *)

(** The entries follow one another on the output axis from [off] on. *)
Fixpoint chained (off : Q) (es : list TimeMap.Entry) : Prop :=
  match es with
  | [] => True
  | e :: rest => TimeMap.e_outputStart e = off /\ chained (TimeMap.e_outputEnd e) rest
  end.

Definition positiveEntry (e : TimeMap.Entry) : Prop :=
  TimeMap.e_sourceStart e < TimeMap.e_sourceEnd e.

(** The entries are in source order and do not overlap. *)
Fixpoint orderedEntries (es : list TimeMap.Entry) : Prop :=
  match es with
  | [] => True
  | e :: rest =>
      Forall (fun later => TimeMap.e_sourceEnd e <= TimeMap.e_sourceStart later) rest
      /\ orderedEntries rest
  end.

(** The round trip source -> output -> source -> output, and its error. *)
Definition roundTrip (segs : list SegmentConfig) (s : Q) : Q :=
  TimeMap.sourceToOutput segs (TimeMap.outputToSource segs (TimeMap.sourceToOutput segs s)).

Definition roundTripError (segs : list SegmentConfig) (s : Q) : Q :=
  Qabs (roundTrip segs s - TimeMap.sourceToOutput segs s).

(** Three kept ranges out of source order: [0,10], [20,30], [10,20]. *)
Definition reordered : list SegmentConfig :=
  [Sample.seg "a" 0 10; Sample.seg "b" 20 30; Sample.seg "c" 10 20].

(** ** Snap point lists *)

(** No two entries of the list are equal numbers. *)
Fixpoint distinctQ (l : list Q) : Prop :=
  match l with
  | [] => True
  | x :: rest => Forall (fun y => ~ x == y) rest /\ distinctQ rest
  end.

(** The output time at which the last of [segs] ends: the sum of the
    durations, taken segment by segment in double precision. *)
Definition outputEndOf (segs : list SegmentConfig) : Q :=
  foldl (fun acc seg => acc ⊕ (sourceEnd seg ⊖ sourceStart seg)) 0 segs.

(** [p] is one of the times a drag may snap to, before rounding: the
    output start or end of a segment of the configuration, the start or
    end of one of its zooms, or a whole second from 0 to [dur]. *)
Definition snapSource (cfg : option EditConfig) (dur : Q) (p : Q) : Prop :=
  (exists c i seg, cfg = Some c /\ segments c !! i = Some seg
      /\ (p = outputEndOf (take i (segments c))
          \/ p = outputEndOf (take (S i) (segments c))))
  \/ (exists c z, cfg = Some c /\ z ∈ zooms c
                  /\ (p = time z \/ p = time z ⊕ duration z))
  \/ (exists k : nat, p = inject_Z (Z.of_nat k) /\ p <= dur).

(** [n] is the integer nearest to [y], the upper one of two that are
    equally near. *)
Definition nearestInteger (n : Z) (y : Q) : Prop :=
  inject_Z n - (1#2) <= y /\ y < inject_Z n + (1#2).

(** The snap points as the specification words them: the same times, not
    rounded. *)
Definition unroundedSnapPoints (blocks : list Timeline.SegmentBlock)
    (markers : list Timeline.ZoomMarker) (totalDuration clipDuration : Q) : list Q :=
  Timeline.sortAscending
    (Timeline.setOf (Timeline.rawPoints blocks markers totalDuration clipDuration)).

(** The candidate as the specification words it: the initial time plus the
    time the pointer moved, snapped. *)
Definition unclampedCandidate (initial : Q) (ui : Timeline.Local) (s : EditorState)
    (clientX : Q) : Timeline.Snap :=
  Timeline.snapTime64 (timelineZoom s) (Timeline.currentSnapPoints s)
    (initial ⊕ Timeline.xToTime64 (timelineZoom s) (clientX ⊖ Timeline.dragStartX ui)).

Module SnapScenario.

(** One kept range, [0, 1/16], at the default zoom of 50 pixels per
    second. *)
Definition sixteenth : EditorState :=
  setEdit Sample.store0 (Some (Sample.configOf [Sample.seg "seg_1" 0 (1#16)] [])) [] []
    false None.

(** A drag of the end of that range, begun at pixel 100. *)
Definition dragging : Timeline.Local :=
  Timeline.mkLocal (Some (Timeline.SegmentEdgeDrag "seg_1" edge_end (1#16)))
    (Some (1#16)) None 100.

(** The ranges [0,10] and [12,20] with a zoom from 1 to 1.5, at the
    default zoom of 50 pixels per second. *)
Definition withZoom : EditorState :=
  setEdit Sample.store0
    (Some (Sample.configOf [Sample.seg "seg_1" 0 10; Sample.seg "seg_2" 12 20]
             [mkZoom "z_1" 1 (1#2) 2 ease_in_out (1#4) (1#4) "manual"]))
    [] [] false None.

(** A move of that zoom, begun at pixel 100. *)
Definition movingZoom : Timeline.Local :=
  Timeline.mkLocal (Some (Timeline.ZoomMove "z_1" 1)) (Some 1) None 100.

End SnapScenario.

(** ** Drag commits *)

(** The store action a released drag commits with the time [t]. *)
Definition commitOf (lib : SegmentsLib) (d : Timeline.DragState) (t : Q)
    : EditorState -> EditorState :=
  match d with
  | Timeline.SegmentEdgeDrag segmentId edge _ => adjustSegmentEdge lib segmentId edge t
  | Timeline.ZoomMove zoomId _ =>
      updateZoom zoomId (mkZoomChanges None (Some t) None None None None None None)
  end.


(** Five kept ranges out of source order, none overlapping: [0,10],
    [20,30], [10,19], [40,50], [31,40]. *)
Definition interleaved : list SegmentConfig :=
  [Sample.seg "r" 0 10; Sample.seg "p" 20 30; Sample.seg "q" 10 19;
   Sample.seg "y" 40 50; Sample.seg "z" 31 40].

(** Three kept ranges out of source order: [10,20], [0,10], [30,40]. *)
Definition reorderedWalk : list SegmentConfig :=
  [Sample.seg "a" 10 20; Sample.seg "b" 0 10; Sample.seg "c" 30 40].

(** * Further definitions *)

(** ** Histories with entries *)

Module HistoryScenario.

(** Two edits and an undo: one entry on either stack. *)
Definition midHistory : Session :=
  run SegmentsSpec.lib Sample.session0
    [Call (Edit (UpdateCaptionStyle Scenario.red)); Call (Edit (HideWord 0)); Call Undo].

(** The configuration after the first of the two edits. *)
Definition redConfig : EditConfig :=
  withCaptions Sample.config0 (spreadCaptions Sample.captions0 Scenario.red).

(** A slider gesture on the initialized store that has not been committed
    yet. *)
Definition midGesture : Session :=
  run SegmentsSpec.lib Sample.session0
    [Call (UpdateEditConfigDebounced (PropertiesPanel.zoomsChange [Scenario.wideZoom]))].

(** A second clip. *)
Definition clip1 : Clip :=
  mkClip "other" (Sample.configOf [Sample.seg "seg_9" 0 5] []).

(** The store loaded from the initial one, then fifty edits: a full undo
    stack. *)
Definition fullStack : Session :=
  run SegmentsSpec.lib initialSession
    (Call (Initialize Sample.clip0 (mkProject "project") "video.mp4" None None [] 0 20)
     :: map (fun e => Call (Edit e)) (take 50 Scenario.manyEdits)).

(** The same with the last edit undone: 49 entries to undo, one to
    redo. *)
Definition fullThenUndo : Session := step SegmentsSpec.lib fullStack (Call Undo).

End HistoryScenario.

(** No zoom of the configuration has the id [id]. *)
Definition freshZoomId (c : EditConfig) (id : string) : Prop :=
  Forall (fun z => zoom_id z <> id) (zooms c).

(** No annotation of the configuration has the id [id]. *)
Definition freshAnnotationId (c : EditConfig) (id : string) : Prop :=
  Forall (fun a => ann_id a <> id) (default [] (annotations c)).
(** ** View state *)

(** The timeline zoom is between 10 and 200 pixels per second and the
    scroll offset is not negative. *)
Definition viewInRange (s : EditorState) : Prop :=
  10 <= timelineZoom s /\ timelineZoom s <= 200 /\ 0 <= timelineScroll s.

(** Once a clip is loaded, the proxy is in use only if there is one. *)
Definition proxyConsistent (s : EditorState) : Prop :=
  clip s <> None -> useProxy s = true -> truthyString (proxyVideoUrl s) = true.

(** The events that only act on the configuration, the stacks, the dirty
    flag and the selection. *)
Definition editingEvent (e : Event) : Prop :=
  match e with
  | Call (Edit _) | Call (UpdateEditConfigDebounced _) | Call Undo | Call Redo
  | Call (SelectElement _) | Elapse _ => True
  | _ => False
  end.
(** ** Zoom invariants *)

(** [P] holds of the loaded configuration, if there is one. *)
Definition configHolds (P : EditConfig -> Prop) (s : EditorState) : Prop :=
  match editConfig s with
  | Some c => P c
  | None => True
  end.

Definition zoomsInBounds (c : EditConfig) : Prop := Forall anchorsInBounds (zooms c).

(** What an immediate edit needs for the zoom anchors to stay in bounds:
    a list of zooms handed to [updateEditConfig] is in bounds itself, and
    [updateZoom] leaves the zoom it changes with a scale of at least 1. *)
Definition keepsBounds (s : EditorState) (e : DiscreteEdit) : Prop :=
  match e with
  | UpdateEditConfig changes =>
      match ch_zooms changes with
      | Some zs => Forall anchorsInBounds zs
      | None => True
      end
  | UpdateZoom zoomId changes =>
      configHolds
        (fun c => Forall (fun z => zoom_id z = zoomId -> 1 <= scale (spreadZoom z changes))
                    (zooms c))
        s
  | _ => True
  end.

(** The zoom [updateZoom] changes is in bounds already with the changes
    merged in. *)
Definition mergedInBounds (zoomId : string) (changes : ZoomChanges) (c : EditConfig) : Prop :=
  Forall (fun z => zoom_id z = zoomId -> anchorsInBounds (spreadZoom z changes)) (zooms c).

(** The state an edit leaves that changed nothing in the
    configuration. *)
Definition recordedOnly (s : EditorState) (c : EditConfig) (sel : option SelectedElement)
    : EditorState :=
  setEdit s (Some c) (sliceLast MAX_HISTORY (editHistory s ++ [c])) [] true sel.
(** ** Caption overrides *)

(** The override of a word, [{}] when there is none. *)
Definition overrideAt (c : EditConfig) (i : Z) : CaptionOverride :=
  default emptyOverride (captionOverrides c !! i).

(** [override?.hidden] and [override?.highlight] as the caption editor
    tests them. *)
Definition isHidden (c : EditConfig) (i : Z) : bool :=
  default false (hidden (overrideAt c i)).

Definition isHighlighted (c : EditConfig) (i : Z) : bool :=
  default false (highlight (overrideAt c i)).

(** The overrides of all words but [i] are the same in [c] and [c']. *)
Definition sameOtherWords (i : Z) (c c' : EditConfig) : Prop :=
  forall j, j <> i -> captionOverrides c' !! j = captionOverrides c !! j.

(** A caption editor with surrounding spaces removed for
    [String.prototype.trim]. *)
Module TrimScenario.

Fixpoint dropSpaces (s : string) : string :=
  match s with
  | String a rest => if String.eqb (String a EmptyString) " " then dropSpaces rest else s
  | EmptyString => s
  end.

Definition trimSpaces (s : string) : string :=
  String.rev (dropSpaces (String.rev (dropSpaces s))).

(** The initialized store with a transcript of two words. *)
Definition spoken : EditorState :=
  initialize Sample.clip0 (mkProject "project") "video.mp4" None None
    [mkWord "hello" 1 2 1 None; mkWord "world" 2 3 1 None] 0 20 initialStore.

End TrimScenario.
(** ** The active word *)

(** A transcript word lies within the clip range. *)
Definition inClip (clipStart clipEnd : Q) (w : Word) : Prop :=
  clipStart <= w_start w /\ w_end w <= clipEnd.

(** The time [t] is within 0.05 seconds of the word's clip-relative
    range. *)
Definition spokenNear (clipStart t : Q) (w : Word) : Prop :=
  w_start w - clipStart - (5#100) <= t /\ t <= w_end w - clipStart + (5#100).

(** The word is in the clip range and [t] is near it. *)
Definition activeCandidate (clipStart clipEnd t : Q) (w : Word) : Prop :=
  inClip clipStart clipEnd w /\ spokenNear clipStart t w.
(** ** Timeline gestures *)

(** Pointer moves at the positions [xs], in order. *)
Definition pointerMoves (xs : list Q) (p : Timeline.Local * EditorState)
    : Timeline.Local * EditorState :=
  foldl (fun p x => Timeline.handleMouseMove x p.1 p.2) p xs.

(** The output range of the block contains [t], both ends included. *)
Definition blockContains (t : Q) (b : Timeline.SegmentBlock) : bool :=
  Qle_bool (Timeline.outputStart b) t && Qle_bool t (Timeline.outputEnd b).

(** The source range of the block contains [s], both ends included. *)
Definition blockKeeps (s : Q) (b : Timeline.SegmentBlock) : bool :=
  Qle_bool (sourceStart (Timeline.block_seg b)) s
  && Qle_bool s (sourceEnd (Timeline.block_seg b)).

(** Timeline scenarios. *)
Module TimelineScenario.

(** The component state with no drag in progress. *)
Definition idle : Timeline.Local := Timeline.mkLocal None None None 0.

(** Two source videos; the second starts 15 seconds into the timeline. *)
Definition twoVideos : list SourceVideo :=
  [mkSourceVideo "v1" "first.mp4" "gs://a" 15 1 0 0;
   mkSourceVideo "v2" "second.mp4" "gs://b" 5 1 1 15].

(** The initialized store with the playhead at 4 seconds. *)
Definition playing : EditorState := setPlaybackState true 4 18 Sample.store0.

(** The kept ranges [0.1, 0.3] and [0.3, 0.6], the doubles nearest to
    these tenths, with the playhead at 0.5. *)
Definition tenths : EditorState :=
  setPlaybackState false (1#2) 18
    (setEdit Sample.store0
       (Some (Sample.configOf [Sample.seg "a" (1 ⊘ 10) (3 ⊘ 10);
                               Sample.seg "b" (3 ⊘ 10) (6 ⊘ 10)] []))
       [] [] false None).

End TimelineScenario.
(** ** Layout and cuts *)

(** Ids and source ranges of a segment list. *)
Definition rangesOf (segs : list SegmentConfig) : list (string * Q * Q) :=
  map (fun sg => (seg_id sg, sourceStart sg, sourceEnd sg)) segs.

(** Output ranges and pixel geometry of the blocks. *)
Definition layoutOf (blocks : list Timeline.SegmentBlock) : list (Q * Q * Q * Q) :=
  map (fun b => (Timeline.outputStart b, Timeline.outputEnd b,
                 Timeline.width b, Timeline.left b))
    blocks.

(** The cuts of the loaded configuration are the ones the segment library
    derives from its segments. *)
Definition cutsSynced (lib : SegmentsLib) (s : EditorState) : Prop :=
  configHolds
    (fun c => cuts c = segmentsToCuts lib (segments c) (clipEnd s - clipStart s)) s.

(** The edits that derive the cuts anew. *)
Definition resyncsCuts (e : DiscreteEdit) : Prop :=
  match e with
  | SplitSegment _ _ | DeleteSegment _ | AdjustSegmentEdge _ _ _ => True
  | UpdateEditConfig changes => ch_segments changes <> None
  | _ => False
  end.

(** An [updateEditConfig] that carries cuts and no segments. *)
Definition carriesBareCuts (e : DiscreteEdit) : Prop :=
  match e with
  | UpdateEditConfig changes => ch_segments changes = None /\ ch_cuts changes <> None
  | _ => False
  end.

(** The shuttle speed after the keys [keys], from [speed]. *)
Definition shuttleAfter (keys : list EditorPage.ShuttleKey) (speed : Z) : Z :=
  foldl (fun v k => EditorPage.shuttleKey k v) speed keys.

(** The event is a call of [initialize]. *)
Definition isInitialize (e : Event) : Prop :=
  match e with
  | Call (Initialize _ _ _ _ _ _ _ _) => True
  | _ => False
  end.

(** * Properties *)

(** ** Numbers *)

Lemma Qltb_lt (a b : Q) : Qltb a b = true <-> a < b.
Proof.
  unfold Qltb. rewrite negb_true_iff. split.
  - intros H. apply Qnot_le_lt. intros Hle.
    apply Qle_bool_iff in Hle. congruence.
  - intros H. destruct (Qle_bool b a) eqn:E; [|reflexivity].
    apply Qle_bool_iff in E. lra.
Qed.

Lemma Qltb_ge (a b : Q) : Qltb a b = false <-> b <= a.
Proof.
  unfold Qltb. rewrite negb_false_iff. apply Qle_bool_iff.
Qed.

Lemma Qle_bool_false (a b : Q) : Qle_bool a b = false <-> b < a.
Proof.
  split.
  - intros H. apply Qnot_le_lt. intros Hle.
    apply Qle_bool_iff in Hle. congruence.
  - intros H. destruct (Qle_bool a b) eqn:E; [|reflexivity].
    apply Qle_bool_iff in E. lra.
Qed.

(** ** Double precision *)

(** A rounded value is in lowest terms. *)
Lemma round_reduced (x : Q) : Qred (Double.round x) = Double.round x.
Proof.
  unfold Double.round. destruct (Qeq_bool (Qred x) 0); [reflexivity|].
  destruct (Qle_bool 0 (Qred x)); apply Qred_complete, Qred_correct.
Qed.

(** Two rounded values that are equal numbers are the same value. *)
Lemma round_canonical (x y : Q) :
  Double.round x == Double.round y -> Double.round x = Double.round y.
Proof.
  intros H. rewrite <- (round_reduced x), <- (round_reduced y).
  apply Qred_complete, H.
Qed.

Lemma round_proper (x y : Q) : x == y -> Double.round x = Double.round y.
Proof.
  intros H. unfold Double.round. rewrite (Qred_complete x y H). reflexivity.
Qed.

Lemma roundHalfEven_le (y : Q) (n : Z) :
  y <= inject_Z n -> (Double.roundHalfEven y <= n)%Z.
Proof.
  intros Hy. unfold Double.roundHalfEven.
  pose proof (Qfloor_le y) as Hlo. pose proof (Qlt_floor y) as Hhi.
  assert (Hf : (Qfloor y <= n)%Z).
  { rewrite <- (Qfloor_Z n). apply Qfloor_resp_le, Hy. }
  destruct (Z.eq_dec (Qfloor y) n) as [E|E].
  - rewrite E in *.
    destruct (Qcompare (y - inject_Z n) (1#2)) eqn:Ec; [|lia|].
    + apply Qeq_alt in Ec. lra.
    + apply Qgt_alt in Ec. lra.
  - destruct (Qcompare (y - inject_Z (Qfloor y)) (1#2)); [destruct (Z.even _)| |]; lia.
Qed.

Lemma roundHalfEven_nonneg (y : Q) : 0 <= y -> (0 <= Double.roundHalfEven y)%Z.
Proof.
  intros Hy. unfold Double.roundHalfEven.
  assert (Hf : (0 <= Qfloor y)%Z).
  { rewrite <- (Qfloor_Z 0). apply Qfloor_resp_le, Hy. }
  destruct (Qcompare (y - inject_Z (Qfloor y)) (1#2)); [destruct (Z.even _)| |]; lia.
Qed.

Lemma pow2_pos (e : Z) : 0 < 2 ^ e.
Proof. apply Qpower_0_lt. reflexivity. Qed.

(** Rounding does not take a number past 2. *)
Lemma round_within_2 (d : Q) : Qabs d <= 2 -> Qabs (Double.round d) <= 2.
Proof.
  intros Hd. unfold Double.round.
  assert (Hq : Qred d == d) by apply Qred_correct.
  destruct (Qeq_bool (Qred d) 0) eqn:E0; [discriminate|].
  set (a := Qabs (Qred d)).
  assert (Ha : a <= 2) by (unfold a; rewrite Hq; exact Hd).
  assert (Ha0 : 0 <= a) by apply Qabs_nonneg.
  set (e := Z.max (Double.ilog2 a - 52) (-1074)).
  assert (He : (e <= 1)%Z).
  { assert (Hk : (Double.ilog2 a <= 1)%Z).
    { unfold Double.ilog2.
      assert (Hnum : (Qnum a <= 2 * Zpos (Qden a))%Z).
      { unfold Qle in Ha. simpl in Ha. lia. }
      assert (Hlog : (Z.log2 (Qnum a) <= Z.log2 (Zpos (Qden a)) + 1)%Z).
      { etransitivity; [apply Z.log2_le_mono, Hnum|].
        rewrite Z.log2_double by lia. lia. }
      destruct (Qle_bool _ a); lia. }
    lia. }
  set (m := Double.roundHalfEven (a / 2 ^ e)).
  pose proof (pow2_pos e) as Hpos.
  assert (Hsplit : 2 == inject_Z (2 ^ (1 - e)) * 2 ^ e).
  { rewrite Zpower_Qpower by lia. change (inject_Z 2) with 2.
    rewrite <- Qpower_plus by discriminate.
    replace (1 - e + e)%Z with 1%Z by lia. reflexivity. }
  assert (Hm : (m <= 2 ^ (1 - e))%Z).
  { apply roundHalfEven_le. apply Qle_shift_div_r; [exact Hpos|].
    rewrite <- Hsplit. exact Ha. }
  assert (Hm0 : (0 <= m)%Z).
  { apply roundHalfEven_nonneg. apply Qle_shift_div_l; [exact Hpos|]. lra. }
  assert (Hr : 0 <= inject_Z m * 2 ^ e /\ inject_Z m * 2 ^ e <= 2).
  { split.
    - apply Qmult_le_0_compat; [|lra]. change 0 with (inject_Z 0).
      rewrite <- Zle_Qle. exact Hm0.
    - rewrite Hsplit at 2. apply Qmult_le_compat_r; [|lra].
      rewrite <- Zle_Qle. exact Hm. }
  destruct (Qle_bool 0 (Qred d)).
  - rewrite Qred_correct. rewrite Qabs_pos; tauto.
  - rewrite Qred_correct, Qabs_opp, Qred_correct. rewrite Qabs_pos; tauto.
Qed.

(** The rounding is the machine's: on a tenth, on the sum of a tenth and
    a fifth, on the times of a drag of 8 pixels at 50 pixels per second, on
    a product that does not return to 1, on a tie below the normal range
    and on a negative quotient. *)
Example round_matches_binary64 :
  Double.ofFloat (1 / 10) = Some (1 ⊘ 10)
  /\ Double.ofFloat (1 / 10 + 2 / 10) = Some (1 ⊘ 10 ⊕ 2 ⊘ 10)
  /\ Double.ofFloat (8 / 50) = Some (8 ⊘ 50)
  /\ Double.ofFloat (1 + 8 / 50) = Some (1 ⊕ 8 ⊘ 50)
  /\ Double.ofFloat (1 + 8 / 50 - 1) = Some (1 ⊕ 8 ⊘ 50 ⊖ 1)
  /\ Double.ofFloat (1 / 49 * 49) = Some (1 ⊘ 49 ⊗ 49)
  /\ Double.ofFloat (0x1p-1074 / 2) = Some (Double.round (2 ^ (-1074)) ⊘ 2)
  /\ Double.ofFloat (0x3p-1074 / 2) = Some (Double.round (3 * 2 ^ (-1074)) ⊘ 2)
  /\ Double.ofFloat (-7 / 3) = Some (-7 ⊘ 3)
  /\ Double.ofFloat (15005 / 10000 * 1000) = Some (15005 ⊘ 10000 ⊗ 1000).
Proof. repeat split; vm_compute; reflexivity. Qed.

(** The sum of a tenth and a fifth is not three tenths, and the 49th part
    of 1 taken 49 times is not 1. *)
Example double_sums_are_rounded :
  ~ 1 ⊘ 10 ⊕ 2 ⊘ 10 == 3 ⊘ 10
  /\ 1 ⊘ 49 ⊗ 49 < 1.
Proof. split; vm_compute; [discriminate|reflexivity]. Qed.


(** ** The history stacks *)

Lemma sliceLast_length {A} (n : nat) (l : list A) : (length (sliceLast n l) <= n)%nat.
Proof. unfold sliceLast. rewrite length_drop. lia. Qed.

Lemma sliceLast_short {A} (n : nat) (l : list A) :
  (length l <= n)%nat -> sliceLast n l = l.
Proof.
  intros H. unfold sliceLast. replace (length l - n)%nat with 0%nat by lia.
  reflexivity.
Qed.

(** Pushing onto a stack that is cut to its last [n] entries drops entries
    from the old end only. *)
Lemma sliceLast_app {A} (n : nat) (h l : list A) :
  (length l <= n)%nat ->
  sliceLast n (h ++ l) = drop (length h + length l - n) h ++ l.
Proof.
  intros H. unfold sliceLast. rewrite length_app, drop_app.
  replace (length h + length l - n - length h)%nat with 0%nat by lia.
  reflexivity.
Qed.

Section History.

Variable lib : SegmentsLib.

(** Every immediate-commit action has the same effect on the stacks. *)
Lemma discrete_shape (e : DiscreteEdit) (s : EditorState) (c : EditConfig) :
  editConfig s = Some c ->
  exists c' sel,
    discrete lib e s
    = setEdit s (Some c') (sliceLast MAX_HISTORY (editHistory s ++ [c])) [] true sel.
Proof.
  intros Hc.
  destruct e; simpl;
    unfold updateEditConfig, splitSegment, deleteSegment, adjustSegmentEdge,
      addZoom, updateZoom, deleteZoom, updateCaptionText, toggleWordHighlight,
      hideWord, updateCaptionStyle, addAnnotation, updateAnnotation,
      deleteAnnotation, pushHistory;
    rewrite Hc; simpl; eauto.
Qed.

Lemma discrete_unloaded (e : DiscreteEdit) (s : EditorState) :
  editConfig s = None -> discrete lib e s = s.
Proof.
  intros Hc.
  destruct e; simpl;
    unfold updateEditConfig, splitSegment, deleteSegment, adjustSegmentEdge,
      addZoom, updateZoom, deleteZoom, updateCaptionText, toggleWordHighlight,
      hideWord, updateCaptionStyle, addAnnotation, updateAnnotation,
      deleteAnnotation;
    rewrite Hc; reflexivity.
Qed.

Lemma popUndo_bounded (s : EditorState) : stacksBounded s -> stacksBounded (popUndo s).
Proof.
  unfold stacksBounded, popUndo. intros H.
  destruct (last (editHistory s)) eqn:El; [|exact H].
  destruct (editConfig s); [|exact H].
  simpl. rewrite length_take.
  destruct (editHistory s); [discriminate|]. simpl in *. lia.
Qed.

Lemma popRedo_bounded (s : EditorState) : stacksBounded s -> stacksBounded (popRedo s).
Proof.
  unfold stacksBounded, popRedo. intros H.
  destruct (editFuture s) as [|next rest] eqn:Ef; [rewrite Ef; exact H|].
  destruct (editConfig s); [|rewrite Ef; exact H].
  simpl in *. rewrite length_app. simpl. lia.
Qed.

Lemma flush_bounded (s : EditorState) (snapshot : EditConfig) :
  stacksBounded
    (setEdit s (editConfig s) (sliceLast MAX_HISTORY (editHistory s ++ [snapshot])) []
       (isDirty s) (selectedElement s)).
Proof.
  unfold stacksBounded. simpl.
  pose proof (sliceLast_length MAX_HISTORY (editHistory s ++ [snapshot])). lia.
Qed.

Lemma discrete_bounded (e : DiscreteEdit) (s : EditorState) :
  stacksBounded s -> stacksBounded (discrete lib e s).
Proof.
  intros H. destruct (editConfig s) as [c|] eqn:Hc.
  - destruct (discrete_shape e s c Hc) as (c' & sel & ->).
    unfold stacksBounded. simpl.
    pose proof (sliceLast_length MAX_HISTORY (editHistory s ++ [c])). lia.
  - rewrite discrete_unloaded by assumption. exact H.
Qed.

Lemma step_bounded (w : Session) (e : Event) :
  stacksBounded (store w) -> stacksBounded (store (step lib w e)).
Proof.
  intros H. destruct e as [a|dt]; simpl.
  - destruct a; simpl; try exact H.
    + unfold stacksBounded. simpl. unfold MAX_HISTORY. lia.
    + unfold toggleProxy. destruct (truthyString _); exact H.
    + apply discrete_bounded, H.
    + unfold updateEditConfigDebounced. destruct (editConfig (store w)); exact H.
    + apply popUndo_bounded. destruct (_debounceSnapshot w); [apply flush_bounded|exact H].
    + apply popRedo_bounded, H.
  - unfold elapse. destruct (_debounceTimer w) as [due|]; [|exact H].
    destruct (due <=? clock w + dt)%nat; [|exact H].
    unfold debounceFire. simpl.
    destruct (_debounceSnapshot w); [|exact H].
    destruct (editConfig (store w)) eqn:Hc; [|exact H].
    rewrite <- Hc. apply flush_bounded.
Qed.

Lemma reachable_run (w : Session) (es : list Event) :
  reachable lib w -> reachable lib (run lib w es).
Proof.
  revert w. induction es as [|e es IH]; intros w Hw; [exact Hw|].
  apply IH, reachable_step, Hw.
Qed.

Lemma reachable_bounded (w : Session) : reachable lib w -> stacksBounded (store w).
Proof.
  induction 1 as [|w e _ IH].
  - unfold stacksBounded. simpl. unfold MAX_HISTORY. lia.
  - apply step_bounded, IH.
Qed.

(** C6. Every immediate-commit edit pushes the configuration it replaces
    onto the undo stack, which is cut to its last 50 entries (so a full
    stack loses its oldest entry), and empties the redo stack; in every
    reachable state the undo stack holds at most 50 entries. *)
Theorem discrete_edit_pushes_bounded_history :
  (forall (e : DiscreteEdit) (s : EditorState) (c : EditConfig),
      editConfig s = Some c ->
      editHistory (discrete lib e s) = sliceLast MAX_HISTORY (editHistory s ++ [c])
      /\ editHistory (discrete lib e s)
         = drop (length (editHistory s) + 1 - MAX_HISTORY) (editHistory s) ++ [c]
      /\ editFuture (discrete lib e s) = [])
  /\ MAX_HISTORY = 50%nat
  /\ (forall w : Session,
         reachable lib w -> (length (editHistory (store w)) <= 50)%nat).
Proof.
  split; [|split; [reflexivity|]].
  - intros e s c Hc.
    destruct (discrete_shape e s c Hc) as (c' & sel & ->). simpl.
    split; [reflexivity|]. split; [|reflexivity].
    apply (sliceLast_app MAX_HISTORY (editHistory s) [c]).
    simpl. unfold MAX_HISTORY. lia.
  - intros w Hw. pose proof (reachable_bounded w Hw) as H.
    unfold stacksBounded, MAX_HISTORY in H. lia.
Qed.

End History.

(** ** Undo and redo *)

Lemma popUndo_last (s : EditorState) (H : list EditConfig) (p c : EditConfig) :
  editConfig s = Some c ->
  editHistory s = H ++ [p] ->
  popUndo s = setEdit s (Some p) H (c :: editFuture s) true (selectedElement s).
Proof.
  intros Hc Hh. unfold popUndo. rewrite Hh, Hc, last_snoc, length_app. simpl.
  replace (length H + 1 - 1)%nat with (length H) by lia.
  rewrite take_app_length. reflexivity.
Qed.

Lemma popRedo_first (s : EditorState) (next c : EditConfig) (rest : list EditConfig) :
  editConfig s = Some c ->
  editFuture s = next :: rest ->
  popRedo s = setEdit s (Some next) (editHistory s ++ [c]) rest true (selectedElement s).
Proof. intros Hc Hf. unfold popRedo. rewrite Hf, Hc. reflexivity. Qed.

(** Undoing as many times as there are entries [L] on top of the undo
    stack walks back through them: the entries, then the configuration
    that was current, end up as the current configuration followed by the
    redo stack. *)
Lemma popUndo_iter (L : list EditConfig) :
  forall (s : EditorState) (H : list EditConfig) (c : EditConfig),
    editConfig s = Some c ->
    editHistory s = H ++ L ->
    exists c',
      editConfig (Nat.iter (length L) popUndo s) = Some c'
      /\ editHistory (Nat.iter (length L) popUndo s) = H
      /\ c' :: editFuture (Nat.iter (length L) popUndo s) = L ++ c :: editFuture s.
Proof.
  induction L as [|p L' IH] using rev_ind; intros s H c Hc Hh.
  - exists c. simpl. rewrite app_nil_r in Hh. auto.
  - rewrite length_app. simpl. rewrite Nat.add_1_r, Nat.iter_succ_r.
    rewrite app_assoc in Hh.
    rewrite (popUndo_last s (H ++ L') p c Hc Hh).
    destruct (IH (setEdit s (Some p) (H ++ L') (c :: editFuture s) true (selectedElement s))
                H p eq_refl eq_refl) as (c' & Hc' & Hh' & Hf').
    exists c'. split; [exact Hc'|]. split; [exact Hh'|].
    rewrite Hf'. simpl. rewrite <- app_assoc. reflexivity.
Qed.

(** Redoing as many times as there are entries [R] on the redo stack walks
    forward through them. *)
Lemma popRedo_iter (R : list EditConfig) :
  forall (s : EditorState) (F : list EditConfig) (c : EditConfig),
    editConfig s = Some c ->
    editFuture s = R ++ F ->
    exists c',
      editConfig (Nat.iter (length R) popRedo s) = Some c'
      /\ editFuture (Nat.iter (length R) popRedo s) = F
      /\ editHistory (Nat.iter (length R) popRedo s) ++ [c']
         = editHistory s ++ c :: R.
Proof.
  induction R as [|next R' IH]; intros s F c Hc Hf.
  - exists c. simpl. auto.
  - simpl length. rewrite Nat.iter_succ_r.
    rewrite (popRedo_first s next c (R' ++ F) Hc Hf).
    destruct (IH (setEdit s (Some next) (editHistory s ++ [c]) (R' ++ F) true
                    (selectedElement s)) F next eq_refl eq_refl)
      as (c' & Hc' & Hf' & Hh').
    exists c'. split; [exact Hc'|]. split; [exact Hf'|].
    rewrite Hh'. simpl. rewrite <- app_assoc. reflexivity.
Qed.

Section UndoRedo.

Variable lib : SegmentsLib.

(** After at most [MAX_HISTORY] edits the undo stack ends with the
    configurations the edits replaced, the first of which is the initial
    one. *)
Lemma edits_history (es : list DiscreteEdit) :
  forall (s : EditorState) (c0 : EditConfig),
    editConfig s = Some c0 ->
    (length es <= MAX_HISTORY)%nat ->
    exists H L cN T,
      editConfig (edits lib es s) = Some cN
      /\ editHistory (edits lib es s) = H ++ L
      /\ length L = length es
      /\ L ++ [cN] = c0 :: T
      /\ (es <> [] -> editFuture (edits lib es s) = []).
Proof.
  induction es as [|e es' IH] using rev_ind; intros s c0 Hc Hlen.
  - exists (editHistory s), [], c0, []. simpl. rewrite app_nil_r.
    repeat split; done.
  - rewrite length_app in Hlen. simpl in Hlen.
    destruct (IH s c0 Hc ltac:(lia)) as (H & L & cN & T & Hc' & Hh & HL & HT & _).
    unfold edits in *. rewrite foldl_snoc.
    destruct (discrete_shape lib e _ cN Hc') as (c' & sel & ->). simpl.
    rewrite Hh.
    exists (drop (length H + length (L ++ [cN]) - MAX_HISTORY) H), (L ++ [cN]), c', (T ++ [c']).
    split; [reflexivity|]. split.
    + rewrite <- app_assoc. apply sliceLast_app.
      rewrite length_app. simpl. lia.
    + split; [rewrite !length_app; simpl; lia|].
      split; [rewrite HT; reflexivity|]. reflexivity.
Qed.

Lemma run_edits (es : list DiscreteEdit) (w : Session) :
  run lib w (map (fun e => Call (Edit e)) es)
  = mkSession (edits lib es (store w)) (_debounceTimer w) (_debounceSnapshot w) (clock w).
Proof.
  revert w. induction es as [|e es' IH]; intros w.
  - destruct w; reflexivity.
  - unfold run in *. simpl. rewrite IH. reflexivity.
Qed.

Lemma undo_iter (n : nat) (w : Session) :
  _debounceSnapshot w = None ->
  store (Nat.iter n undo w) = Nat.iter n popUndo (store w)
  /\ _debounceSnapshot (Nat.iter n undo w) = None.
Proof.
  intros Hs. induction n as [|n [IHs IHn]]; [auto|].
  simpl. rewrite IHn, IHs. auto.
Qed.

Lemma redo_iter (n : nat) (w : Session) :
  store (Nat.iter n redo w) = Nat.iter n popRedo (store w).
Proof.
  induction n as [|n IH]; [reflexivity|].
  simpl. rewrite IH. reflexivity.
Qed.

(** C4, as amended. From a session with configuration [C0] and no gesture
    commit pending, after [N <= 50] immediate-commit edits, [N] undos bring
    the configuration back to [C0] and [N] further redos bring it back to
    the configuration the edits produced. *)
Theorem undo_redo_history_integrity (w : Session) (C0 : EditConfig) (es : list DiscreteEdit) :
  editConfig (store w) = Some C0 ->
  _debounceSnapshot w = None ->
  (length es <= 50)%nat ->
  let N := length es in
  let edited := run lib w (map (fun e => Call (Edit e)) es) in
  let undone := Nat.iter N undo edited in
  let redone := Nat.iter N redo undone in
  editConfig (store undone) = Some C0
  /\ editConfig (store redone) = editConfig (store edited).
Proof.
  intros Hc Hs Hlen N edited undone redone.
  subst N edited undone redone. rewrite run_edits.
  destruct (undo_iter (length es)
              (mkSession (edits lib es (store w)) (_debounceTimer w) (_debounceSnapshot w) (clock w))
              Hs) as [Hu _].
  rewrite redo_iter, Hu. simpl. clear Hu.
  destruct es as [|e0 es0] eqn:Ees; [simpl; auto|]. rewrite <- Ees in *.
  assert (Hne : es <> []) by (rewrite Ees; discriminate).
  destruct (edits_history es (store w) C0 Hc Hlen) as (H & L & cN & T & HcN & Hh & HL & HT & Hf).
  specialize (Hf Hne). rewrite <- HL.
  destruct (popUndo_iter L (edits lib es (store w)) H cN HcN Hh) as (c' & Hc' & Hh' & Hf').
  rewrite Hf in Hf'.
  rewrite HT in Hf'.
  injection Hf' as -> Hfut.
  split; [exact Hc'|].
  assert (Hlen' : length T = length L).
  { apply (f_equal length) in HT. rewrite length_app in HT. simpl in HT. lia. }
  destruct (popRedo_iter T (Nat.iter (length L) popUndo (edits lib es (store w))) [] C0 Hc')
    as (c'' & Hc'' & _ & Hh'').
  { rewrite Hfut, app_nil_r. reflexivity. }
  rewrite Hlen' in Hc'', Hh''.
  rewrite Hc'', HcN. f_equal.
  rewrite Hh', <- HT, app_assoc in Hh''.
  apply app_inj_tail in Hh''. destruct Hh'' as [_ ->]. reflexivity.
Qed.

End UndoRedo.

(** ** The debounced gesture commit *)

Section Gesture.

Variable lib : SegmentsLib.

Lemma applyChanges_bounds (s s' : EditorState) (c : EditConfig) (ch : EditConfigChanges) :
  clipEnd s = clipEnd s' -> clipStart s = clipStart s' ->
  applyChanges lib s c ch = applyChanges lib s' c ch.
Proof. intros He Hs. unfold applyChanges. rewrite He, Hs. reflexivity. Qed.

(** A debounced update applies its value at once and leaves both stacks
    alone. *)
Lemma debounced_call (ch : EditConfigChanges) (w : Session) (c : EditConfig) :
  editConfig (store w) = Some c ->
  updateEditConfigDebounced lib ch w
  = mkSession
      (setEdit (store w) (Some (applyChanges lib (store w) c ch))
         (editHistory (store w)) (editFuture (store w)) true (selectedElement (store w)))
      (Some (clock w + DEBOUNCE_MS)%nat)
      (Some (default c (_debounceSnapshot w)))
      (clock w).
Proof.
  intros Hc. unfold updateEditConfigDebounced. rewrite Hc.
  destruct (_debounceSnapshot w); reflexivity.
Qed.

Lemma gesture_first (w : Session) (c0 : EditConfig) (ch : EditConfigChanges) :
  editConfig (store w) = Some c0 ->
  _debounceSnapshot w = None ->
  inGesture (store w) c0 (applyChanges lib (store w) c0 ch)
    (updateEditConfigDebounced lib ch w).
Proof.
  intros Hc Hs. rewrite (debounced_call ch w c0 Hc), Hs.
  repeat split.
Qed.

Lemma gesture_next (s0 : EditorState) (c0 cfg : EditConfig) (w : Session)
    (gap : nat) (ch : EditConfigChanges) :
  inGesture s0 c0 cfg w ->
  (gap < DEBOUNCE_MS)%nat ->
  inGesture s0 c0 (applyChanges lib s0 cfg ch)
    (updateEditConfigDebounced lib ch (elapse gap w)).
Proof.
  intros (Hc & Hh & Hf & He & Hst & Hs & Ht) Hgap.
  assert (Hel : elapse gap w
                = mkSession (store w) (_debounceTimer w) (_debounceSnapshot w)
                    (clock w + gap)%nat).
  { unfold elapse. rewrite Ht.
    destruct (Nat.leb_spec (clock w + DEBOUNCE_MS) (clock w + gap)); [lia|].
    rewrite ?Ht. reflexivity. }
  rewrite Hel.
  rewrite (debounced_call ch
             (mkSession (store w) (_debounceTimer w) (_debounceSnapshot w) (clock w + gap)%nat)
             cfg Hc).
  simpl. rewrite Hs.
  rewrite (applyChanges_bounds (store w) s0 cfg ch He Hst).
  repeat split; assumption.
Qed.

(** What [applyChanges] computes is the configuration with the change
    object applied. *)
Lemma applyChanges_applied (s : EditorState) (c : EditConfig) (ch : EditConfigChanges) :
  changesApplied lib (clipEnd s - clipStart s) ch c (applyChanges lib s c ch).
Proof.
  unfold changesApplied, applyChanges.
  destruct (ch_segments ch) as [segs|] eqn:Es;
    unfold syncCutsFromSegments, withCuts, spreadConfig; cbn -[Qminus]; rewrite ?Es;
    repeat split;
    match goal with
    | |- keyApplied ?g _ _ => destruct g; reflexivity
    | _ => reflexivity
    end.
Qed.

(** Less than 300ms without a call leave a gesture as it is. *)
Lemma gesture_wait (s0 : EditorState) (c0 cfg : EditConfig) (w : Session) (gap : nat) :
  inGesture s0 c0 cfg w ->
  (gap < DEBOUNCE_MS)%nat ->
  store (elapse gap w) = store w.
Proof.
  intros (_ & _ & _ & _ & _ & _ & Ht) Hgap. unfold elapse. rewrite Ht.
  destruct (Nat.leb_spec (clock w + DEBOUNCE_MS) (clock w + gap)); [lia|reflexivity].
Qed.

Lemma gesture_calls (s0 : EditorState) (c0 : EditConfig)
    (rest : list (nat * EditConfigChanges)) :
  forall (w : Session) (cfg : EditConfig),
    inGesture s0 c0 cfg w ->
    Forall (fun p => (p.1 < DEBOUNCE_MS)%nat) rest ->
    inGesture s0 c0 (gestureConfig lib s0 cfg (map snd rest))
      (run lib w (flat_map (fun p => [Elapse p.1; Call (UpdateEditConfigDebounced p.2)]) rest)).
Proof.
  induction rest as [|[gap ch] rest IH]; intros w cfg HG Hgaps.
  - exact HG.
  - inversion Hgaps as [|? ? Hgap Hrest]; subst.
    simpl. apply IH; [|exact Hrest].
    apply gesture_next; assumption.
Qed.

Lemma gesture_quiet (s0 : EditorState) (c0 cfg : EditConfig) (w : Session) (quiet : nat) :
  inGesture s0 c0 cfg w ->
  (DEBOUNCE_MS <= quiet)%nat ->
  elapse quiet w
  = mkSession
      (setEdit (store w) (Some cfg) (sliceLast MAX_HISTORY (editHistory s0 ++ [c0])) []
         (isDirty (store w)) (selectedElement (store w)))
      None None (clock w + quiet)%nat.
Proof.
  intros (Hc & Hh & Hf & He & Hst & Hs & Ht) Hq.
  unfold elapse. rewrite Ht.
  destruct (Nat.leb_spec (clock w + DEBOUNCE_MS) (clock w + quiet)); [|lia].
  unfold debounceFire. rewrite Hs, Hc, Hh. reflexivity.
Qed.

(** C3. A gesture is a series of debounced updates less than 300ms apart,
    started while no commit is pending, and followed by 300ms or more
    without a call. Every update is applied to the current configuration
    at once: right after a call every key of its change object holds the
    object's value, every other key what it held before the call, and the
    cuts follow new segments. No undo entry appears while the gesture
    lasts; when the timer has elapsed the undo stack has received exactly
    one entry, the configuration from before the first call (and the redo
    stack is empty). *)
Theorem gesture_coalescing (w : Session) (c0 : EditConfig) (first : EditConfigChanges)
    (rest : list (nat * EditConfigChanges)) (quiet : nat) :
  editConfig (store w) = Some c0 ->
  _debounceSnapshot w = None ->
  Forall (fun p => (p.1 < DEBOUNCE_MS)%nat) rest ->
  (DEBOUNCE_MS <= quiet)%nat ->
  (forall k : nat,
      let during := run lib w (gestureCalls first (take k rest)) in
      editConfig (store during)
      = Some (gestureConfig lib (store w) c0 (first :: map snd (take k rest)))
      /\ editHistory (store during) = editHistory (store w)
      /\ editFuture (store during) = editFuture (store w)
      /\ _debounceSnapshot during = Some c0)
  /\ (let after := run lib w (gestureEvents first rest quiet) in
      editHistory (store after) = sliceLast MAX_HISTORY (editHistory (store w) ++ [c0])
      /\ editFuture (store after) = []
      /\ editConfig (store after)
         = Some (gestureConfig lib (store w) c0 (first :: map snd rest))
      /\ _debounceSnapshot after = None
      /\ _debounceTimer after = None)
  /\ (let clipDuration := clipEnd (store w) - clipStart (store w) in
      (exists c1,
          editConfig (store (step lib w (Call (UpdateEditConfigDebounced first)))) = Some c1
          /\ changesApplied lib clipDuration first c0 c1)
      /\ forall (k gap : nat) (ch : EditConfigChanges),
           rest !! k = Some (gap, ch) ->
           let before := run lib w (gestureCalls first (take k rest)) in
           let waited := step lib before (Elapse gap) in
           let called := step lib waited (Call (UpdateEditConfigDebounced ch)) in
           called = run lib w (gestureCalls first (take (S k) rest))
           /\ exists cb ca,
                editConfig (store before) = Some cb
                /\ editConfig (store waited) = Some cb
                /\ editConfig (store called) = Some ca
                /\ changesApplied lib clipDuration ch cb ca).
Proof.
  intros Hc Hs Hgaps Hq.
  assert (Hcalls : forall rest',
             Forall (fun p => (p.1 < DEBOUNCE_MS)%nat) rest' ->
             inGesture (store w) c0
               (gestureConfig lib (store w) c0 (first :: map snd rest'))
               (run lib w (gestureCalls first rest'))).
  { intros rest' Hrest'. unfold gestureCalls, run. simpl.
    apply (gesture_calls (store w) c0 rest'); [|exact Hrest'].
    apply gesture_first; assumption. }
  split; [|split].
  - intros k during. subst during.
    destruct (Hcalls (take k rest)) as (H1 & H2 & H3 & _ & _ & H6 & _).
    { apply Forall_take, Hgaps. }
    auto.
  - intros after. subst after.
    assert (Hrun : run lib w (gestureEvents first rest quiet)
                   = elapse quiet (run lib w (gestureCalls first rest))).
    { unfold gestureEvents, run. rewrite foldl_app. reflexivity. }
    rewrite Hrun, (gesture_quiet (store w) c0 _ _ quiet (Hcalls rest Hgaps) Hq).
    simpl. destruct (Hcalls rest Hgaps) as (_ & _ & _ & _ & _ & _ & _). auto.
  - intros clipDuration. split.
    + exists (applyChanges lib (store w) c0 first). split; [|apply applyChanges_applied].
      change (step lib w (Call (UpdateEditConfigDebounced first)))
        with (updateEditConfigDebounced lib first w).
      rewrite (debounced_call first w c0 Hc). reflexivity.
    + intros k gap ch Hk before waited called.
      pose proof (Hcalls (take k rest) (Forall_take _ _ _ Hgaps)) as HG.
      fold before in HG.
      set (cb := gestureConfig lib (store w) c0 (first :: map snd (take k rest))) in *.
      assert (Hgap : (gap < DEBOUNCE_MS)%nat).
      { rewrite Forall_forall in Hgaps.
        apply (Hgaps (gap, ch)), list_elem_of_lookup. eauto. }
      pose proof (gesture_wait _ _ _ _ gap HG Hgap) as Hwait.
      pose proof (gesture_next _ _ _ _ gap ch HG Hgap) as (Hnext & _).
      split.
      * rewrite (take_S_r _ _ _ Hk). unfold gestureCalls, run.
        rewrite flat_map_app, app_comm_cons, foldl_app. reflexivity.
      * exists cb, (applyChanges lib (store w) cb ch).
        split; [exact (proj1 HG)|]. split; [|split].
        -- change (store waited) with (store (elapse gap before)).
           rewrite Hwait. exact (proj1 HG).
        -- exact Hnext.
        -- apply applyChanges_applied.
Qed.

(** A pending gesture commit is flushed by [undo]: the snapshot is pushed,
    then popped into the current configuration, and the configuration the
    gesture produced goes to the redo stack. *)
Lemma undo_flushes_pending (w : Session) (c snapshot : EditConfig) :
  editConfig (store w) = Some c ->
  _debounceSnapshot w = Some snapshot ->
  editConfig (store (undo w)) = Some snapshot
  /\ editFuture (store (undo w)) = [c]
  /\ editHistory (store (undo w))
     = drop (length (editHistory (store w)) + 1 - MAX_HISTORY) (editHistory (store w))
  /\ _debounceSnapshot (undo w) = None.
Proof.
  intros Hc Hs. unfold undo. rewrite Hs. simpl.
  rewrite (sliceLast_app MAX_HISTORY (editHistory (store w)) [snapshot])
    by (simpl; unfold MAX_HISTORY; lia).
  erewrite popUndo_last; [|exact Hc|reflexivity]. simpl. auto.
Qed.

(** [redo] drops a pending snapshot instead of pushing it. *)
Lemma redo_drops_pending (w : Session) (due : nat) :
  _debounceTimer w = Some due ->
  redo w = mkSession (popRedo (store w)) None None (clock w).
Proof. intros Ht. unfold redo. rewrite Ht. reflexivity. Qed.

End Gesture.

(** ** Undo and redo with a gesture pending *)

(** C5. With a gesture commit pending, [redo] does not flush the snapshot
    into the undo stack the way [undo] does: it drops it. After an edit, an
    undo and a slider gesture that is still pending, [undo] goes back to
    the configuration from before the gesture and keeps the gesture's
    result on the redo stack, while [redo] leaves a session in which the
    configuration from before the gesture is on neither stack. *)
Theorem redo_loses_pending_gesture :
  let w := Scenario.pendingAfterUndo in
  _debounceSnapshot w = Some Sample.config0
  /\ editConfig (store (undo w)) = Some Sample.config0
  /\ editFuture (store (undo w)) = option_list (editConfig (store w))
  /\ _debounceSnapshot (redo w) = None
  /\ (Sample.config0 ∉ editHistory (store (redo w)) ++ editFuture (store (redo w)))
  /\ editConfig (store (redo w)) <> Some Sample.config0.
Proof.
  repeat split; try reflexivity.
  - intros H. vm_compute in H.
    apply list_elem_of_In in H. simpl in H.
    destruct H as [H|[]].
    apply (f_equal (fun c => length (zooms c))) in H. discriminate.
  - intros H.
    apply (f_equal (fmap (fun c => primaryColor (captions c)))) in H. discriminate.
Qed.

(** ** The zoom anchor clamp *)

Lemma half_le (sc : Q) : 1 <= sc -> 0 < (1#2) / sc /\ (1#2) / sc <= 1#2.
Proof.
  intros H. split.
  - apply Qlt_shift_div_l; lra.
  - apply Qle_shift_div_r; lra.
Qed.

(** For a scale of at least 1 the clamp puts both anchors in bounds. *)
Lemma clampZoomAnchor_bounds (ax ay sc : Q) :
  1 <= sc ->
  let half := (1#2) / sc in
  (half <= (clampZoomAnchor ax ay sc).1 /\ (clampZoomAnchor ax ay sc).1 <= 1 - half)
  /\ (half <= (clampZoomAnchor ax ay sc).2 /\ (clampZoomAnchor ax ay sc).2 <= 1 - half).
Proof.
  intros Hsc half. destruct (half_le sc Hsc) as [_ Hh]. fold half in Hh.
  unfold clampZoomAnchor. fold half. simpl.
  repeat split; try apply Q.le_min_r;
    (apply Q.min_glb; [apply Q.le_max_r|lra]).
Qed.

(** The spec's scenario: scale 1.5 and requested anchor (0.1, 0.9). *)
Example clampZoomAnchor_scenario :
  (clampZoomAnchor (1#10) (9#10) (3#2)).1 == 1#3
  /\ (clampZoomAnchor (1#10) (9#10) (3#2)).2 == 2#3.
Proof. split; reflexivity. Qed.

(** [updateZoom] leaves the zoom it changes in bounds. *)
Lemma updateZoom_bounds (zoomId : string) (changes : ZoomChanges) (s : EditorState)
    (c c' : EditConfig) (z : ZoomConfig) :
  editConfig s = Some c ->
  editConfig (updateZoom zoomId changes s) = Some c' ->
  z ∈ zooms c' ->
  zoom_id z = default zoomId (zc_id changes) ->
  1 <= scale z ->
  (forall z0, z0 ∈ zooms c -> zoom_id z0 <> zoomId -> zoom_id z0 <> zoom_id z) ->
  anchorsInBounds z.
Proof.
  intros Hc Hc' Hz Hid Hsc Hother. unfold updateZoom in Hc'. rewrite Hc in Hc'.
  simpl in Hc'. injection Hc' as <-. simpl in Hz.
  apply list_elem_of_fmap in Hz. destruct Hz as (z0 & -> & Hz0).
  destruct (decide (zoom_id z0 ≠ zoomId)) as [Hne|_].
  - exfalso. exact (Hother z0 Hz0 Hne eq_refl).
  - unfold anchorsInBounds. simpl in *.
    apply clampZoomAnchor_bounds. exact Hsc.
Qed.

(** [addZoom] creates a zoom in bounds. *)
Lemma addZoom_bounds (stamp : string) (t : Q) (s : EditorState) (c c' : EditConfig) :
  editConfig s = Some c ->
  editConfig (addZoom stamp t s) = Some c' ->
  exists z, zooms c' = zooms c ++ [z] /\ anchorsInBounds z.
Proof.
  intros Hc Hc'. unfold addZoom in Hc'. rewrite Hc in Hc'. simpl in Hc'.
  injection Hc' as <-. eexists. split; [reflexivity|].
  unfold anchorsInBounds. simpl. apply clampZoomAnchor_bounds. lra.
Qed.

(** C7. The debounced slider updates store what the slider gives them
    without the clamp. Lowering the scale slider of a zoom at scale 2 with
    anchors at 0.25 to 1.05 leaves the anchors at 0.25, below 0.5/1.05; and
    the X anchor slider of the default zoom (scale 1.15) offers 0.43 as its
    minimum, below 0.5/1.15, which is stored as it is. *)
Theorem debounced_slider_skips_clamp :
  (anchorsInBounds Scenario.wideZoom
   /\ exists z,
       option_map zooms
         (editConfig (store (PropertiesPanel.scaleSliderChange SegmentsSpec.lib
                               Scenario.wideZoom (105#100)
                               (Scenario.zoomed Scenario.wideZoom))))
       = Some [z]
       /\ scale z == 105#100
       /\ anchorX z == 1#4
       /\ ~ anchorsInBounds z)
  /\ (anchorsInBounds Scenario.defaultZoom
      /\ PropertiesPanel.anchorMin Scenario.defaultZoom == 43#100
      /\ exists z,
          option_map zooms
            (editConfig (store (PropertiesPanel.anchorXSliderChange SegmentsSpec.lib
                                  Scenario.defaultZoom
                                  (PropertiesPanel.anchorMin Scenario.defaultZoom)
                                  (Scenario.zoomed Scenario.defaultZoom))))
          = Some [z]
          /\ scale z == 115#100
          /\ ~ anchorsInBounds z).
Proof.
  split.
  - split; [unfold anchorsInBounds; simpl; repeat split; vm_compute; discriminate|].
    eexists. split; [reflexivity|]. split; [reflexivity|]. split; [reflexivity|].
    unfold anchorsInBounds. simpl. intros [[H _] _]. vm_compute in H. apply H. reflexivity.
  - split; [unfold anchorsInBounds; simpl; repeat split; vm_compute; discriminate|].
    split; [reflexivity|].
    eexists. split; [reflexivity|]. split; [reflexivity|].
    unfold anchorsInBounds. simpl. intros [[H _] _]. vm_compute in H. apply H. reflexivity.
Qed.

(** ** Deleting the selected element *)

(** Both actions clear or keep the selection by comparing ids, whenever a
    configuration is loaded. *)
Lemma delete_selection (s : EditorState) (id : string) :
  forall op, op ∈ [deleteZoom id; deleteAnnotation id] ->
    sameOutsideEdit s (op s)
    /\ (forall sel, selectedElement s = Some sel -> sel_id sel = id ->
        editConfig s <> None -> selectedElement (op s) = None)
    /\ ((forall sel, selectedElement s = Some sel -> sel_id sel <> id) ->
        selectedElement (op s) = selectedElement s).
Proof.
  intros op Hop.
  apply list_elem_of_In in Hop. simpl in Hop.
  destruct Hop as [<- | [<- | []]]; unfold deleteZoom, deleteAnnotation;
    (destruct (editConfig s) as [c|] eqn:Hc;
     [|split; [repeat split|split; [intros; congruence|reflexivity]]]);
    (split; [repeat split|]); simpl; unfold clearIfSelected;
    (split;
     [intros sel Hsel Hid _; rewrite Hsel; destruct (decide (sel_id sel = id)); congruence
     |intros Hne; destruct (selectedElement s) as [sel|] eqn:Hsel; [|reflexivity];
      destruct (decide (sel_id sel = id)) as [Heq|]; [|reflexivity];
      exfalso; exact (Hne sel eq_refl Heq)]).
Qed.

(** C10. Deleting a zoom or an annotation of the configuration whose id is
    the id of the selected element sets the selection to null; deleting
    with another id, or with nothing selected, leaves the selection as it
    is; and in every state [deleteZoom] and [deleteAnnotation] change
    nothing but the configuration, the two stacks, the dirty flag and the
    selection. *)
Theorem delete_clears_matching_selection (s : EditorState) (id : string) :
  (sameOutsideEdit s (deleteZoom id s) /\ sameOutsideEdit s (deleteAnnotation id s))
  /\ (forall sel c,
        selectedElement s = Some sel -> sel_id sel = id -> editConfig s = Some c ->
        ((exists z, z ∈ zooms c /\ zoom_id z = id) ->
         selectedElement (deleteZoom id s) = None)
        /\ ((exists a, a ∈ default [] (annotations c) /\ ann_id a = id) ->
            selectedElement (deleteAnnotation id s) = None))
  /\ ((forall sel, selectedElement s = Some sel -> sel_id sel <> id) ->
      selectedElement (deleteZoom id s) = selectedElement s
      /\ selectedElement (deleteAnnotation id s) = selectedElement s).
Proof.
  destruct (delete_selection s id (deleteZoom id) ltac:(left)) as (Fz & Cz & Kz).
  destruct (delete_selection s id (deleteAnnotation id) ltac:(right; left)) as (Fa & Ca & Ka).
  split; [split; assumption|]. split.
  - intros sel c Hsel Hid Hc.
    assert (Hloaded : editConfig s <> None) by congruence.
    split; intros _; [apply (Cz sel)|apply (Ca sel)]; assumption.
  - intros Hne. split; [apply Kz|apply Ka]; exact Hne.
Qed.

Section DeleteGuard.

Variable lib : SegmentsLib.

(** C8. When the configuration holds exactly one segment, the delete key
    leaves that segment in place whatever is selected, and with a segment
    selected it changes nothing at all: the guard is in the handler, the
    store action is not called. *)
Theorem delete_sole_segment_noop (s : EditorState) (c : EditConfig) (seg : SegmentConfig) :
  editConfig s = Some c ->
  segments c = [seg] ->
  (forall sel, selectedElement s = Some sel -> sel_type sel = sel_segment ->
     Timeline.handleDeleteKey lib s = s)
  /\ (exists c', editConfig (Timeline.handleDeleteKey lib s) = Some c'
                 /\ segments c' = [seg]
                 /\ length (segments c') = 1%nat).
Proof.
  intros Hc Hsegs. split.
  - intros sel Hsel Hty. unfold Timeline.handleDeleteKey.
    rewrite Hsel, Hty, Hc, Hsegs. reflexivity.
  - unfold Timeline.handleDeleteKey.
    destruct (selectedElement s) as [sel|]; [|exists c; rewrite Hsegs; auto].
    destruct (sel_type sel).
    + rewrite Hc, Hsegs. simpl. exists c. rewrite Hsegs. auto.
    + exists c. rewrite Hsegs. auto.
    + unfold deleteZoom. rewrite Hc. simpl. eexists. split; [reflexivity|].
      simpl. rewrite Hsegs. auto.
    + unfold deleteAnnotation. rewrite Hc. simpl. eexists. split; [reflexivity|].
      simpl. rewrite Hsegs. auto.
Qed.

(** The store action itself has no guard: on a loaded configuration it
    always pushes history and marks the store dirty. *)
Lemma deleteSegment_unguarded (id : string) (s : EditorState) (c : EditConfig) :
  editConfig s = Some c ->
  editHistory (deleteSegment lib id s) = sliceLast MAX_HISTORY (editHistory s ++ [c])
  /\ isDirty (deleteSegment lib id s) = true.
Proof. intros Hc. unfold deleteSegment, pushHistory. rewrite Hc. simpl. auto. Qed.

End DeleteGuard.

(** ** Output ranges of the segments *)










(** The mapper's entries and the timeline's blocks start at the same
    output times. *)
Lemma build_matches_segmentBlocks (zoom : Q) (segs : list SegmentConfig) :
  forall off,
    map TimeMap.e_outputStart (TimeMap.buildFrom off segs)
    = map Timeline.outputStart (Timeline.segmentBlocksFrom zoom off segs).
Proof.
  induction segs as [|seg rest IH]; intros off; [reflexivity|].
  simpl. rewrite IH. reflexivity.
Qed.


(** The spec's scenario: segments [0,10] and [12,20]. *)
Example timeMap_scenario :
  let segs := segments Sample.config0 in
  TimeMap.totalDuration segs == 18
  /\ TimeMap.outputToSource segs 5 == 5
  /\ TimeMap.outputToSource segs 11 == 13
  /\ TimeMap.sourceToOutput segs 13 == 11.
Proof. repeat split. Qed.

(** ** The round trip through the mapper *)

Lemma find_split {A} (f : A -> bool) (l : list A) (x : A) :
  List.find f l = Some x ->
  exists l1 l2, l = l1 ++ x :: l2 /\ f x = true /\ Forall (fun y => f y = false) l1.
Proof.
  induction l as [|a l IH]; [discriminate|]. simpl.
  destruct (f a) eqn:Ea.
  - intros [= ->]. exists [], l. auto.
  - intros H. destruct (IH H) as (l1 & l2 & -> & Hx & Hl1).
    exists (a :: l1), l2. auto.
Qed.

Lemma find_skip {A} (f : A -> bool) (l1 l2 : list A) :
  Forall (fun y => f y = false) l1 -> List.find f (l1 ++ l2) = List.find f l2.
Proof.
  induction 1 as [|a l Ha _ IH]; [reflexivity|]. simpl. rewrite Ha. exact IH.
Qed.

Lemma find_exists {A} (f : A -> bool) (l : list A) :
  Exists (fun y => f y = true) l -> exists x, List.find f l = Some x.
Proof.
  induction 1 as [a l Ha|a l _ IH]; simpl.
  - rewrite Ha. eauto.
  - destruct (f a); eauto.
Qed.

Lemma containsSource_spec (s : Q) (e : TimeMap.Entry) :
  TimeMap.containsSource s e = true
  <-> TimeMap.e_sourceStart e <= s /\ s <= TimeMap.e_sourceEnd e.
Proof.
  unfold TimeMap.containsSource. rewrite andb_true_iff, !Qle_bool_iff. reflexivity.
Qed.

Lemma containsSource_false (s : Q) (e : TimeMap.Entry) :
  TimeMap.containsSource s e = false
  <-> s < TimeMap.e_sourceStart e \/ TimeMap.e_sourceEnd e < s.
Proof.
  unfold TimeMap.containsSource. rewrite andb_false_iff, !Qle_bool_false. reflexivity.
Qed.

Lemma containsOutput_spec (t : Q) (e : TimeMap.Entry) :
  TimeMap.containsOutput t e = true
  <-> TimeMap.e_outputStart e <= t /\ t < TimeMap.e_outputEnd e.
Proof.
  unfold TimeMap.containsOutput. rewrite andb_true_iff, Qle_bool_iff, Qltb_lt. reflexivity.
Qed.

Lemma containsOutput_false (t : Q) (e : TimeMap.Entry) :
  TimeMap.containsOutput t e = false
  <-> t < TimeMap.e_outputStart e \/ TimeMap.e_outputEnd e <= t.
Proof.
  unfold TimeMap.containsOutput. rewrite andb_false_iff, Qle_bool_false, Qltb_ge.
  reflexivity.
Qed.

Lemma build_chained (segs : list SegmentConfig) :
  forall off, chained off (TimeMap.buildFrom off segs).
Proof.
  induction segs as [|seg rest IH]; intros off; simpl; [exact I|].
  split; [reflexivity|]. apply IH.
Qed.

Lemma build_positive (segs : list SegmentConfig) :
  Forall (fun seg => sourceStart seg < sourceEnd seg) segs ->
  forall off, Forall positiveEntry (TimeMap.buildFrom off segs).
Proof.
  induction 1 as [|seg rest Hpos _ IH]; intros off; simpl; constructor; auto.
Qed.

Lemma build_sources (segs : list SegmentConfig) (P : Q -> Q -> Prop) :
  forall off,
    Forall (fun seg => P (sourceStart seg) (sourceEnd seg)) segs
    <-> Forall (fun e => P (TimeMap.e_sourceStart e) (TimeMap.e_sourceEnd e))
          (TimeMap.buildFrom off segs).
Proof.
  induction segs as [|seg rest IH]; intros off; simpl.
  - split; constructor.
  - rewrite !Forall_cons, <- IH. reflexivity.
Qed.

Lemma build_ordered (segs : list SegmentConfig) :
  TimeMap.chronological segs -> forall off, orderedEntries (TimeMap.buildFrom off segs).
Proof.
  induction segs as [|seg rest IH]; intros Hc off; simpl; [exact I|].
  destruct Hc as [Hlater Hrest]. split; [|apply IH, Hrest].
  apply (build_sources rest (fun a _ => sourceEnd seg <= a)), Hlater.
Qed.

Lemma build_kept (segs : list SegmentConfig) (s : Q) :
  TimeMap.kept segs s ->
  forall off, Exists (fun e => TimeMap.containsSource s e = true) (TimeMap.buildFrom off segs).
Proof.
  induction 1 as [seg rest Hs|seg rest _ IH]; intros off; simpl.
  - left. apply containsSource_spec. exact Hs.
  - right. apply IH.
Qed.

(** In a chain, whatever precedes an entry ends before it starts. *)
Lemma chained_split (l1 : list TimeMap.Entry) :
  forall off e l2,
    chained off (l1 ++ e :: l2) ->
    Forall positiveEntry (l1 ++ e :: l2) ->
    Forall (fun y => TimeMap.e_outputEnd y <= TimeMap.e_outputStart e) l1
    /\ chained (TimeMap.e_outputStart e) (e :: l2).
Proof.
  induction l1 as [|y l1 IH]; intros off e l2 Hch Hpos.
  - simpl in *. destruct Hch as [<- Hch]. auto.
  - simpl in Hch. destruct Hch as [_ Hch].
    inversion Hpos as [|? ? Hy Hpos']; subst.
    destruct (IH _ e l2 Hch Hpos') as [Hl1 Hrest].
    split; [|exact Hrest]. constructor; [|exact Hl1].
    clear IH Hrest. destruct l1 as [|z l1].
    + simpl in Hch. destruct Hch as [-> _]. lra.
    + simpl in Hch. destruct Hch as [Hz _].
      inversion Hl1 as [|? ? Hz' _]; subst.
      inversion Hpos' as [|? ? Hzpos _]; subst.
      unfold positiveEntry, TimeMap.e_outputEnd, TimeMap.e_duration in *.
      rewrite Hz in Hz'. lra.
Qed.

Lemma ordered_split (l1 : list TimeMap.Entry) :
  forall e l2,
    orderedEntries (l1 ++ e :: l2) ->
    Forall (fun y => TimeMap.e_sourceEnd y <= TimeMap.e_sourceStart e) l1
    /\ Forall (fun y => Forall (fun x => TimeMap.e_sourceEnd y <= TimeMap.e_sourceStart x) l2) l1
    /\ orderedEntries (e :: l2).
Proof.
  induction l1 as [|y l1 IH]; intros e l2 Hord.
  - simpl in *. auto.
  - simpl in Hord. destruct Hord as [Hy Hord].
    destruct (IH e l2 Hord) as (H1 & H2 & H3).
    apply Forall_app in Hy. destruct Hy as [_ Hy].
    inversion Hy as [|? ? Hye Hyl2]; subst.
    split; [constructor; assumption|].
    split; [constructor; assumption|exact H3].
Qed.

(** An output time inside an entry's range is located in that entry. *)
Lemma find_output_inside (l1 l2 : list TimeMap.Entry) (e : TimeMap.Entry) (t : Q) :
  chained 0 (l1 ++ e :: l2) ->
  Forall positiveEntry (l1 ++ e :: l2) ->
  TimeMap.e_outputStart e <= t -> t < TimeMap.e_outputEnd e ->
  List.find (TimeMap.containsOutput t) (l1 ++ e :: l2) = Some e.
Proof.
  intros Hch Hpos Hlo Hhi.
  destruct (chained_split l1 0 e l2 Hch Hpos) as [Hl1 _].
  rewrite find_skip.
  - simpl. replace (TimeMap.containsOutput t e) with true; [reflexivity|].
    symmetry. apply containsOutput_spec. auto.
  - eapply Forall_impl; [exact Hl1|]. intros y Hy. simpl in Hy.
    apply containsOutput_false. right. lra.
Qed.

Lemma find_source_at (l1 l2 : list TimeMap.Entry) (e : TimeMap.Entry) (s : Q) :
  Forall (fun y => TimeMap.containsSource s y = false) l1 ->
  TimeMap.containsSource s e = true ->
  List.find (TimeMap.containsSource s) (l1 ++ e :: l2) = Some e.
Proof. intros Hl1 He. rewrite find_skip by exact Hl1. simpl. rewrite He. reflexivity. Qed.

(** Moving a source time to an equal one does not change which entries
    contain it. *)
Lemma containsSource_false_eq (s s' : Q) (l : list TimeMap.Entry) :
  s' == s ->
  Forall (fun y => TimeMap.containsSource s y = false) l ->
  Forall (fun y => TimeMap.containsSource s' y = false) l.
Proof.
  intros Heq H. eapply Forall_impl; [exact H|]. intros y Hy. simpl in Hy.
  apply containsSource_false in Hy. apply containsSource_false. lra.
Qed.

Lemma round_trip_exact (segs : list SegmentConfig) (s : Q) :
  TimeMap.validSegments segs ->
  TimeMap.kept segs s ->
  TimeMap.chronological segs \/ ~ TimeMap.atLocatedEnd segs s ->
  roundTrip segs s == TimeMap.sourceToOutput segs s.
Proof.
  intros [Hne Hpos] Hkept Hcase.
  unfold roundTrip, TimeMap.sourceToOutput, TimeMap.outputToSource, TimeMap.atLocatedEnd in *.
  unfold TimeMap.build in *.
  pose proof (build_chained segs 0) as Hch.
  pose proof (build_positive segs Hpos 0) as Hp.
  assert (Hord : TimeMap.chronological segs -> orderedEntries (TimeMap.buildFrom 0 segs)).
  { intros H. apply build_ordered, H. }
  destruct (find_exists _ _ (build_kept segs s Hkept 0)) as [e He].
  set (es := TimeMap.buildFrom 0 segs) in *.
  rewrite He in *.
  destruct (find_split _ _ _ He) as (l1 & l2 & Hes & Hin & Hl1).
  apply containsSource_spec in Hin. destruct Hin as [Hlo Hhi].
  clearbody es. subst es. clear He.
  destruct (chained_split l1 0 e l2 Hch Hp) as [Hbefore Hrest].
  destruct (Qlt_le_dec s (TimeMap.e_sourceEnd e)) as [Hlt|Hge].
  - (* strictly before the end of the located segment *)
    rewrite (find_output_inside l1 l2 e) by
      (try assumption; unfold TimeMap.e_outputEnd, TimeMap.e_duration; lra).
    rewrite (find_source_at l1 l2 e).
    + lra.
    + apply (containsSource_false_eq s); [lra|exact Hl1].
    + apply containsSource_spec. lra.
  - (* at the end of the located segment *)
    destruct Hcase as [Hchr|Hnot]; [|exfalso; apply Hnot; lra].
    specialize (Hord Hchr). destruct (ordered_split l1 e l2 Hord) as (Ho1 & Ho2 & Ho3).
    assert (Hpe : positiveEntry e).
    { apply Forall_app in Hp. destruct Hp as [_ Hp]. inversion Hp; assumption. }
    unfold positiveEntry in Hpe.
    destruct l2 as [|e2 l3].
    + (* the last segment: the output time is the total duration *)
      assert (Hnone : List.find
                        (TimeMap.containsOutput
                           (TimeMap.e_outputStart e + (s - TimeMap.e_sourceStart e)))
                        (l1 ++ [e]) = None).
      { rewrite find_skip.
        - simpl. replace (TimeMap.containsOutput _ e) with false; [reflexivity|].
          symmetry. apply containsOutput_false. right.
          unfold TimeMap.e_outputEnd, TimeMap.e_duration. lra.
        - eapply Forall_impl; [exact Hbefore|]. intros y Hy. simpl in Hy.
          apply containsOutput_false. right. lra. }
      rewrite Hnone, last_snoc.
      rewrite (find_source_at l1 [] e).
      * lra.
      * apply (containsSource_false_eq s); [lra|exact Hl1].
      * apply containsSource_spec. lra.
    + (* the output time is the start of the next segment *)
      simpl in Hrest. destruct Hrest as (_ & Hstart & _).
      assert (Hpe2 : positiveEntry e2).
      { apply Forall_app in Hp. destruct Hp as [_ Hp].
        inversion Hp as [|? ? _ Hp']; subst. inversion Hp'; assumption. }
      unfold positiveEntry in Hpe2.
      simpl in Ho3. destruct Ho3 as [Hnext _].
      inversion Hnext as [|? ? Hee2 _]; subst.
      assert (Hfind : List.find
                        (TimeMap.containsOutput
                           (TimeMap.e_outputStart e + (s - TimeMap.e_sourceStart e)))
                        (l1 ++ e :: e2 :: l3) = Some e2).
      { rewrite find_skip.
        - simpl. replace (TimeMap.containsOutput _ e) with false.
          + replace (TimeMap.containsOutput _ e2) with true; [reflexivity|].
            symmetry. apply containsOutput_spec. rewrite Hstart.
            unfold TimeMap.e_outputEnd at 2. rewrite Hstart.
            unfold TimeMap.e_outputEnd, TimeMap.e_duration. lra.
          + symmetry. apply containsOutput_false. right.
            unfold TimeMap.e_outputEnd, TimeMap.e_duration. lra.
        - eapply Forall_impl; [exact Hbefore|]. intros y Hy. simpl in Hy.
          apply containsOutput_false. right. lra. }
      rewrite Hfind, Hstart.
      unfold TimeMap.e_outputEnd, TimeMap.e_duration.
      set (s' := TimeMap.e_sourceStart e2
                 + (TimeMap.e_outputStart e + (s - TimeMap.e_sourceStart e)
                    - (TimeMap.e_outputStart e
                       + (TimeMap.e_sourceEnd e - TimeMap.e_sourceStart e)))).
      assert (Hs' : s' == TimeMap.e_sourceStart e2) by (unfold s'; lra).
      assert (Hl1' : Forall (fun y => TimeMap.containsSource s' y = false) l1).
      { clear -Ho1 Ho2 Hs' Hpe Hee2.
        induction l1 as [|y l1 IH]; constructor.
        - inversion Ho1; subst. apply containsSource_false. right. lra.
        - inversion Ho1; inversion Ho2; subst. apply IH; assumption. }
      rewrite find_skip by exact Hl1'. simpl.
      destruct (TimeMap.containsSource s' e) eqn:Ee.
      * apply containsSource_spec in Ee. lra.
      * replace (TimeMap.containsSource s' e2) with true.
        -- unfold TimeMap.e_outputEnd, TimeMap.e_duration in Hstart.
           rewrite Hstart. lra.
        -- symmetry. apply containsSource_spec. lra.
Qed.

(** C1, as amended. For a segment list with positive durations and a
    source time inside a kept segment, the round trip through the mapper
    gives back [sourceToOutput s] exactly, hence within 1ms, provided the
    segments are in source order without overlap or [s] is not the very end
    of the segment [sourceToOutput] locates. *)
Theorem round_trip_kept_region (segs : list SegmentConfig) (s : Q) :
  TimeMap.validSegments segs ->
  TimeMap.kept segs s ->
  TimeMap.chronological segs \/ ~ TimeMap.atLocatedEnd segs s ->
  roundTrip segs s == TimeMap.sourceToOutput segs s
  /\ roundTripError segs s <= 1#1000.
Proof.
  intros Hvalid Hkept Hcase.
  pose proof (round_trip_exact segs s Hvalid Hkept Hcase) as H.
  split; [exact H|].
  unfold roundTripError. apply Qabs_case; intros _; lra.
Qed.

(** The round trip is off by ten seconds at the end of the second of the
    segments [0,10], [20,30], [10,20]. *)
Lemma round_trip_fails_reordered :
  TimeMap.validSegments reordered
  /\ TimeMap.kept reordered 30
  /\ TimeMap.sourceToOutput reordered 30 == 20
  /\ roundTrip reordered 30 == 10
  /\ ~ roundTripError reordered 30 <= 1#1000.
Proof.
  split.
  { split; [discriminate|]. repeat constructor. }
  split.
  { right. left. simpl. split; vm_compute; discriminate. }
  split; [reflexivity|]. split; [reflexivity|].
  vm_compute. intros H. apply H. reflexivity.
Qed.

(** ** Snap points *)

Lemma Qeq_bool_negb (x y : Q) : Is_true (negb (Qeq_bool x y)) <-> ~ x == y.
Proof.
  destruct (Qeq_bool x y) eqn:E; simpl.
  - apply Qeq_bool_iff in E. tauto.
  - split; [|tauto]. intros _ H. apply Qeq_bool_iff in H. congruence.
Qed.

(** Two rounded times that are equal numbers are the same value. *)
Lemma roundMs_canonical (p q : Q) :
  Timeline.roundMs p == Timeline.roundMs q -> Timeline.roundMs p = Timeline.roundMs q.
Proof. apply round_canonical. Qed.

(** [Math.round] returns the nearest integer, the upper one of two. *)
Lemma Math_round_nearest (n : Z) (y : Q) :
  Timeline.Math_round y = inject_Z n <-> nearestInteger n y.
Proof.
  unfold Timeline.Math_round, nearestInteger.
  pose proof (Qfloor_le (y + (1#2))) as Hlo. pose proof (Qlt_floor (y + (1#2))) as Hhi.
  split.
  - intros H. apply (f_equal Qnum) in H. change (Qfloor (y + (1#2)) = n) in H. subst n.
    rewrite inject_Z_plus in Hhi. change (inject_Z 1) with 1 in Hhi. lra.
  - intros [H1 H2]. f_equal.
    assert (Hge : (n <= Qfloor (y + (1#2)))%Z).
    { rewrite <- (Qfloor_Z n). apply Qfloor_resp_le. lra. }
    assert (Hle : (Qfloor (y + (1#2)) < n + 1)%Z).
    { rewrite Zlt_Qlt, inject_Z_plus. change (inject_Z 1) with 1. lra. }
    lia.
Qed.

(** A time rounded to the millisecond is the double nearest to the
    thousandth part of the integer nearest to its product with 1000. *)
Lemma roundMs_spec (p x : Q) :
  x = Timeline.roundMs p
  <-> exists n : Z, nearestInteger n (p ⊗ 1000) /\ x = inject_Z n ⊘ 1000.
Proof.
  unfold Timeline.roundMs. split.
  - intros ->. exists (Qfloor (p ⊗ 1000 + (1#2))). split; [|reflexivity].
    apply Math_round_nearest. reflexivity.
  - intros (n & Hn & ->). apply Math_round_nearest in Hn. rewrite Hn. reflexivity.
Qed.

Lemma insertSorted_elem (x z : Q) (l : list Q) :
  z ∈ Timeline.insertSorted x l <-> z = x \/ z ∈ l.
Proof.
  induction l as [|y l IH]; simpl.
  - rewrite list_elem_of_singleton, elem_of_nil. tauto.
  - destruct (Qle_bool x y).
    + rewrite elem_of_cons. tauto.
    + rewrite !elem_of_cons, IH. tauto.
Qed.

Lemma sortAscending_elem (z : Q) (l : list Q) :
  z ∈ Timeline.sortAscending l <-> z ∈ l.
Proof.
  induction l as [|x l IH]; simpl; [reflexivity|].
  rewrite insertSorted_elem, elem_of_cons, IH. reflexivity.
Qed.

Lemma insertSorted_sorted (x : Q) (l : list Q) :
  StronglySorted Qlt l ->
  Forall (fun y => ~ x == y) l ->
  StronglySorted Qlt (Timeline.insertSorted x l).
Proof.
  induction 1 as [|y l Hl IH Hy]; intros Hx; simpl.
  - repeat constructor.
  - inversion Hx as [|? ? Hxy Hxl]; subst.
    destruct (Qle_bool x y) eqn:E.
    + apply Qle_bool_iff in E.
      assert (Hlt : x < y).
      { destruct (Qlt_le_dec x y) as [|Hge]; [assumption|].
        exfalso. apply Hxy. lra. }
      constructor; [constructor; assumption|].
      constructor; [exact Hlt|].
      eapply Forall_impl; [exact Hy|]. intros z Hz. simpl in Hz. lra.
    + apply Qle_bool_false in E.
      constructor; [apply IH, Hxl|].
      apply Forall_forall. intros z Hz. apply insertSorted_elem in Hz.
      destruct Hz as [->|Hz]; [exact E|].
      rewrite Forall_forall in Hy. apply Hy, Hz.
Qed.

Lemma sortAscending_sorted (l : list Q) :
  distinctQ l -> StronglySorted Qlt (Timeline.sortAscending l).
Proof.
  induction l as [|x l IH]; intros Hd; simpl; [constructor|].
  destruct Hd as [Hx Hd]. apply insertSorted_sorted; [apply IH, Hd|].
  apply Forall_forall. intros y Hy. rewrite sortAscending_elem in Hy.
  rewrite Forall_forall in Hx. apply Hx, Hy.
Qed.

Lemma distinctQ_filter (P : Q -> Prop) `{forall x, Decision (P x)} (l : list Q) :
  distinctQ l -> distinctQ (filter P l).
Proof.
  induction l as [|x l IH]; intros Hd; [exact I|].
  destruct Hd as [Hx Hd]. rewrite filter_cons.
  destruct (decide (P x)); [|apply IH, Hd].
  split; [|apply IH, Hd].
  apply Forall_forall. intros y Hy. apply list_elem_of_filter in Hy.
  rewrite Forall_forall in Hx. apply Hx, Hy.
Qed.

Lemma setOf_distinct (l : list Q) : distinctQ (Timeline.setOf l).
Proof.
  induction l as [|x l IH]; simpl; [exact I|].
  split; [|apply distinctQ_filter, IH].
  apply Forall_forall. intros y Hy. apply list_elem_of_filter in Hy.
  destruct Hy as [Hy _]. apply Qeq_bool_negb, Hy.
Qed.

Lemma setOf_subset (z : Q) (l : list Q) : z ∈ Timeline.setOf l -> z ∈ l.
Proof.
  induction l as [|x l IH]; simpl; [tauto|].
  rewrite !elem_of_cons, list_elem_of_filter. tauto.
Qed.

(** Every value of the list is in the set, as an equal number. *)
Lemma setOf_complete (z : Q) (l : list Q) :
  z ∈ l -> exists x, x ∈ Timeline.setOf l /\ x == z.
Proof.
  induction l as [|x l IH]; [intros H; inversion H|].
  rewrite elem_of_cons. intros [->|Hz].
  - exists x. split; [left|reflexivity].
  - destruct (IH Hz) as (y & Hy & Hyz).
    destruct (Qeq_bool x y) eqn:E.
    + apply Qeq_bool_iff in E. exists x. split; [left|lra].
    + exists y. split; [|exact Hyz]. simpl. right.
      apply list_elem_of_filter. split; [|exact Hy].
      rewrite E. exact I.
Qed.

(** The grid holds the integers from 0 up to [dur]. *)
Lemma inject_Z_succ (a : Z) : inject_Z a + 1 = inject_Z (a + 1).
Proof. unfold inject_Z, Qplus. simpl. f_equal. lia. Qed.

Lemma gridFrom_elems (dur : Q) (fuel : nat) :
  forall (a : Z) (x : Q),
    x ∈ Timeline.gridFrom fuel (inject_Z a) dur
    <-> exists j : nat, (j < fuel)%nat /\ x = inject_Z (a + Z.of_nat j) /\ x <= dur.
Proof.
  induction fuel as [|fuel IH]; intros a x; simpl.
  - rewrite elem_of_nil. split; [tauto|]. intros (j & Hj & _). lia.
  - destruct (Qle_bool (inject_Z a) dur) eqn:E.
    + apply Qle_bool_iff in E. rewrite elem_of_cons, inject_Z_succ, IH. split.
      * intros [->|(j & Hj & -> & Hle)].
        -- exists 0%nat. split; [lia|]. rewrite Z.add_0_r. auto.
        -- exists (S j). split; [lia|]. split; [f_equal; lia|].
           replace (a + Z.of_nat (S j))%Z with (a + 1 + Z.of_nat j)%Z by lia. exact Hle.
      * intros ([|j] & Hj & -> & Hle).
        -- left. rewrite Z.add_0_r. reflexivity.
        -- right. exists j. split; [lia|].
           replace (a + 1 + Z.of_nat j)%Z with (a + Z.of_nat (S j))%Z by lia. auto.
    + apply Qle_bool_false in E. rewrite elem_of_nil. split; [tauto|].
      intros (j & _ & -> & Hle).
      assert (Hmono : inject_Z a <= inject_Z (a + Z.of_nat j)).
      { rewrite <- Zle_Qle. lia. }
      lra.
Qed.

Lemma grid_elems (dur x : Q) :
  x ∈ Timeline.grid dur <-> exists k : nat, x = inject_Z (Z.of_nat k) /\ x <= dur.
Proof.
  unfold Timeline.grid. change 0 with (inject_Z 0). rewrite gridFrom_elems. split.
  - intros (j & _ & -> & Hle). exists j. auto.
  - intros (k & -> & Hle). exists k. split; [|auto].
    unfold Timeline.gridFuel.
    assert (Hfl : (Z.of_nat k <= Qfloor dur)%Z).
    { rewrite <- (Qfloor_Z (Z.of_nat k)). apply Qfloor_resp_le, Hle. }
    lia.
Qed.

Lemma elem_of_flat_map {A B} (f : A -> list B) (l : list A) (y : B) :
  y ∈ flat_map f l <-> exists x, x ∈ l /\ y ∈ f x.
Proof.
  rewrite list_elem_of_In, in_flat_map. split.
  - intros (x & Hx & Hy). exists x. rewrite !list_elem_of_In. auto.
  - intros (x & Hx & Hy). exists x. rewrite list_elem_of_In in Hx.
    rewrite list_elem_of_In in Hy. auto.
Qed.

(** The output starts and ends of the blocks are the sums of the durations
    of the segments before them and up to them. *)
Lemma blocks64_ends (zoom : Q) (p : Q) :
  forall segs off,
    (exists b, b ∈ Timeline.segmentBlocksFrom64 zoom off segs
               /\ (p = Timeline.outputStart b \/ p = Timeline.outputEnd b))
    <-> exists i seg, segs !! i = Some seg
          /\ (p = foldl (fun acc sg => acc ⊕ (sourceEnd sg ⊖ sourceStart sg)) off (take i segs)
              \/ p = foldl (fun acc sg => acc ⊕ (sourceEnd sg ⊖ sourceStart sg)) off
                       (take (S i) segs)).
Proof.
  induction segs as [|seg rest IH]; intros off.
  - split.
    + intros (b & Hb & _). apply elem_of_nil in Hb. contradiction.
    + intros (i & sg & Hi & _). discriminate.
  - simpl Timeline.segmentBlocksFrom64. split.
    + intros (b & Hb & Hp). apply elem_of_cons in Hb. destruct Hb as [->|Hb].
      * exists 0%nat, seg. split; [reflexivity|]. exact Hp.
      * destruct (proj1 (IH _) (ex_intro _ b (conj Hb Hp))) as (i & sg & Hi & Hq).
        exists (S i), sg. split; [exact Hi|]. exact Hq.
    + intros ([|i] & sg & Hi & Hp).
      * injection Hi as <-. eexists. split; [left|]. exact Hp.
      * destruct (proj2 (IH (off ⊕ (sourceEnd seg ⊖ sourceStart seg)))
                    (ex_intro _ i (ex_intro _ sg (conj Hi Hp)))) as (b & Hb & Hq).
        exists b. split; [right; exact Hb|exact Hq].
Qed.

(** The points collected for a store state are the snap sources of its
    configuration. *)
Lemma rawPoints_spec (cfg : option EditConfig) (zoom total clipDuration p : Q) :
  p ∈ Timeline.rawPoints (Timeline.segmentBlocks64 cfg zoom) (Timeline.zoomMarkers64 cfg zoom)
        total clipDuration
  <-> snapSource cfg (if Qeq_bool total 0 then clipDuration else total) p.
Proof.
  unfold Timeline.rawPoints, snapSource.
  rewrite !elem_of_app, !elem_of_flat_map, grid_elems.
  assert (Hb : (exists b, b ∈ Timeline.segmentBlocks64 cfg zoom
                          /\ p ∈ [Timeline.outputStart b; Timeline.outputEnd b])
               <-> exists c i seg, cfg = Some c /\ segments c !! i = Some seg
                     /\ (p = outputEndOf (take i (segments c))
                         \/ p = outputEndOf (take (S i) (segments c)))).
  { destruct cfg as [c|]; simpl.
    - unfold outputEndOf. split.
      + intros (b & Hb & Hp). rewrite !elem_of_cons, elem_of_nil in Hp.
        assert (Hq : p = Timeline.outputStart b \/ p = Timeline.outputEnd b) by tauto.
        destruct (proj1 (blocks64_ends zoom p (segments c) 0) (ex_intro _ b (conj Hb Hq)))
          as (i & seg & Hi & Hr).
        exists c, i, seg. auto.
      + intros (c' & i & seg & [= <-] & Hi & Hq).
        destruct (proj2 (blocks64_ends zoom p (segments c) 0)
                    (ex_intro _ i (ex_intro _ seg (conj Hi Hq)))) as (b & Hb & Hp).
        exists b. split; [exact Hb|]. rewrite !elem_of_cons, elem_of_nil. tauto.
    - split.
      + intros (b & Hb & _). apply elem_of_nil in Hb. contradiction.
      + intros (c & _ & _ & Hc & _). discriminate. }
  assert (Hm : (exists m, m ∈ Timeline.zoomMarkers64 cfg zoom
                          /\ p ∈ [time (Timeline.marker_zoom m);
                                   time (Timeline.marker_zoom m)
                                   ⊕ duration (Timeline.marker_zoom m)])
               <-> exists c z, cfg = Some c /\ z ∈ zooms c
                               /\ (p = time z \/ p = time z ⊕ duration z)).
  { destruct cfg as [c|]; simpl.
    - split.
      + intros (m & Hm & Hp). apply list_elem_of_fmap in Hm. destruct Hm as (z & -> & Hz).
        simpl in Hp. rewrite !elem_of_cons, elem_of_nil in Hp.
        exists c, z. tauto.
      + intros (c' & z & [= <-] & Hz & Hp). eexists. split.
        * apply list_elem_of_fmap. exists z. split; [reflexivity|exact Hz].
        * simpl. rewrite !elem_of_cons, elem_of_nil. tauto.
    - split.
      + intros (m & Hm & _). apply elem_of_nil in Hm. contradiction.
      + intros (c & _ & Hc & _). discriminate. }
  rewrite Hb, Hm. reflexivity.
Qed.

(** The snap points are in strictly ascending order, and they are the
    rounded raw points. *)
Lemma snapPoints_spec (blocks : list Timeline.SegmentBlock) (markers : list Timeline.ZoomMarker)
    (total clipDuration : Q) :
  let points := Timeline.snapPoints blocks markers total clipDuration in
  StronglySorted Qlt points
  /\ forall x, x ∈ points
       <-> exists p, p ∈ Timeline.rawPoints blocks markers total clipDuration
                     /\ x = Timeline.roundMs p.
Proof.
  unfold Timeline.snapPoints. split.
  - apply sortAscending_sorted, setOf_distinct.
  - intros x. rewrite sortAscending_elem. split.
    + intros Hx. apply setOf_subset, list_elem_of_fmap in Hx.
      destruct Hx as (p & -> & Hp). eauto.
    + intros (p & Hp & ->).
      destruct (setOf_complete (Timeline.roundMs p)
                  (map Timeline.roundMs
                     (Timeline.rawPoints blocks markers total clipDuration)))
        as (y & Hy & Hyp).
      { apply list_elem_of_fmap. eauto. }
      pose proof (setOf_subset _ _ Hy) as Hy'. apply list_elem_of_fmap in Hy'.
      destruct Hy' as (q & -> & _).
      rewrite <- (roundMs_canonical q p Hyp). exact Hy.
Qed.

(** ** Snapping and committing a drag *)


(** The same loop in double precision; of several nearest points the
    first one of the list is kept. *)
Lemma snapLoop64_spec (threshold t : Q) (points : list Q) :
  match Timeline.snapLoop64 threshold t points with
  | Some (sp, d) =>
      d = Qabs (t ⊖ sp) /\ d < threshold
      /\ exists before after, points = before ++ sp :: after
           /\ (forall y, y ∈ before -> d < Qabs (t ⊖ y))
           /\ (forall y, y ∈ after -> d <= Qabs (t ⊖ y))
  | None => forall y, y ∈ points -> threshold <= Qabs (t ⊖ y)
  end.
Proof.
  unfold Timeline.snapLoop64.
  induction points as [|sp points IH] using rev_ind.
  - intros y Hy. apply elem_of_nil in Hy. contradiction.
  - rewrite foldl_snoc. cbv beta.
    set (acc := foldl _ None points) in *.
    set (dist := Qabs (t ⊖ sp)).
    assert (Hnew : (forall y, y ∈ points -> dist < Qabs (t ⊖ y)) -> dist < threshold ->
                   dist = Qabs (t ⊖ sp) /\ dist < threshold
                   /\ exists before after, points ++ [sp] = before ++ sp :: after
                        /\ (forall y, y ∈ before -> dist < Qabs (t ⊖ y))
                        /\ (forall y, y ∈ after -> dist <= Qabs (t ⊖ y))).
    { intros Hall Hin. split; [reflexivity|]. split; [exact Hin|].
      exists points, []. split; [reflexivity|]. split; [exact Hall|].
      intros y Hy. apply elem_of_nil in Hy. contradiction. }
    assert (Hkeep : forall c cd,
               (cd = Qabs (t ⊖ c) /\ cd < threshold
                /\ exists before after, points = before ++ c :: after
                     /\ (forall y, y ∈ before -> cd < Qabs (t ⊖ y))
                     /\ (forall y, y ∈ after -> cd <= Qabs (t ⊖ y))) ->
               cd <= dist ->
               cd = Qabs (t ⊖ c) /\ cd < threshold
               /\ exists before after, points ++ [sp] = before ++ c :: after
                    /\ (forall y, y ∈ before -> cd < Qabs (t ⊖ y))
                    /\ (forall y, y ∈ after -> cd <= Qabs (t ⊖ y))).
    { intros c cd (Hcd & Hlt & before & after & -> & Hb & Ha) Hle.
      split; [exact Hcd|]. split; [exact Hlt|].
      exists before, (after ++ [sp]). split; [rewrite <- app_assoc; reflexivity|].
      split; [exact Hb|]. intros y Hy. apply elem_of_app in Hy. destruct Hy as [Hy|Hy].
      - exact (Ha y Hy).
      - apply list_elem_of_singleton in Hy. subst y. exact Hle. }
    assert (Hall : forall c cd,
               (cd = Qabs (t ⊖ c) /\ cd < threshold
                /\ exists before after, points = before ++ c :: after
                     /\ (forall y, y ∈ before -> cd < Qabs (t ⊖ y))
                     /\ (forall y, y ∈ after -> cd <= Qabs (t ⊖ y))) ->
               forall y, y ∈ points -> cd <= Qabs (t ⊖ y)).
    { intros c cd (Hcd & Hlt & before & after & -> & Hb & Ha) y Hy.
      apply elem_of_app in Hy. destruct Hy as [Hy|Hy].
      - specialize (Hb y Hy). lra.
      - apply elem_of_cons in Hy.
        destruct Hy as [->|Hy]; [rewrite Hcd; apply Qle_refl|exact (Ha y Hy)]. }
    destruct (Qltb dist threshold) eqn:Ein; cbn [andb].
    + apply Qltb_lt in Ein. destruct acc as [[c cd]|].
      * destruct (Qltb dist cd) eqn:Ebetter.
        -- apply Qltb_lt in Ebetter. apply Hnew; [|exact Ein].
           intros y Hy. pose proof (Hall c cd IH y Hy). lra.
        -- apply Qltb_ge in Ebetter. apply Hkeep; [exact IH|exact Ebetter].
      * apply Hnew; [|exact Ein]. intros y Hy. specialize (IH y Hy). lra.
    + apply Qltb_ge in Ein. destruct acc as [[c cd]|].
      * apply Hkeep; [exact IH|]. destruct IH as (_ & Hlt & _). lra.
      * intros y Hy. apply elem_of_app in Hy. destruct Hy as [Hy|Hy].
        -- exact (IH y Hy).
        -- apply list_elem_of_singleton in Hy. subst y. exact Ein.
Qed.

Lemma sorted_after (before after : list Q) (c : Q) :
  StronglySorted Qlt (before ++ c :: after) -> Forall (Qlt c) after.
Proof.
  induction before as [|b before IH]; simpl; intros H; inversion H; subst; auto.
Qed.

Lemma snapTime64_spec (zoom t : Q) (points : list Q) :
  let threshold := 8 ⊘ zoom in
  let r := Timeline.snapTime64 zoom points t in
  ((exists sp, sp ∈ points /\ Qabs (t ⊖ sp) < threshold) ->
   Timeline.snapped r = true
   /\ Timeline.snapPoint r = Some (Timeline.snap_time r)
   /\ Timeline.snap_time r ∈ points
   /\ Qabs (t ⊖ Timeline.snap_time r) < threshold
   /\ (forall sp, sp ∈ points -> Qabs (t ⊖ Timeline.snap_time r) <= Qabs (t ⊖ sp))
   /\ (StronglySorted Qlt points ->
       forall sp, sp ∈ points -> Qabs (t ⊖ sp) <= Qabs (t ⊖ Timeline.snap_time r) ->
         Timeline.snap_time r <= sp))
  /\ ((forall sp, sp ∈ points -> threshold <= Qabs (t ⊖ sp)) ->
      r = Timeline.mkSnap t false None).
Proof.
  intros threshold r. subst r. unfold Timeline.snapTime64.
  change (Timeline.xToTime64 zoom Timeline.SNAP_THRESHOLD_PX) with threshold.
  pose proof (snapLoop64_spec threshold t points) as H.
  destruct (Timeline.snapLoop64 threshold t points) as [[c cd]|].
  - destruct H as (-> & Hlt & before & after & Hpts & Hb & Ha). split.
    + intros _. simpl.
      assert (Hc : c ∈ points).
      { rewrite Hpts. apply elem_of_app. right. left. }
      assert (Hmin : forall sp, sp ∈ points -> Qabs (t ⊖ c) <= Qabs (t ⊖ sp)).
      { intros sp Hsp. rewrite Hpts in Hsp. apply elem_of_app in Hsp.
        destruct Hsp as [Hsp|Hsp]; [specialize (Hb sp Hsp); lra|].
        apply elem_of_cons in Hsp. destruct Hsp as [->|Hsp]; [lra|exact (Ha sp Hsp)]. }
      repeat (split; [solve [auto]|]).
      intros Hsorted sp Hsp Htie. rewrite Hpts in Hsp, Hsorted.
      apply elem_of_app in Hsp. destruct Hsp as [Hsp|Hsp]; [specialize (Hb sp Hsp); lra|].
      apply elem_of_cons in Hsp. destruct Hsp as [->|Hsp]; [lra|].
      pose proof (sorted_after _ _ _ Hsorted) as Hafter.
      rewrite Forall_forall in Hafter. specialize (Hafter sp Hsp). lra.
    + intros Hfar.
      assert (Hc : c ∈ points).
      { rewrite Hpts. apply elem_of_app. right. left. }
      specialize (Hfar c Hc). lra.
  - split.
    + intros (sp & Hsp & Hnear). specialize (H sp Hsp). lra.
    + reflexivity.
Qed.

Section Drag.

Variable lib : SegmentsLib.

(** C9, as amended. The snap points of a drag are the output starts and
    ends of the configuration's segments, the starts and ends of its zooms
    and the whole seconds from 0 to the duration, each rounded to the
    millisecond, without duplicates and in ascending order. The raw
    candidate time of a drag is the initial time plus the pointer
    displacement in seconds, not below 0; it is replaced by the snap point
    nearest to it, the earliest of several, when the distance the code
    computes is below the threshold it computes from 8 pixels, and kept
    otherwise. Moving the pointer never changes the store; releasing it
    changes the store only when the displacement exceeds 2 pixels, and then
    by the one edit with the snapped time. All arithmetic is the code's, in
    double precision. *)
Theorem drag_snaps_then_commits_on_release (s : EditorState) :
  let dur := if Qeq_bool (totalDuration s) 0 then clipEnd s ⊖ clipStart s
             else totalDuration s in
  let points := Timeline.currentSnapPoints s in
  let threshold := 8 ⊘ timelineZoom s in
  (StronglySorted Qlt points
   /\ (forall x, x ∈ points
         <-> exists p n, snapSource (editConfig s) dur p
                         /\ nearestInteger n (p ⊗ 1000) /\ x = inject_Z n ⊘ 1000))
  /\ (forall (d : Timeline.DragState) (ui : Timeline.Local) (clientX : Q),
        let raw := Qmax 0 (Timeline.initialTimeOf d
                           ⊕ (clientX ⊖ Timeline.dragStartX ui) ⊘ timelineZoom s) in
        let r := Timeline.dragCandidate d ui s clientX in
        ((exists sp, sp ∈ points /\ Qabs (raw ⊖ sp) < threshold) ->
         Timeline.snapped r = true
         /\ Timeline.snapPoint r = Some (Timeline.snap_time r)
         /\ Timeline.snap_time r ∈ points
         /\ Qabs (raw ⊖ Timeline.snap_time r) < threshold
         /\ (forall sp, sp ∈ points ->
               Qabs (raw ⊖ Timeline.snap_time r) <= Qabs (raw ⊖ sp))
         /\ (forall sp, sp ∈ points ->
               Qabs (raw ⊖ sp) <= Qabs (raw ⊖ Timeline.snap_time r) ->
               Timeline.snap_time r <= sp))
        /\ ((forall sp, sp ∈ points -> threshold <= Qabs (raw ⊖ sp)) ->
            Timeline.snapped r = false /\ Timeline.snapPoint r = None
            /\ Timeline.snap_time r = raw))
  /\ (forall (ui : Timeline.Local) (clientX : Q),
        (Timeline.handleMouseMove clientX ui s).2 = s
        /\ forall d, Timeline.dragState ui = Some d ->
             Timeline.dragPreviewTime (Timeline.handleMouseMove clientX ui s).1
             = Some (Timeline.snap_time (Timeline.dragCandidate d ui s clientX))
             /\ Timeline.snappedPoint (Timeline.handleMouseMove clientX ui s).1
                = Timeline.snapPoint (Timeline.dragCandidate d ui s clientX)
             /\ Timeline.dragState (Timeline.handleMouseMove clientX ui s).1 = Some d)
  /\ (forall (ui : Timeline.Local) (clientX : Q),
        (Timeline.dragState ui = None -> (Timeline.handleMouseUp lib clientX ui s).2 = s)
        /\ forall d, Timeline.dragState ui = Some d ->
             (Qabs (clientX ⊖ Timeline.dragStartX ui) <= 2 ->
              (Timeline.handleMouseUp lib clientX ui s).2 = s)
             /\ (2 < Qabs (clientX ⊖ Timeline.dragStartX ui) ->
                 (Timeline.handleMouseUp lib clientX ui s).2
                 = commitOf lib d
                     (Timeline.snap_time (Timeline.dragCandidate d ui s clientX)) s)).
Proof.
  intros dur points threshold.
  destruct (snapPoints_spec (Timeline.segmentBlocks64 (editConfig s) (timelineZoom s))
              (Timeline.zoomMarkers64 (editConfig s) (timelineZoom s))
              (totalDuration s) (clipEnd s ⊖ clipStart s)) as [Hsorted Hmem].
  fold (Timeline.currentSnapPoints s) in Hsorted, Hmem. fold points in Hsorted, Hmem.
  split; [|split; [|split]].
  - split; [exact Hsorted|].
    intros x. rewrite Hmem. split.
    + intros (p & Hp & Hx). apply rawPoints_spec in Hp. apply roundMs_spec in Hx.
      destruct Hx as (n & Hn & ->). exists p, n. auto.
    + intros (p & n & Hp & Hn & ->). exists p. split; [apply rawPoints_spec, Hp|].
      apply roundMs_spec. exists n. auto.
  - intros d ui clientX raw r.
    destruct (snapTime64_spec (timelineZoom s) raw points) as [Hnear Hfar].
    split.
    + intros Hex. destruct (Hnear Hex) as (H1 & H2 & H3 & H4 & H5 & H6).
      repeat (split; [solve [auto]|]). exact (H6 Hsorted).
    + intros Hall. subst r. unfold Timeline.dragCandidate.
      fold points. change (Qmax 0 _) with raw.
      rewrite (Hfar Hall). auto.
  - intros ui clientX. unfold Timeline.handleMouseMove.
    destruct (Timeline.dragState ui) as [d|]; simpl.
    + split; [reflexivity|]. intros d' [= <-]. auto.
    + split; [reflexivity|]. intros d' [=].
  - intros ui clientX. unfold Timeline.handleMouseUp. split.
    + intros ->. reflexivity.
    + intros d ->. cbv beta iota zeta. cbn [snd]. split.
      * intros Hsmall. apply (proj2 (Qltb_ge _ _)) in Hsmall.
        rewrite Hsmall. reflexivity.
      * intros Hbig. apply (proj2 (Qltb_lt _ _)) in Hbig.
        rewrite Hbig. destruct d; reflexivity.
Qed.

End Drag.

(** ** The mapper and the conversions written out in the components *)

(** The timeline's source-to-output lookup is the mapper's. *)
Lemma locateSource_matches (zoom : Q) (segs : list SegmentConfig) (s : Q) :
  forall off,
    Timeline.locateSource (Timeline.segmentBlocksFrom zoom off segs) s
    = option_map (fun e => TimeMap.e_outputStart e + (s - TimeMap.e_sourceStart e))
        (List.find (TimeMap.containsSource s) (TimeMap.buildFrom off segs)).
Proof.
  induction segs as [|seg rest IH]; intros off; [reflexivity|].
  simpl. unfold TimeMap.containsSource at 1. simpl.
  destruct (Qle_bool (sourceStart seg) s && Qle_bool s (sourceEnd seg)); [reflexivity|].
  apply IH.
Qed.

Lemma locateSource_kept (zoom : Q) (segs : list SegmentConfig) (s : Q) :
  TimeMap.kept segs s ->
  Timeline.locateSource (Timeline.segmentBlocksFrom zoom 0 segs) s
  = Some (TimeMap.sourceToOutput segs s).
Proof.
  intros Hkept. rewrite locateSource_matches. unfold TimeMap.sourceToOutput, TimeMap.build.
  destruct (find_exists _ _ (build_kept segs s Hkept 0)) as [e ->]. reflexivity.
Qed.

Lemma build_starts_ge (segs : list SegmentConfig) :
  Forall (fun seg => sourceStart seg < sourceEnd seg) segs ->
  forall off, Forall (fun e => off <= TimeMap.e_outputStart e) (TimeMap.buildFrom off segs).
Proof.
  induction 1 as [|seg rest Hpos _ IH]; intros off; simpl; constructor.
  - simpl. lra.
  - eapply Forall_impl; [apply IH|]. intros e He. simpl in He. lra.
Qed.

(** Strictly inside a segment's output range, and at its end, the caption
    editor's walk finds the source time the mapper finds inside. *)
Lemma walk_matches (segs : list SegmentConfig) :
  Forall (fun seg => sourceStart seg < sourceEnd seg) segs ->
  forall off sourceTime rem t e,
    rem == t - off ->
    List.find (TimeMap.containsOutput t) (TimeMap.buildFrom off segs) = Some e ->
    TimeMap.e_outputStart e < t ->
    CaptionEditor.walk sourceTime rem segs
    == TimeMap.e_sourceStart e + (t - TimeMap.e_outputStart e).
Proof.
  induction 1 as [|seg rest Hpos Hrest IH]; intros off sourceTime rem t e Hrem Hfind Hlt;
    [discriminate|].
  simpl in Hfind. simpl.
  destruct (TimeMap.containsOutput t (TimeMap.mkEntry (sourceStart seg) (sourceEnd seg) off))
    eqn:E.
  - injection Hfind as <-. apply containsOutput_spec in E.
    unfold TimeMap.e_outputEnd, TimeMap.e_duration in E. simpl in *.
    replace (Qle_bool rem (sourceEnd seg - sourceStart seg)) with true
      by (symmetry; apply Qle_bool_iff; lra).
    lra.
  - assert (Hge : off + (sourceEnd seg - sourceStart seg) <= TimeMap.e_outputStart e).
    { pose proof (build_starts_ge rest Hrest (off + (sourceEnd seg - sourceStart seg))) as Hall.
      rewrite Forall_forall in Hall. apply Hall.
      apply list_elem_of_In. apply (find_some _ _ Hfind). }
    replace (Qle_bool rem (sourceEnd seg - sourceStart seg)) with false
      by (symmetry; apply Qle_bool_false; lra).
    apply (IH (off + (sourceEnd seg - sourceStart seg))); [lra|exact Hfind|exact Hlt].
Qed.

Lemma sourceTimeAt_matches (segs : list SegmentConfig) (t : Q) (e : TimeMap.Entry) :
  Forall (fun seg => sourceStart seg < sourceEnd seg) segs ->
  List.find (TimeMap.containsOutput t) (TimeMap.build segs) = Some e ->
  TimeMap.e_outputStart e < t ->
  CaptionEditor.sourceTimeAt segs t == TimeMap.outputToSource segs t.
Proof.
  intros Hpos Hfind Hlt. unfold CaptionEditor.sourceTimeAt, TimeMap.outputToSource.
  rewrite Hfind. apply (walk_matches segs Hpos 0); [lra|exact Hfind|exact Hlt].
Qed.

(** Up to and including the end of a segment's output range, the walk
    answers within that segment. *)
Lemma walk_closed (segs : list SegmentConfig) :
  Forall (fun seg => sourceStart seg < sourceEnd seg) segs ->
  forall off sourceTime rem t e,
    rem == t - off ->
    e ∈ TimeMap.buildFrom off segs ->
    TimeMap.e_outputStart e < t -> t <= TimeMap.e_outputEnd e ->
    CaptionEditor.walk sourceTime rem segs
    == TimeMap.e_sourceStart e + (t - TimeMap.e_outputStart e).
Proof.
  induction 1 as [|seg rest Hpos Hrest IH]; intros off sourceTime rem t e Hrem He Hlo Hhi.
  - apply elem_of_nil in He. contradiction.
  - simpl in He. simpl.
    pose proof (build_starts_ge rest Hrest (off + (sourceEnd seg - sourceStart seg))) as Hall.
    rewrite Forall_forall in Hall.
    apply elem_of_cons in He.
    destruct (Qlt_le_dec (sourceEnd seg - sourceStart seg) rem) as [Hbig|Hsmall].
    + replace (Qle_bool rem (sourceEnd seg - sourceStart seg)) with false
        by (symmetry; apply Qle_bool_false; exact Hbig).
      destruct He as [->|He].
      * exfalso. unfold TimeMap.e_outputEnd, TimeMap.e_duration in Hhi. simpl in Hhi. lra.
      * apply (IH (off + (sourceEnd seg - sourceStart seg))); [lra|exact He|exact Hlo|exact Hhi].
    + replace (Qle_bool rem (sourceEnd seg - sourceStart seg)) with true
        by (symmetry; apply Qle_bool_iff; exact Hsmall).
      destruct He as [->|He].
      * simpl. lra.
      * exfalso. specialize (Hall e He). simpl in Hall. lra.
Qed.

(** On a list in source order without overlap the conversions written out
    in the components round-trip as well: the timeline's lookup, the
    caption editor's walk, and the lookup again. *)
Lemma component_round_trip_chronological (zoom : Q) (segs : list SegmentConfig) (s : Q) :
  TimeMap.validSegments segs ->
  TimeMap.chronological segs ->
  TimeMap.kept segs s ->
  let blocks := Timeline.segmentBlocksFrom zoom 0 segs in
  exists t t',
    Timeline.locateSource blocks s = Some t
    /\ Timeline.locateSource blocks (CaptionEditor.sourceTimeAt segs t) = Some t'
    /\ t' == t.
Proof.
  intros [Hne Hpos] Hchr Hkept blocks. subst blocks.
  rewrite (locateSource_kept zoom segs s Hkept).
  exists (TimeMap.sourceToOutput segs s).
  rewrite locateSource_matches.
  unfold TimeMap.sourceToOutput, TimeMap.build, CaptionEditor.sourceTimeAt.
  pose proof (build_chained segs 0) as Hch.
  pose proof (build_positive segs Hpos 0) as Hp.
  pose proof (build_ordered segs Hchr 0) as Hord.
  destruct (find_exists _ _ (build_kept segs s Hkept 0)) as [e He].
  rewrite He.
  destruct (find_split _ _ _ He) as (l1 & l2 & Hes & Hin & Hl1).
  apply containsSource_spec in Hin. destruct Hin as [Hlo Hhi].
  set (t := TimeMap.e_outputStart e + (s - TimeMap.e_sourceStart e)).
  assert (Hsame : forall s', s' == s ->
            exists t', option_map
                         (fun e0 => TimeMap.e_outputStart e0 + (s' - TimeMap.e_sourceStart e0))
                         (List.find (TimeMap.containsSource s') (TimeMap.buildFrom 0 segs))
                       = Some t' /\ t' == t).
  { intros s' Hs'. rewrite Hes, (find_source_at l1 l2 e).
    - eexists. split; [reflexivity|]. unfold t. lra.
    - apply (containsSource_false_eq s); [exact Hs'|exact Hl1].
    - apply containsSource_spec. lra. }
  assert (Hmem : e ∈ TimeMap.buildFrom 0 segs).
  { rewrite Hes. apply elem_of_app. right. left. }
  cut (exists t',
          option_map
            (fun e0 => TimeMap.e_outputStart e0
                       + (CaptionEditor.walk 0 t segs - TimeMap.e_sourceStart e0))
            (List.find (TimeMap.containsSource (CaptionEditor.walk 0 t segs))
               (TimeMap.buildFrom 0 segs))
          = Some t' /\ t' == t).
  { intros (t' & H1 & H2). exists t'. auto. }
  destruct (Qlt_le_dec (TimeMap.e_sourceStart e) s) as [Hinside|Hatstart].
  - (* after the start of the located segment *)
    apply Hsame.
    rewrite (walk_closed segs Hpos 0 0 t t e); try assumption;
      unfold t, TimeMap.e_outputEnd, TimeMap.e_duration; lra.
  - (* at the start of the located segment *)
    destruct l1 as [|p0 l0] using rev_ind.
    + (* the first segment *)
      apply Hsame. simpl in Hes. destruct segs as [|seg rest]; [discriminate|].
      simpl in Hes. injection Hes as <- _. simpl in *.
      replace (Qle_bool t (sourceEnd seg - sourceStart seg)) with true
        by (symmetry; apply Qle_bool_iff; unfold t; simpl; lra).
      unfold t. simpl. lra.
    + (* the output time is the end of the segment before *)
      clear IHl0. rewrite <- app_assoc in Hes. simpl in Hes. rewrite Hes in Hch, Hp, Hord.
      destruct (chained_split l0 0 p0 (e :: l2) Hch Hp) as [_ Hrest].
      simpl in Hrest. destruct Hrest as (_ & Hstart & _).
      destruct (ordered_split l0 p0 (e :: l2) Hord) as (Ho1 & _ & _).
      assert (Hpp : positiveEntry p0).
      { apply Forall_app in Hp. destruct Hp as [_ Hp]. inversion Hp; assumption. }
      unfold positiveEntry in Hpp.
      assert (Hmemp : p0 ∈ TimeMap.buildFrom 0 segs).
      { rewrite Hes. apply elem_of_app. right. left. }
      unfold TimeMap.e_outputEnd, TimeMap.e_duration in Hstart.
      assert (Hstart' : TimeMap.e_outputStart e
                        == TimeMap.e_outputStart p0
                           + (TimeMap.e_sourceEnd p0 - TimeMap.e_sourceStart p0))
        by (rewrite Hstart; reflexivity).
      set (s' := CaptionEditor.walk 0 t segs).
      assert (Hs' : s' == TimeMap.e_sourceEnd p0).
      { unfold s'. rewrite (walk_closed segs Hpos 0 0 t t p0); try assumption;
          unfold t, TimeMap.e_outputEnd, TimeMap.e_duration; lra. }
      rewrite Hes, (find_source_at l0 (e :: l2) p0).
      * eexists. split; [reflexivity|]. unfold t. simpl. lra.
      * eapply Forall_impl; [exact Ho1|]. intros y Hy. simpl in Hy.
        apply containsSource_false. right. lra.
      * apply containsSource_spec. lra.
Qed.

(** The conversions of the components do not round-trip on a reordered
    list either: for [10,20], [0,10], [30,40] the source time 30 is at
    output 20, the walk takes output 20 to source 10, and source 10 is at
    output 0. *)
Example component_round_trip_reordered :
  let blocks := Timeline.segmentBlocksFrom 50 0 reorderedWalk in
  Timeline.locateSource blocks 30 = Some (TimeMap.sourceToOutput reorderedWalk 30)
  /\ TimeMap.sourceToOutput reorderedWalk 30 == 20
  /\ CaptionEditor.sourceTimeAt reorderedWalk 20 == 10
  /\ option_map Qred (Timeline.locateSource blocks 10) = Some 0.
Proof. repeat split. Qed.

(** ** Counterexamples *)

(** After 51 edits, 51 undos do not lead back to the initial
    configuration: the first entry has been evicted. *)
Lemma undo_redo_fails_beyond_capacity :
  let w := Sample.session0 in
  let es := Scenario.manyEdits in
  let edited := run SegmentsSpec.lib w (map (fun e => Call (Edit e)) es) in
  let undone := Nat.iter (length es) undo edited in
  editConfig (store w) = Some Sample.config0
  /\ _debounceSnapshot w = None
  /\ _debounceTimer w = None
  /\ length es = 51%nat
  /\ editConfig (store undone) <> Some Sample.config0.
Proof.
  repeat split.
  intros H. apply (f_equal (fmap (fun c => length (zooms c)))) in H.
  vm_compute in H. discriminate.
Qed.

(** The end of the segment [0, 1/16] is not a snap point, its rounding
    0.063 is; and a drag that would lead to a negative time proposes 0,
    snapped, where the unclamped candidate is negative and not snapped. *)
Lemma snap_points_rounded_and_clamped :
  let s := SnapScenario.sixteenth in
  let ui := SnapScenario.dragging in
  let d := Timeline.SegmentEdgeDrag "seg_1" edge_end (1#16) in
  snapSource (editConfig s) (totalDuration s) (1#16)
  /\ ~ Exists (fun x => x == 1#16) (Timeline.currentSnapPoints s)
  /\ (63 ⊘ 1000) ∈ Timeline.currentSnapPoints s
  /\ Timeline.currentSnapPoints s
     <> unroundedSnapPoints (Timeline.segmentBlocks64 (editConfig s) (timelineZoom s))
          (Timeline.zoomMarkers64 (editConfig s) (timelineZoom s))
          (totalDuration s) (clipEnd s ⊖ clipStart s)
  /\ Timeline.dragState ui = Some d
  /\ (Timeline.snap_time (Timeline.dragCandidate d ui s 60) = 0
      /\ Timeline.snapped (Timeline.dragCandidate d ui s 60) = true)
  /\ (Timeline.snap_time (unclampedCandidate (Timeline.initialTimeOf d) ui s 60)
      = (1#16) ⊕ -40 ⊘ 50
      /\ (1#16) ⊕ -40 ⊘ 50 < 0
      /\ Timeline.snapped (unclampedCandidate (Timeline.initialTimeOf d) ui s 60) = false).
Proof.
  intros s ui d.
  assert (Hpoints : Timeline.currentSnapPoints s
                    = 0 :: 63 ⊘ 1000
                      :: map (fun k => inject_Z (Z.of_nat k)) (seq 1 20)).
  { vm_compute. reflexivity. }
  split.
  { left. exists (Sample.configOf [Sample.seg "seg_1" 0 (1#16)] []), 0%nat,
      (Sample.seg "seg_1" 0 (1#16)).
    split; [reflexivity|]. split; [reflexivity|]. right. vm_compute. reflexivity. }
  split.
  { rewrite Hpoints. intros H. apply Exists_exists in H. destruct H as (x & Hx & Heq).
    simpl in Hx.
    repeat (apply elem_of_cons in Hx; destruct Hx as [->|Hx]; [vm_compute in Heq; discriminate|]).
    apply elem_of_nil in Hx. exact Hx. }
  split.
  { rewrite Hpoints. right. left. }
  split.
  { rewrite Hpoints. intros H. vm_compute in H. discriminate. }
  split; [reflexivity|].
  split; [split; vm_compute; reflexivity|].
  split; [vm_compute; reflexivity|]. split; vm_compute; reflexivity.
Qed.

(** Whichever of several containing segments [sourceToOutput] locates, the
    first or the last, the round trip fails somewhere on the list [0,10],
    [20,30], [10,19], [40,50], [31,40]: at 30 with the first, at 19 with
    the last. *)
Example round_trip_fails_either_way :
  let segs := interleaved in
  TimeMap.validSegments segs
  /\ (TimeMap.kept segs 30
      /\ TimeMap.sourceToOutput segs 30 == 20
      /\ TimeMap.sourceToOutput segs
           (TimeMap.outputToSource segs (TimeMap.sourceToOutput segs 30)) == 10)
  /\ (TimeMap.kept segs 19
      /\ TimeMap.sourceToOutputLast segs 19 == 29
      /\ TimeMap.sourceToOutputLast segs
           (TimeMap.outputToSource segs (TimeMap.sourceToOutputLast segs 19)) == 48).
Proof.
  split.
  { split; [discriminate|]. repeat constructor. }
  split.
  - split; [|split; reflexivity].
    right. left. simpl. split; vm_compute; discriminate.
  - split; [|split; reflexivity].
    right. right. left. simpl. split; vm_compute; discriminate.
Qed.

(** ** The theorems at concrete inputs *)

Lemma round_trip_kept_region_witness :
  TimeMap.validSegments (segments Sample.config0)
  /\ TimeMap.kept (segments Sample.config0) 10
  /\ TimeMap.chronological (segments Sample.config0)
  /\ roundTrip (segments Sample.config0) 10 == TimeMap.sourceToOutput (segments Sample.config0) 10
  /\ roundTripError (segments Sample.config0) 10 <= 1#1000.
Proof.
  assert (Hv : TimeMap.validSegments (segments Sample.config0)).
  { split; [discriminate|]. repeat constructor. }
  assert (Hk : TimeMap.kept (segments Sample.config0) 10).
  { left. simpl. split; vm_compute; discriminate. }
  assert (Hc : TimeMap.chronological (segments Sample.config0)).
  { simpl. repeat split; repeat constructor. simpl. vm_compute. discriminate. }
  split; [exact Hv|]. split; [exact Hk|]. split; [exact Hc|].
  apply (round_trip_kept_region (segments Sample.config0) 10 Hv Hk (or_introl Hc)).
Defined.


Lemma gesture_coalescing_witness :
  let w := Sample.session0 in
  let first := PropertiesPanel.zoomsChange [Scenario.wideZoom] in
  let rest := [(100%nat, PropertiesPanel.zoomsChange [Scenario.defaultZoom]);
               (250%nat, PropertiesPanel.zoomsChange [])] in
  let second := run SegmentsSpec.lib w (gestureCalls first (take 1 rest)) in
  let after := run SegmentsSpec.lib w (gestureEvents first rest 300) in
  (editConfig (store w) = Some Sample.config0
   /\ _debounceSnapshot w = None
   /\ Forall (fun p => (p.1 < DEBOUNCE_MS)%nat) rest
   /\ (DEBOUNCE_MS <= 300)%nat)
  /\ (option_map zooms (editConfig (store second)) = Some [Scenario.defaultZoom]
      /\ option_map segments (editConfig (store second)) = Some (segments Sample.config0)
      /\ editHistory (store second) = [])
  /\ (exists cb ca,
         editConfig (store (run SegmentsSpec.lib w (gestureCalls first (take 0 rest))))
         = Some cb
         /\ editConfig (store second) = Some ca
         /\ zooms cb = [Scenario.wideZoom]
         /\ keyApplied (Some [Scenario.defaultZoom]) (zooms cb) (zooms ca))
  /\ (editHistory (store after) = [Sample.config0]
      /\ option_map zooms (editConfig (store after)) = Some []).
Proof.
  intros w first rest second after.
  assert (Hgaps : Forall (fun p => (p.1 < DEBOUNCE_MS)%nat) rest).
  { repeat constructor; simpl; unfold DEBOUNCE_MS; lia. }
  assert (Hq : (DEBOUNCE_MS <= 300)%nat) by (unfold DEBOUNCE_MS; lia).
  pose proof (gesture_coalescing SegmentsSpec.lib w Sample.config0 first rest 300
                eq_refl eq_refl Hgaps Hq) as (_ & Hafter & _ & Hcalls).
  split; [repeat split; [exact Hgaps|exact Hq]|].
  split; [repeat split|].
  split.
  - destruct (Hcalls 0%nat 100%nat (PropertiesPanel.zoomsChange [Scenario.defaultZoom])
                eq_refl) as (_ & cb & ca & Hb & _ & Ha & Happ).
    exists cb, ca. split; [exact Hb|]. split; [exact Ha|].
    split; [injection Hb as <-; reflexivity|].
    exact (proj1 (proj2 (proj2 (proj2 Happ)))).
  - split; [exact (proj1 Hafter)|reflexivity].
Defined.

Lemma undo_redo_history_integrity_witness :
  let es := [AddZoom "a" 1; HideWord 0] in
  let edited := run SegmentsSpec.lib Sample.session0 (map (fun e => Call (Edit e)) es) in
  editConfig (store Sample.session0) = Some Sample.config0
  /\ _debounceSnapshot Sample.session0 = None
  /\ (length es <= 50)%nat
  /\ editConfig (store (Nat.iter 2 undo edited)) = Some Sample.config0
  /\ editConfig (store (Nat.iter 2 redo (Nat.iter 2 undo edited))) = editConfig (store edited).
Proof.
  intros es edited.
  assert (Hlen : (length es <= 50)%nat) by (simpl; lia).
  split; [reflexivity|]. split; [reflexivity|]. split; [exact Hlen|].
  apply (undo_redo_history_integrity SegmentsSpec.lib Sample.session0 Sample.config0 es
           eq_refl eq_refl Hlen).
Defined.

Lemma discrete_edit_pushes_bounded_history_witness :
  let lib := SegmentsSpec.lib in
  let full := store HistoryScenario.fullStack in
  let undone := store HistoryScenario.fullThenUndo in
  let e := HideWord 0 in
  (exists c,
      editConfig full = Some c
      /\ length (editHistory full) = 50%nat
      /\ head (editHistory full) = Some Sample.config0
      /\ editHistory (discrete lib e full) = drop 1 (editHistory full) ++ [c]
      /\ length (editHistory (discrete lib e full)) = 50%nat
      /\ head (editHistory (discrete lib e full)) <> Some Sample.config0
      /\ last (editHistory (discrete lib e full)) = Some c)
  /\ (exists c,
         editConfig undone = Some c
         /\ length (editHistory undone) = 49%nat
         /\ length (editFuture undone) = 1%nat
         /\ editHistory (discrete lib e undone) = editHistory undone ++ [c]
         /\ editFuture (discrete lib e undone) = [])
  /\ (reachable lib HistoryScenario.fullStack
      /\ (length (editHistory full) <= 50)%nat)
  /\ (reachable lib (step lib HistoryScenario.fullStack (Call (Edit e)))
      /\ (length (editHistory (store (step lib HistoryScenario.fullStack (Call (Edit e)))))
          <= 50)%nat).
Proof.
  intros lib full undone e.
  pose proof (discrete_edit_pushes_bounded_history lib) as (Hpush & _ & Hbound).
  assert (Hr : reachable lib HistoryScenario.fullStack).
  { apply reachable_run, reachable_initial. }
  assert (Hfull : length (editHistory full) = 50%nat) by (vm_compute; reflexivity).
  assert (Hundone : length (editHistory undone) = 49%nat) by (vm_compute; reflexivity).
  split; [|split; [|split]].
  - destruct (editConfig full) as [c|] eqn:Hc; [|vm_compute in Hc; discriminate].
    destruct (Hpush e full c Hc) as (_ & Hdrop & _).
    rewrite Hfull in Hdrop. change (50 + 1 - MAX_HISTORY)%nat with 1%nat in Hdrop.
    exists c. split; [reflexivity|]. split; [exact Hfull|].
    split; [vm_compute; reflexivity|]. split; [exact Hdrop|].
    split; [rewrite Hdrop, length_app, length_drop, Hfull; reflexivity|].
    split; [|rewrite Hdrop; apply last_snoc].
    intros H. apply (f_equal (fmap (fun c => length (zooms c)))) in H.
    vm_compute in H. discriminate.
  - destruct (editConfig undone) as [c|] eqn:Hc; [|vm_compute in Hc; discriminate].
    destruct (Hpush e undone c Hc) as (_ & Hdrop & Hfuture).
    rewrite Hundone in Hdrop. change (49 + 1 - MAX_HISTORY)%nat with 0%nat in Hdrop.
    rewrite drop_0 in Hdrop.
    exists c. split; [reflexivity|]. split; [exact Hundone|].
    split; [vm_compute; reflexivity|]. split; [exact Hdrop|exact Hfuture].
  - split; [exact Hr|]. exact (Hbound _ Hr).
  - assert (Hr' : reachable lib (step lib HistoryScenario.fullStack (Call (Edit e)))).
    { apply reachable_step, Hr. }
    split; [exact Hr'|]. exact (Hbound _ Hr').
Defined.

Lemma delete_sole_segment_noop_witness :
  editConfig Scenario.single = Some (Sample.configOf [Sample.seg "seg_1" 0 10] [])
  /\ selectedElement Scenario.single = Some (mkSelected sel_segment "seg_1" None)
  /\ Timeline.handleDeleteKey SegmentsSpec.lib Scenario.single = Scenario.single.
Proof.
  split; [reflexivity|]. split; [reflexivity|].
  apply (proj1 (delete_sole_segment_noop SegmentsSpec.lib Scenario.single
                  (Sample.configOf [Sample.seg "seg_1" 0 10] []) (Sample.seg "seg_1" 0 10)
                  eq_refl eq_refl)
           (mkSelected sel_segment "seg_1" None) eq_refl eq_refl).
Defined.

Lemma drag_snaps_then_commits_on_release_witness :
  let s := SnapScenario.withZoom in
  let ui := SnapScenario.movingZoom in
  let d := Timeline.ZoomMove "z_1" 1 in
  let raw := Qmax 0 (Timeline.initialTimeOf d
                     ⊕ (108 ⊖ Timeline.dragStartX ui) ⊘ timelineZoom s) in
  let released := (Timeline.handleMouseUp SegmentsSpec.lib 108 ui s).2 in
  (Timeline.dragState ui = Some d
   /\ 2 < Qabs (108 ⊖ Timeline.dragStartX ui)
   /\ 1 ∈ Timeline.currentSnapPoints s
   /\ 1 < raw
   /\ Qabs (raw ⊖ 1) < 8 ⊘ timelineZoom s)
  /\ (Timeline.snapped (Timeline.dragCandidate d ui s 108) = true
      /\ Timeline.snap_time (Timeline.dragCandidate d ui s 108) = 1)
  /\ (released
      = commitOf SegmentsSpec.lib d
          (Timeline.snap_time (Timeline.dragCandidate d ui s 108)) s
      /\ option_map zooms (editConfig released)
         = Some [mkZoom "z_1" 1 (1#2) 2 ease_in_out (1#4) (1#4) "manual"]
      /\ editHistory released = option_list (editConfig s)
      /\ released <> s)
  /\ (Qabs (102 ⊖ Timeline.dragStartX ui) <= 2
      /\ (Timeline.handleMouseUp SegmentsSpec.lib 102 ui s).2 = s).
Proof.
  intros s ui d raw released.
  pose proof (drag_snaps_then_commits_on_release SegmentsSpec.lib s)
    as (_ & Hsnap & _ & Hup).
  assert (Hbig : 2 < Qabs (108 ⊖ Timeline.dragStartX ui)) by (vm_compute; reflexivity).
  assert (Hsmall : Qabs (102 ⊖ Timeline.dragStartX ui) <= 2) by (vm_compute; discriminate).
  assert (Hpoint : 1 ∈ Timeline.currentSnapPoints s).
  { vm_compute. right. left. }
  assert (Hnear : Qabs (raw ⊖ 1) < 8 ⊘ timelineZoom s) by (vm_compute; reflexivity).
  destruct (proj1 (Hsnap d ui 108) (ex_intro _ 1 (conj Hpoint Hnear)))
    as (Hsnapped & _).
  destruct (proj2 (Hup ui 108) d eq_refl) as [Hkeep Hcommit].
  split.
  { split; [reflexivity|]. split; [exact Hbig|]. split; [exact Hpoint|].
    split; [vm_compute; reflexivity|exact Hnear]. }
  split.
  { split; [exact Hsnapped|]. vm_compute. reflexivity. }
  split.
  { split; [exact (Hcommit Hbig)|]. split; [vm_compute; reflexivity|].
    split; [vm_compute; reflexivity|]. intros H. apply (f_equal editHistory) in H.
    vm_compute in H. discriminate. }
  split; [exact Hsmall|]. exact (proj1 (proj2 (Hup ui 102) d eq_refl) Hsmall).
Defined.

Lemma delete_clears_matching_selection_witness :
  let s := store (Scenario.zoomed Scenario.wideZoom) in
  let c := Sample.configOf [Sample.seg "seg_1" 0 10; Sample.seg "seg_2" 12 20]
             [Scenario.wideZoom] in
  selectedElement s = Some (mkSelected sel_zoom "z_1" None)
  /\ editConfig s = Some c
  /\ (exists z, z ∈ zooms c /\ zoom_id z = "z_1")
  /\ selectedElement (deleteZoom "z_1" s) = None.
Proof.
  intros s c.
  assert (Hz : exists z, z ∈ zooms c /\ zoom_id z = "z_1").
  { exists Scenario.wideZoom. split; [left|reflexivity]. }
  split; [reflexivity|]. split; [reflexivity|]. split; [exact Hz|].
  apply (proj1 (proj1 (proj2 (delete_clears_matching_selection s "z_1"))
                  (mkSelected sel_zoom "z_1" None) c eq_refl eq_refl eq_refl) Hz).
Defined.

(** * Further properties *)

(** ** Undo and redo *)

Lemma setEdit_setEdit (s : EditorState) cfg hist fut dirty sel cfg' hist' fut' dirty' sel' :
  setEdit (setEdit s cfg hist fut dirty sel) cfg' hist' fut' dirty' sel'
  = setEdit s cfg' hist' fut' dirty' sel'.
Proof. reflexivity. Qed.

(** X1. With no gesture pending, [undo] followed by [redo], and [redo]
    followed by [undo], bring back the configuration and both stacks; the
    store differs from the one before only in [isDirty], which is set. *)
Theorem undo_redo_cancel (w : Session) (c : EditConfig) :
  _debounceSnapshot w = None ->
  editConfig (store w) = Some c ->
  (editHistory (store w) <> [] ->
   store (redo (undo w))
   = setEdit (store w) (Some c) (editHistory (store w)) (editFuture (store w)) true
       (selectedElement (store w)))
  /\ (editFuture (store w) <> [] ->
      store (undo (redo w))
      = setEdit (store w) (Some c) (editHistory (store w)) (editFuture (store w)) true
          (selectedElement (store w))).
Proof.
  intros Hs Hc. split.
  - intros Hh. destruct (exists_last Hh) as (H & p & Ehist).
    unfold undo, redo. rewrite Hs. cbn [store _debounceTimer _debounceSnapshot].
    rewrite (popUndo_last _ H p c Hc Ehist).
    erewrite popRedo_first; [|reflexivity|reflexivity].
    rewrite setEdit_setEdit. rewrite Ehist. reflexivity.
  - intros Hf. destruct (editFuture (store w)) as [|next rest] eqn:Efut; [done|].
    unfold undo, redo.
    assert (Hsnap : match _debounceTimer w with
                    | Some _ => None
                    | None => _debounceSnapshot w
                    end = None) by (destruct (_debounceTimer w); [reflexivity|exact Hs]).
    cbn [store _debounceTimer _debounceSnapshot]. rewrite Hsnap.
    rewrite (popRedo_first _ next c rest Hc Efut).
    erewrite popUndo_last; [|reflexivity|reflexivity].
    rewrite setEdit_setEdit. reflexivity.
Qed.
Lemma undo_redo_cancel_witness :
  let w := HistoryScenario.midHistory in
  _debounceSnapshot w = None
  /\ editConfig (store w) = Some HistoryScenario.redConfig
  /\ editHistory (store w) <> []
  /\ editFuture (store w) <> []
  /\ store (redo (undo w))
     = setEdit (store w) (Some HistoryScenario.redConfig) (editHistory (store w))
         (editFuture (store w)) true (selectedElement (store w))
  /\ store (undo (redo w))
     = setEdit (store w) (Some HistoryScenario.redConfig) (editHistory (store w))
         (editFuture (store w)) true (selectedElement (store w)).
Proof.
  intros w.
  assert (Hh : editHistory (store w) <> []) by discriminate.
  assert (Hf : editFuture (store w) <> []) by discriminate.
  split; [reflexivity|]. split; [reflexivity|]. split; [exact Hh|]. split; [exact Hf|].
  split.
  - exact (proj1 (undo_redo_cancel w HistoryScenario.redConfig eq_refl eq_refl) Hh).
  - exact (proj2 (undo_redo_cancel w HistoryScenario.redConfig eq_refl eq_refl) Hf).
Defined.

(** X2. An [undo] while a gesture is pending restores the configuration
    from before the gesture and empties the debounce slot; a [redo] after it
    brings back the gesture's result, and the stacks are then the ones the
    timer would have left on firing. *)
Theorem undo_mid_gesture_commits_it (w : Session) (c snapshot : EditConfig) :
  editConfig (store w) = Some c ->
  _debounceSnapshot w = Some snapshot ->
  editConfig (store (undo w)) = Some snapshot
  /\ _debounceTimer (undo w) = None
  /\ _debounceSnapshot (undo w) = None
  /\ editConfig (store (redo (undo w))) = Some c
  /\ editHistory (store (redo (undo w))) = editHistory (store (debounceFire w))
  /\ editFuture (store (redo (undo w))) = editFuture (store (debounceFire w)).
Proof.
  intros Hc Hs.
  assert (Hslice : sliceLast MAX_HISTORY (editHistory (store w) ++ [snapshot])
                   = drop (length (editHistory (store w)) + 1 - MAX_HISTORY)
                       (editHistory (store w)) ++ [snapshot]).
  { apply (sliceLast_app MAX_HISTORY (editHistory (store w)) [snapshot]).
    simpl. unfold MAX_HISTORY. lia. }
  assert (Hundo : store (undo w)
                  = setEdit (store w) (Some snapshot)
                      (drop (length (editHistory (store w)) + 1 - MAX_HISTORY)
                         (editHistory (store w)))
                      [c] true (selectedElement (store w))).
  { unfold undo. rewrite Hs. cbn [store]. rewrite Hslice.
    erewrite popUndo_last; [|exact Hc|reflexivity]. reflexivity. }
  split; [rewrite Hundo; reflexivity|].
  split; [reflexivity|]. split; [reflexivity|].
  change (store (redo (undo w))) with (popRedo (store (undo w))).
  rewrite Hundo. erewrite popRedo_first; [|reflexivity|reflexivity].
  unfold debounceFire. rewrite Hs. cbn [store]. rewrite Hc. simpl.
  rewrite Hslice. auto.
Qed.

Lemma undo_mid_gesture_commits_it_witness :
  let w := HistoryScenario.midGesture in
  let c := withZooms Sample.config0 [Scenario.wideZoom] in
  editConfig (store w) = Some c
  /\ _debounceSnapshot w = Some Sample.config0
  /\ editConfig (store (undo w)) = Some Sample.config0
  /\ editConfig (store (redo (undo w))) = Some c
  /\ editHistory (store (redo (undo w))) = editHistory (store (debounceFire w)).
Proof.
  intros w c.
  pose proof (undo_mid_gesture_commits_it w c Sample.config0 eq_refl eq_refl)
    as (H1 & _ & _ & H2 & H3 & _).
  split; [reflexivity|]. split; [reflexivity|]. auto.
Defined.
(** X3. [initialize] leaves the debounce slot alone: a gesture that is
    pending when a clip is loaded is committed by its timer into the new
    clip's empty undo stack, and an [undo] then replaces the new clip's
    configuration with the snapshot taken before the load. *)
Theorem initialize_keeps_pending_gesture (lib : SegmentsLib) (w : Session)
    (snapshot : EditConfig) (due dt : nat) (c : Clip) (p : Project) (url : string)
    (proxy : option string) (videos : option (list SourceVideo)) (words : list Word)
    (cStart cEnd : Q) :
  _debounceSnapshot w = Some snapshot ->
  _debounceTimer w = Some due ->
  (due <= clock w + dt)%nat ->
  let w' := run lib w [Call (Initialize c p url proxy videos words cStart cEnd); Elapse dt] in
  editConfig (store w') = Some (clip_editConfig c)
  /\ editHistory (store w') = [snapshot]
  /\ isDirty (store w') = false
  /\ editConfig (store (undo w')) = Some snapshot.
Proof.
  intros Hs Ht Hdue w'. subst w'. unfold run. simpl. unfold elapse, onStore. simpl.
  rewrite Ht. apply Nat.leb_le in Hdue. rewrite Hdue.
  unfold debounceFire. simpl. rewrite Hs. simpl.
  repeat split; reflexivity.
Qed.

Lemma initialize_keeps_pending_gesture_witness :
  let w := HistoryScenario.midGesture in
  let w' := run SegmentsSpec.lib w
              [Call (Initialize HistoryScenario.clip1 (mkProject "project") "other.mp4"
                       None None [] 0 5);
               Elapse 300] in
  _debounceSnapshot w = Some Sample.config0
  /\ _debounceTimer w = Some 300%nat
  /\ (300 <= clock w + 300)%nat
  /\ editHistory (store w') = [Sample.config0]
  /\ editConfig (store (undo w')) = Some Sample.config0.
Proof.
  intros w w'.
  assert (Hdue : (300 <= clock w + 300)%nat) by (simpl; lia).
  pose proof (initialize_keeps_pending_gesture SegmentsSpec.lib w Sample.config0 300 300
                HistoryScenario.clip1 (mkProject "project") "other.mp4" None None [] 0 5
                eq_refl eq_refl Hdue) as (_ & H1 & _ & H2).
  split; [reflexivity|]. split; [reflexivity|]. split; [exact Hdue|].
  split; [exact H1|exact H2].
Defined.

(** X4. While no configuration is loaded, no editing action changes the
    store: the immediate edits, the debounced update (which starts no
    timer either), [undo], [redo], the split at the playhead and a press
    on a segment edge or a zoom marker. *)
Theorem unloaded_store_ignores_edits (lib : SegmentsLib) (w : Session) :
  editConfig (store w) = None ->
  (forall e, store (perform lib (Edit e) w) = store w)
  /\ (forall changes, updateEditConfigDebounced lib changes w = w)
  /\ (_debounceSnapshot w = None -> store (undo w) = store w)
  /\ store (redo w) = store w
  /\ Timeline.handleSplitAtPlayhead lib (store w) = store w
  /\ (forall x id edge ui,
        Timeline.handleSegmentEdgeMouseDown x id edge ui (store w) = (ui, store w))
  /\ (forall x id ui, Timeline.handleZoomMouseDown x id ui (store w) = (ui, store w)).
Proof.
  intros Hc. split; [|split; [|split; [|split; [|split; [|split]]]]].
  - intros e. simpl. apply discrete_unloaded. exact Hc.
  - intros changes. unfold updateEditConfigDebounced. rewrite Hc. reflexivity.
  - intros Hs. unfold undo. rewrite Hs. simpl. unfold popUndo. rewrite Hc.
    destruct (last (editHistory (store w))); reflexivity.
  - unfold redo. simpl. unfold popRedo. rewrite Hc.
    destruct (editFuture (store w)); reflexivity.
  - unfold Timeline.handleSplitAtPlayhead. rewrite Hc. reflexivity.
  - intros x id edge ui. unfold Timeline.handleSegmentEdgeMouseDown. rewrite Hc. reflexivity.
  - intros x id ui. unfold Timeline.handleZoomMouseDown. rewrite Hc. reflexivity.
Qed.

Lemma unloaded_store_ignores_edits_witness :
  editConfig (store initialSession) = None
  /\ store (perform SegmentsSpec.lib (Edit (AddZoom "a" 1)) initialSession)
     = store initialSession
  /\ updateEditConfigDebounced SegmentsSpec.lib (PropertiesPanel.zoomsChange [])
       initialSession
     = initialSession.
Proof.
  pose proof (unloaded_store_ignores_edits SegmentsSpec.lib initialSession eq_refl)
    as (H1 & H2 & _).
  split; [reflexivity|]. split; [apply H1|apply H2].
Defined.

Lemma filter_all {A} (P : A -> Prop) `{forall x, Decision (P x)} (l : list A) :
  Forall P l -> filter P l = l.
Proof.
  induction 1 as [|x l Hx _ IH]; [reflexivity|].
  rewrite filter_cons_True by exact Hx. rewrite IH. reflexivity.
Qed.

Lemma find_none {A} (f : A -> bool) (l : list A) :
  Forall (fun x => f x = false) l -> List.find f l = None.
Proof.
  induction 1 as [|x l Hx _ IH]; [reflexivity|]. simpl. rewrite Hx. exact IH.
Qed.

Lemma withZooms_same (c : EditConfig) : withZooms c (zooms c) = c.
Proof. destruct c; reflexivity. Qed.

(** X5. Adding a zoom and undoing it leaves the removed zoom selected, with
    the global panel shown for it; pressing Delete then records a
    deletion that changes nothing and empties the redo stack, so the zoom
    can no longer be brought back with [redo]. *)
Theorem delete_after_undo_drops_redo (lib : SegmentsLib) (w : Session) (c : EditConfig)
    (stamp : string) (t : Q) :
  editConfig (store w) = Some c ->
  _debounceSnapshot w = None ->
  freshZoomId c ("z_" +:+ stamp) ->
  let undone := undo (perform lib (Edit (AddZoom stamp t)) w) in
  let deleted := Timeline.handleDeleteKey lib (store undone) in
  editConfig (store undone) = Some c
  /\ length (editFuture (store undone)) = 1%nat
  /\ selectedElement (store undone) = Some (mkSelected sel_zoom ("z_" +:+ stamp) None)
  /\ PropertiesPanel.panelFor (store undone) = PropertiesPanel.GlobalPanel
  /\ editConfig deleted = Some c
  /\ editFuture deleted = []
  /\ selectedElement deleted = None.
Proof.
  intros Hc Hs Hfresh undone deleted.
  assert (Hundone : store undone
                    = setEdit (store w) (Some c)
                        (drop (length (editHistory (store w)) + 1 - MAX_HISTORY)
                           (editHistory (store w)))
                        [withZooms c
                           (zooms c
                            ++ [mkZoom ("z_" +:+ stamp) t (1#2) (115#100) ease_in_out
                                  (clampZoomAnchor (1#2) (4#10) (115#100)).1
                                  (clampZoomAnchor (1#2) (4#10) (115#100)).2 "manual"])]
                        true (Some (mkSelected sel_zoom ("z_" +:+ stamp) None))).
  { subst undone. unfold undo. simpl. rewrite Hs. unfold addZoom, pushHistory.
    rewrite Hc. simpl.
    rewrite (sliceLast_app MAX_HISTORY (editHistory (store w)) [c])
      by (simpl; unfold MAX_HISTORY; lia).
    erewrite popUndo_last; [|reflexivity|reflexivity]. reflexivity. }
  assert (Hfind : List.find (fun z => bool_decide (zoom_id z = "z_" +:+ stamp)) (zooms c)
                  = None).
  { apply find_none. eapply Forall_impl; [exact Hfresh|].
    intros z Hz. apply bool_decide_eq_false. exact Hz. }
  subst deleted. rewrite Hundone.
  split; [reflexivity|]. split; [reflexivity|]. split; [reflexivity|].
  split.
  - unfold PropertiesPanel.panelFor. simpl. rewrite Hfind. reflexivity.
  - unfold Timeline.handleDeleteKey. simpl. unfold deleteZoom. simpl.
    rewrite (filter_all _ _ Hfresh), withZooms_same. auto.
Qed.

Lemma delete_after_undo_drops_redo_witness :
  let undone := undo (perform SegmentsSpec.lib (Edit (AddZoom "a" 1)) Sample.session0) in
  editConfig (store Sample.session0) = Some Sample.config0
  /\ _debounceSnapshot Sample.session0 = None
  /\ freshZoomId Sample.config0 "z_a"
  /\ length (editFuture (store undone)) = 1%nat
  /\ editFuture (Timeline.handleDeleteKey SegmentsSpec.lib (store undone)) = [].
Proof.
  intros undone.
  assert (Hfresh : freshZoomId Sample.config0 ("z_" +:+ "a")) by constructor.
  pose proof (delete_after_undo_drops_redo SegmentsSpec.lib Sample.session0 Sample.config0
                "a" 1 eq_refl eq_refl Hfresh) as (_ & H1 & _ & _ & _ & H2 & _).
  split; [reflexivity|]. split; [reflexivity|]. split; [exact Hfresh|].
  split; [exact H1|exact H2].
Defined.
(** ** Invariants of the view state *)

Lemma setEdit_outside (s : EditorState) cfg hist fut dirty sel :
  sameOutsideEdit s (setEdit s cfg hist fut dirty sel).
Proof. repeat split. Qed.

Lemma sameOutsideEdit_refl (s : EditorState) : sameOutsideEdit s s.
Proof. repeat split. Qed.

Lemma discrete_outside (lib : SegmentsLib) (e : DiscreteEdit) (s : EditorState) :
  sameOutsideEdit s (discrete lib e s).
Proof.
  destruct e; simpl;
    unfold updateEditConfig, splitSegment, deleteSegment, adjustSegmentEdge,
      addZoom, updateZoom, deleteZoom, updateCaptionText, toggleWordHighlight,
      hideWord, updateCaptionStyle, addAnnotation, updateAnnotation,
      deleteAnnotation;
    destruct (editConfig s); repeat split.
Qed.

Lemma popUndo_outside (s : EditorState) : sameOutsideEdit s (popUndo s).
Proof.
  unfold popUndo. destruct (last (editHistory s)); [|repeat split].
  destruct (editConfig s); repeat split.
Qed.

Lemma popRedo_outside (s : EditorState) : sameOutsideEdit s (popRedo s).
Proof.
  unfold popRedo. destruct (editFuture s); [repeat split|].
  destruct (editConfig s); repeat split.
Qed.

Lemma debounceFire_outside (w : Session) :
  sameOutsideEdit (store w) (store (debounceFire w)).
Proof.
  unfold debounceFire. simpl. destruct (_debounceSnapshot w); [|repeat split].
  destruct (editConfig (store w)); repeat split.
Qed.

(** The editing events leave the sixteen other fields of the store as
    they are. *)
Lemma step_outside (lib : SegmentsLib) (w : Session) (e : Event) :
  editingEvent e -> sameOutsideEdit (store w) (store (step lib w e)).
Proof.
  destruct e as [a|dt]; simpl.
  - destruct a; simpl; try contradiction; intros _.
    + apply discrete_outside.
    + unfold updateEditConfigDebounced. destruct (editConfig (store w)); repeat split.
    + destruct (_debounceSnapshot w).
      * pose proof (popUndo_outside
                      (setEdit (store w) (editConfig (store w))
                         (sliceLast MAX_HISTORY (editHistory (store w) ++ [e]))
                         [] (isDirty (store w)) (selectedElement (store w)))) as H.
        exact H.
      * apply popUndo_outside.
    + apply popRedo_outside.
    + repeat split.
  - intros _. unfold elapse. destruct (_debounceTimer w) as [due|]; [|repeat split].
    destruct (due <=? clock w + dt)%nat; [|repeat split].
    apply debounceFire_outside.
Qed.

Lemma step_view (lib : SegmentsLib) (w : Session) (e : Event) :
  viewInRange (store w) -> viewInRange (store (step lib w e)).
Proof.
  intros (Hlo & Hhi & Hsc).
  assert (Hedit : editingEvent e -> viewInRange (store (step lib w e))).
  { intros He. pose proof (step_outside lib w e He) as H. unfold sameOutsideEdit in H.
    destruct H as (_ & _ & _ & _ & _ & _ & _ & _ & _ & Hz & Hs & _).
    unfold viewInRange. rewrite Hz, Hs. auto. }
  destruct e as [a|dt]; [|apply Hedit; exact I].
  destruct a; try (apply Hedit; exact I); simpl; unfold viewInRange; simpl; auto.
  - unfold toggleProxy. destruct (truthyString (proxyVideoUrl (store w))); simpl; auto.
  - split; [apply Q.le_max_l|]. split; [|exact Hsc].
    apply Q.max_lub; [lra|apply Q.le_min_l].
  - split; [exact Hlo|]. split; [exact Hhi|]. apply Q.le_max_l.
Qed.

(** X6. In every state the store reaches, the timeline zoom lies between
    10 and 200 pixels per second and the scroll offset is not negative. *)
Theorem view_state_in_range (lib : SegmentsLib) (w : Session) :
  reachable lib w ->
  10 <= timelineZoom (store w) /\ timelineZoom (store w) <= 200
  /\ 0 <= timelineScroll (store w).
Proof.
  intros Hr. change (viewInRange (store w)).
  induction Hr as [|w e _ IH].
  - unfold viewInRange. simpl. lra.
  - apply step_view. exact IH.
Qed.

Lemma view_state_in_range_witness :
  let w := run SegmentsSpec.lib initialSession
             [Call (SetTimelineZoom 1000); Call (SetTimelineScroll (-3));
              Call (SetTimelineZoom 3)] in
  reachable SegmentsSpec.lib w
  /\ (10 <= timelineZoom (store w) /\ timelineZoom (store w) <= 200
      /\ 0 <= timelineScroll (store w))
  /\ timelineZoom (store w) = 10 /\ timelineScroll (store w) = 0.
Proof.
  intros w.
  assert (Hr : reachable SegmentsSpec.lib w).
  { repeat apply reachable_step. apply reachable_initial. }
  split; [exact Hr|]. split; [exact (view_state_in_range SegmentsSpec.lib w Hr)|].
  split; reflexivity.
Defined.

Lemma truthyString_orNull (u : option string) : truthyString (orNull u) = truthyString u.
Proof. unfold orNull. destruct (truthyString u) eqn:E; [exact E|reflexivity]. Qed.

Lemma step_proxy (lib : SegmentsLib) (w : Session) (e : Event) :
  proxyConsistent (store w) -> proxyConsistent (store (step lib w e)).
Proof.
  intros Hinv.
  assert (Hedit : editingEvent e -> proxyConsistent (store (step lib w e))).
  { intros He. pose proof (step_outside lib w e He) as H. unfold sameOutsideEdit in H.
    destruct H as (Hclip & _ & _ & Hurl & Huse & _).
    unfold proxyConsistent. rewrite Hclip, Hurl, Huse. exact Hinv. }
  destruct e as [a|dt]; [|apply Hedit; exact I].
  destruct a; try (apply Hedit; exact I); simpl; unfold proxyConsistent; simpl;
    try exact Hinv.
  - intros _ Huse. rewrite truthyString_orNull. exact Huse.
  - unfold toggleProxy.
    destruct (truthyString (proxyVideoUrl (store w))) eqn:Et; simpl; [auto|exact Hinv].
Qed.

(** X7. Once a clip is loaded the proxy video is in use only if a proxy
    URL is there: in every reachable state with a clip, [useProxy]
    implies a non-empty [proxyVideoUrl]. *)
Theorem proxy_in_use_only_if_available (lib : SegmentsLib) (w : Session) :
  reachable lib w -> proxyConsistent (store w).
Proof.
  induction 1 as [|w e _ IH].
  - intros Hclip. contradiction.
  - apply step_proxy. exact IH.
Qed.

Lemma proxy_in_use_only_if_available_witness :
  let w := step SegmentsSpec.lib
             (step SegmentsSpec.lib initialSession
                (Call (Initialize Sample.clip0 (mkProject "project") "video.mp4"
                         (Some "") None [] 0 20)))
             (Call ToggleProxy) in
  reachable SegmentsSpec.lib w /\ proxyConsistent (store w).
Proof.
  intros w.
  assert (Hr : reachable SegmentsSpec.lib w).
  { apply reachable_step. apply reachable_step. apply reachable_initial. }
  split; [exact Hr|]. exact (proxy_in_use_only_if_available SegmentsSpec.lib w Hr).
Defined.
(** ** Zoom anchors *)

Lemma Qmax_left (a h : Q) : h <= a -> Qmax a h = a.
Proof.
  intros H. unfold Qmax, GenericMinMax.gmax.
  destruct (a ?= h) eqn:E; try reflexivity.
  apply Qlt_alt in E. lra.
Qed.

Lemma Qmin_left (a k : Q) : a <= k -> Qmin a k = a.
Proof.
  intros H. unfold Qmin, GenericMinMax.gmin.
  destruct (a ?= k) eqn:E; try reflexivity.
  apply Qgt_alt in E. lra.
Qed.

(** The clamp leaves anchors that are in bounds as they are. *)
Lemma clampZoomAnchor_in_bounds (z : ZoomConfig) :
  anchorsInBounds z ->
  clampZoomAnchor (anchorX z) (anchorY z) (scale z) = (anchorX z, anchorY z).
Proof.
  intros ((Hx1 & Hx2) & (Hy1 & Hy2)). unfold clampZoomAnchor.
  rewrite (Qmax_left _ _ Hx1), (Qmax_left _ _ Hy1).
  rewrite (Qmin_left _ _ Hx2), (Qmin_left _ _ Hy2). reflexivity.
Qed.

Lemma zooms_syncCuts (lib : SegmentsLib) (c : EditConfig) (d : Q) :
  zooms (syncCutsFromSegments lib c d) = zooms c.
Proof. reflexivity. Qed.

(** X8. Every immediate edit keeps the zoom anchors in bounds, provided a
    list of zooms handed to [updateEditConfig] is in bounds itself and
    [updateZoom] leaves the zoom it changes with a scale of at least 1. *)
Theorem edits_keep_zoom_anchors_in_bounds (lib : SegmentsLib) (e : DiscreteEdit)
    (s : EditorState) :
  configHolds zoomsInBounds s ->
  keepsBounds s e ->
  configHolds zoomsInBounds (discrete lib e s).
Proof.
  unfold configHolds, zoomsInBounds. intros Hinv Hkeep.
  destruct (editConfig s) as [c|] eqn:Hc;
    [|rewrite (discrete_unloaded lib e s Hc), Hc; exact I].
  destruct e; simpl in *;
    unfold updateEditConfig, splitSegment, deleteSegment, adjustSegmentEdge,
      addZoom, updateZoom, deleteZoom, updateCaptionText, toggleWordHighlight,
      hideWord, updateCaptionStyle, addAnnotation, updateAnnotation,
      deleteAnnotation;
    rewrite Hc; simpl; try exact Hinv.
  - unfold applyChanges. destruct (ch_segments changes); simpl;
      (destruct (ch_zooms changes); simpl; [exact Hkeep|exact Hinv]).
  - apply Forall_app. split; [exact Hinv|]. constructor; [|constructor].
    unfold anchorsInBounds. simpl. apply clampZoomAnchor_bounds. lra.
  - unfold configHolds in Hkeep. rewrite Hc in Hkeep.
    apply Forall_fmap. apply Forall_forall. intros z Hz. simpl.
    destruct (decide (zoom_id z ≠ zoomId)) as [Hne|Heq].
    + exact (proj1 (Forall_forall _ _) Hinv z Hz).
    + assert (Hid : zoom_id z = zoomId) by (destruct (decide (zoom_id z = zoomId)); tauto).
      unfold anchorsInBounds. simpl. apply clampZoomAnchor_bounds.
      exact (proj1 (Forall_forall _ _) Hkeep z Hz Hid).
  - apply Forall_forall. intros z Hz. apply list_elem_of_filter in Hz.
    exact (proj1 (Forall_forall _ _) Hinv z (proj2 Hz)).
Qed.

Lemma edits_keep_zoom_anchors_in_bounds_witness :
  let s := store (Scenario.zoomed Scenario.wideZoom) in
  let e := UpdateZoom "z_1"
             (mkZoomChanges None None None (Some (3#2)) None None None None) in
  configHolds zoomsInBounds s
  /\ keepsBounds s e
  /\ configHolds zoomsInBounds (discrete SegmentsSpec.lib e s).
Proof.
  intros s e.
  assert (Hinv : configHolds zoomsInBounds s).
  { constructor; [|constructor].
    repeat split; apply Qle_bool_iff; reflexivity. }
  assert (Hkeep : keepsBounds s e).
  { constructor; [|constructor]. intros _. apply Qle_bool_iff. reflexivity. }
  split; [exact Hinv|]. split; [exact Hkeep|].
  exact (edits_keep_zoom_anchors_in_bounds SegmentsSpec.lib e s Hinv Hkeep).
Defined.

(** X9. The newer store's [updateZoom] gives the same state as the one of
    [stores/editorStore.ts], which does not clamp, whenever the changed zoom
    is in bounds with the changes merged in; its [redo] acts on the store
    as the earlier one does, and so does its [undo] when no gesture is
    pending. *)
Theorem newer_store_agrees_with_earlier (w : Session) (zoomId : string)
    (changes : ZoomChanges) :
  (configHolds (mergedInBounds zoomId changes) (store w) ->
   updateZoom zoomId changes (store w) = EditorStore.updateZoom zoomId changes (store w))
  /\ store (redo w) = EditorStore.redo (store w)
  /\ (_debounceSnapshot w = None -> store (undo w) = EditorStore.undo (store w)).
Proof.
  split; [|split].
  - unfold configHolds, mergedInBounds, updateZoom, EditorStore.updateZoom.
    destruct (editConfig (store w)) as [c|]; [|reflexivity].
    intros Hin. f_equal. f_equal. f_equal. apply map_ext_in. intros z Hz.
    apply list_elem_of_In in Hz.
    destruct (decide (zoom_id z ≠ zoomId)) as [Hne|Heq];
      destruct (decide (zoom_id z = zoomId)) as [Hid|Hnid]; try tauto.
    pose proof (proj1 (Forall_forall _ _) Hin z Hz Hid) as Hb.
    cbv zeta. set (m := spreadZoom z changes) in *.
    rewrite (clampZoomAnchor_in_bounds m Hb). destruct m; reflexivity.
  - reflexivity.
  - intros Hs. unfold undo. rewrite Hs. reflexivity.
Qed.

Lemma newer_store_agrees_with_earlier_witness :
  let w := Scenario.zoomed Scenario.wideZoom in
  let changes := mkZoomChanges None (Some 3) None None None None None None in
  configHolds (mergedInBounds "z_1" changes) (store w)
  /\ _debounceSnapshot w = None
  /\ updateZoom "z_1" changes (store w) = EditorStore.updateZoom "z_1" changes (store w)
  /\ store (undo w) = EditorStore.undo (store w).
Proof.
  intros w changes.
  assert (Hin : configHolds (mergedInBounds "z_1" changes) (store w)).
  { constructor; [|constructor]. intros _.
    repeat split; apply Qle_bool_iff; reflexivity. }
  pose proof (newer_store_agrees_with_earlier w "z_1" changes) as (H1 & _ & H2).
  split; [exact Hin|]. split; [reflexivity|]. split; [exact (H1 Hin)|exact (H2 eq_refl)].
Defined.

Lemma map_same {A} (f : A -> A) (l : list A) :
  Forall (fun x => f x = x) l -> map f l = l.
Proof. induction 1 as [|x l Hx _ IH]; [reflexivity|]. simpl. rewrite Hx, IH. reflexivity. Qed.

Lemma withAnnotations_same (c : EditConfig) (anns : list AnnotationConfig) :
  annotations c = Some anns -> withAnnotations c anns = c.
Proof. destruct c; simpl; intros ->; reflexivity. Qed.

(** X10. Updating or deleting a zoom or an annotation under an id that no
    element has leaves the configuration as it is, and is recorded all the
    same: the unchanged configuration goes on the undo stack, the redo stack
    is emptied and the store is marked dirty. *)
Theorem edit_of_absent_id_still_recorded (s : EditorState) (c : EditConfig) (id : string) :
  editConfig s = Some c ->
  (freshZoomId c id ->
   (forall changes, updateZoom id changes s = recordedOnly s c (selectedElement s))
   /\ deleteZoom id s = recordedOnly s c (clearIfSelected (selectedElement s) id))
  /\ (annotations c <> None -> freshAnnotationId c id ->
      (forall changes, updateAnnotation id changes s = recordedOnly s c (selectedElement s))
      /\ deleteAnnotation id s = recordedOnly s c (clearIfSelected (selectedElement s) id)).
Proof.
  intros Hc. unfold recordedOnly. split.
  - intros Hfresh. split.
    + intros changes. unfold updateZoom, pushHistory. rewrite Hc. simpl.
      rewrite map_same, withZooms_same; [reflexivity|].
      eapply Forall_impl; [exact Hfresh|]. intros z Hz. simpl.
      destruct (decide (zoom_id z ≠ id)); [reflexivity|contradiction].
    + unfold deleteZoom, pushHistory. rewrite Hc. simpl.
      rewrite (filter_all _ _ Hfresh), withZooms_same. reflexivity.
  - intros Hsome Hfresh. destruct (annotations c) as [anns|] eqn:Ea; [|contradiction].
    unfold freshAnnotationId in Hfresh. rewrite Ea in Hfresh. simpl in Hfresh. split.
    + intros changes. unfold updateAnnotation, pushHistory. rewrite Hc, Ea. simpl.
      rewrite map_same, (withAnnotations_same c anns Ea); [reflexivity|].
      eapply Forall_impl; [exact Hfresh|]. intros a Ha. simpl.
      destruct (decide (ann_id a = id)); [contradiction|reflexivity].
    + unfold deleteAnnotation, pushHistory. rewrite Hc, Ea. simpl.
      rewrite (filter_all _ _ Hfresh), (withAnnotations_same c anns Ea). reflexivity.
Qed.

Lemma edit_of_absent_id_still_recorded_witness :
  let s := store (Scenario.zoomed Scenario.wideZoom) in
  let c := Sample.configOf [Sample.seg "seg_1" 0 10; Sample.seg "seg_2" 12 20]
             [Scenario.wideZoom] in
  editConfig s = Some c
  /\ freshZoomId c "z_2"
  /\ deleteZoom "z_2" s = recordedOnly s c (clearIfSelected (selectedElement s) "z_2").
Proof.
  intros s c.
  assert (Hfresh : freshZoomId c "z_2").
  { constructor; [|constructor]. discriminate. }
  split; [reflexivity|]. split; [exact Hfresh|].
  exact (proj2 (proj1 (edit_of_absent_id_still_recorded s c "z_2" eq_refl) Hfresh)).
Defined.
(** ** Caption overrides *)

Lemma caption_action_config (s : EditorState) (c : EditConfig) (i : Z) :
  editConfig s = Some c ->
  (forall t,
     editConfig (updateCaptionText i t s)
     = Some (withCaptionOverrides c
               (<[i := mkOverride (Some t) (hidden (overrideAt c i))
                         (highlight (overrideAt c i))]> (captionOverrides c))))
  /\ editConfig (toggleWordHighlight i s)
     = Some (withCaptionOverrides c
               (<[i := mkOverride (text (overrideAt c i)) (hidden (overrideAt c i))
                         (Some (negb (isHighlighted c i)))]> (captionOverrides c)))
  /\ editConfig (hideWord i s)
     = Some (withCaptionOverrides c
               (<[i := mkOverride (text (overrideAt c i)) (Some (negb (isHidden c i)))
                         (highlight (overrideAt c i))]> (captionOverrides c))).
Proof.
  intros Hc. unfold updateCaptionText, toggleWordHighlight, hideWord. rewrite Hc.
  repeat split.
Qed.

Lemma overrideAt_insert (c : EditConfig) (i : Z) (o : CaptionOverride) :
  overrideAt (withCaptionOverrides c (<[i := o]> (captionOverrides c))) i = o.
Proof. unfold overrideAt. simpl. rewrite lookup_insert_eq. reflexivity. Qed.

Lemma sameOtherWords_insert (c : EditConfig) (i : Z) (o : CaptionOverride) :
  sameOtherWords i c (withCaptionOverrides c (<[i := o]> (captionOverrides c))).
Proof. intros j Hj. simpl. apply lookup_insert_ne. congruence. Qed.

(** X11. Each caption action writes one field of one word's override:
    [updateCaptionText] sets the text and keeps the word's hidden and
    highlight flags, [toggleWordHighlight] and [hideWord] flip their flag
    and keep the text and the other flag; the overrides of all other words
    stay as they are. *)
Theorem caption_actions_write_one_field (s : EditorState) (c : EditConfig) (i : Z)
    (newText : string) :
  editConfig s = Some c ->
  configHolds (fun c' => overrideAt c' i
                         = mkOverride (Some newText) (hidden (overrideAt c i))
                             (highlight (overrideAt c i))
                         /\ sameOtherWords i c c')
    (updateCaptionText i newText s)
  /\ configHolds (fun c' => isHighlighted c' i = negb (isHighlighted c i)
                            /\ text (overrideAt c' i) = text (overrideAt c i)
                            /\ hidden (overrideAt c' i) = hidden (overrideAt c i)
                            /\ sameOtherWords i c c')
       (toggleWordHighlight i s)
  /\ configHolds (fun c' => isHidden c' i = negb (isHidden c i)
                            /\ text (overrideAt c' i) = text (overrideAt c i)
                            /\ highlight (overrideAt c' i) = highlight (overrideAt c i)
                            /\ sameOtherWords i c c')
       (hideWord i s).
Proof.
  intros Hc. destruct (caption_action_config s c i Hc) as (Ht & Hh & Hd).
  unfold configHolds. rewrite (Ht newText), Hh, Hd.
  unfold isHidden, isHighlighted. rewrite !overrideAt_insert. simpl.
  repeat split; apply sameOtherWords_insert.
Qed.

Lemma caption_actions_write_one_field_witness :
  editConfig Sample.store0 = Some Sample.config0
  /\ configHolds (fun c' => isHidden c' 3 = negb (isHidden Sample.config0 3)
                            /\ text (overrideAt c' 3) = text (overrideAt Sample.config0 3)
                            /\ highlight (overrideAt c' 3)
                               = highlight (overrideAt Sample.config0 3)
                            /\ sameOtherWords 3 Sample.config0 c')
       (hideWord 3 Sample.store0).
Proof.
  split; [reflexivity|].
  exact (proj2 (proj2 (caption_actions_write_one_field Sample.store0 Sample.config0 3 ""
                         eq_refl))).
Defined.

(** X12. Hiding a word twice, or toggling its highlight twice, shows the
    word as before: both flags read as they did, the text override and all
    other words are untouched; the two calls leave two entries on the undo
    stack all the same (here for a stack with room for them). *)
Theorem toggling_twice_restores_flags (s : EditorState) (c : EditConfig) (i : Z) :
  editConfig s = Some c ->
  (length (editHistory s) + 2 <= MAX_HISTORY)%nat ->
  forall op, op ∈ [hideWord i; toggleWordHighlight i] ->
    configHolds (fun c' => isHidden c' i = isHidden c i
                           /\ isHighlighted c' i = isHighlighted c i
                           /\ text (overrideAt c' i) = text (overrideAt c i)
                           /\ sameOtherWords i c c')
      (op (op s))
    /\ length (editHistory (op (op s))) = (length (editHistory s) + 2)%nat.
Proof.
  intros Hc Hlen op Hop.
  apply list_elem_of_In in Hop. simpl in Hop.
  destruct Hop as [<- | [<- | []]].
  - unfold hideWord at 1 3. unfold hideWord, pushHistory. rewrite Hc. simpl.
    unfold configHolds. simpl. rewrite !lookup_insert_eq. simpl.
    split.
    + unfold isHidden, isHighlighted. rewrite !overrideAt_insert. simpl.
      fold (overrideAt c i). rewrite negb_involutive.
      repeat split. intros j Hj. simpl. rewrite !lookup_insert_ne by congruence.
      reflexivity.
    + rewrite !sliceLast_short; rewrite ?length_app; simpl;
        try rewrite sliceLast_short; rewrite ?length_app; simpl;
        unfold MAX_HISTORY in *; lia.
  - unfold toggleWordHighlight at 1 3. unfold toggleWordHighlight, pushHistory.
    rewrite Hc. simpl.
    unfold configHolds. simpl. rewrite !lookup_insert_eq. simpl.
    split.
    + unfold isHidden, isHighlighted. rewrite !overrideAt_insert. simpl.
      fold (overrideAt c i). rewrite negb_involutive.
      repeat split. intros j Hj. simpl. rewrite !lookup_insert_ne by congruence.
      reflexivity.
    + rewrite !sliceLast_short; rewrite ?length_app; simpl;
        try rewrite sliceLast_short; rewrite ?length_app; simpl;
        unfold MAX_HISTORY in *; lia.
Qed.
Lemma toggling_twice_restores_flags_witness :
  editConfig Sample.store0 = Some Sample.config0
  /\ (length (editHistory Sample.store0) + 2 <= MAX_HISTORY)%nat
  /\ hideWord 3 ∈ [hideWord 3; toggleWordHighlight 3]
  /\ configHolds (fun c' => isHidden c' 3 = isHidden Sample.config0 3
                            /\ isHighlighted c' 3 = isHighlighted Sample.config0 3
                            /\ text (overrideAt c' 3) = text (overrideAt Sample.config0 3)
                            /\ sameOtherWords 3 Sample.config0 c')
       (hideWord 3 (hideWord 3 Sample.store0)).
Proof.
  assert (Hlen : (length (editHistory Sample.store0) + 2 <= MAX_HISTORY)%nat)
    by (simpl; unfold MAX_HISTORY; lia).
  assert (Hop : hideWord 3 ∈ [hideWord 3; toggleWordHighlight 3]) by left.
  split; [reflexivity|]. split; [exact Hlen|]. split; [exact Hop|].
  exact (proj1 (toggling_twice_restores_flags Sample.store0 Sample.config0 3 eq_refl Hlen
                  (hideWord 3) Hop)).
Defined.

(** ** Annotations *)

(** X13. [addAnnotation] appends one text annotation and selects it. It
    starts at the given time and ends three seconds later, or at the clip
    duration [clipEnd - clipStart] if that comes first; for a time past the
    clip duration the annotation ends before it starts. *)
Theorem addAnnotation_span (stamp : string) (t : Q) (s : EditorState) (c : EditConfig) :
  editConfig s = Some c ->
  exists a,
    editConfig (addAnnotation stamp t s)
    = Some (withAnnotations c (default [] (annotations c) ++ [a]))
    /\ selectedElement (addAnnotation stamp t s)
       = Some (mkSelected sel_annotation (ann_id a) None)
    /\ ann_id a = "ann_" +:+ stamp
    /\ startTime a = t
    /\ endTime a <= t + 3
    /\ endTime a <= clipEnd s - clipStart s
    /\ (t + 3 <= clipEnd s - clipStart s -> endTime a == t + 3)
    /\ (clipEnd s - clipStart s < t -> endTime a < startTime a).
Proof.
  intros Hc. unfold addAnnotation. rewrite Hc. eexists.
  split; [reflexivity|]. split; [reflexivity|]. split; [reflexivity|].
  split; [reflexivity|]. cbn [endTime startTime].
  split; [apply Q.le_min_l|]. split; [apply Q.le_min_r|]. split.
  - intros H. apply Q.min_l. exact H.
  - intros H. eapply Qle_lt_trans; [apply Q.le_min_r|exact H].
Qed.

Lemma addAnnotation_span_witness :
  editConfig Sample.store0 = Some Sample.config0
  /\ exists a,
       editConfig (addAnnotation "a" 19 Sample.store0)
       = Some (withAnnotations Sample.config0 [a])
       /\ endTime a <= 20.
Proof.
  split; [reflexivity|].
  destruct (addAnnotation_span "a" 19 Sample.store0 Sample.config0 eq_refl)
    as (a & H1 & _ & _ & _ & _ & H2 & _).
  exists a. split; [exact H1|]. exact H2.
Defined.

(** ** The caption editor *)

Lemma displayText_insert (c : EditConfig) (i : Z) (t original : string)
    (h g : option bool) :
  CaptionEditor.displayText
    (Some (withCaptionOverrides c (<[i := mkOverride (Some t) h g]> (captionOverrides c))))
    i original
  = t.
Proof. unfold CaptionEditor.displayText. simpl. rewrite lookup_insert_eq. reflexivity. Qed.

(** X14. Committing a word edit whose trimmed text is not blank leaves the
    word displayed with the trimmed text; if it was displayed so already
    nothing is recorded, so a second commit of the same text changes
    nothing. A blank text is never stored. [trim] stands for
    [String.prototype.trim] and may be any function. *)
Theorem commitEdit_round_trip (trim : string -> string) (i : Z) (typed : string)
    (s : EditorState) (c : EditConfig) :
  editConfig s = Some c ->
  trim typed <> "" ->
  let original := default "" (word <$> CaptionEditor.wordAt (transcript s) i) in
  let commit := fun txt st =>
                  (CaptionEditor.commitEdit trim (CaptionEditor.mkEditing (Some i) txt) st).2 in
  CaptionEditor.displayText (editConfig (commit typed s)) i original = trim typed
  /\ commit typed (commit typed s) = commit typed s
  /\ (CaptionEditor.displayText (Some c) i original = trim typed -> commit typed s = s)
  /\ (forall blank, trim blank = "" -> commit blank s = s).
Proof.
  intros Hc Hne original commit.
  assert (Hcommit : forall st,
            commit typed st
            = if decide (trim typed
                         ≠ CaptionEditor.displayText (editConfig st) i
                             (default "" (word <$> CaptionEditor.wordAt (transcript st) i)))
              then updateCaptionText i (trim typed) st else st).
  { intros st. unfold commit, CaptionEditor.commitEdit. simpl.
    destruct (trim typed) eqn:E; [contradiction|reflexivity]. }
  assert (Hshown : CaptionEditor.displayText (editConfig (commit typed s)) i original
                   = trim typed).
  { rewrite Hcommit. fold original.
    destruct (decide (trim typed ≠ CaptionEditor.displayText (editConfig s) i original))
      as [Hdiff|Hsame].
    - unfold updateCaptionText. rewrite Hc. simpl. apply displayText_insert.
    - destruct (decide (trim typed = CaptionEditor.displayText (editConfig s) i original));
        [congruence|tauto]. }
  assert (Htr : transcript (commit typed s) = transcript s).
  { rewrite Hcommit. destruct (decide _); [|reflexivity].
    unfold updateCaptionText. rewrite Hc. reflexivity. }
  split; [exact Hshown|]. split; [|split].
  - rewrite (Hcommit (commit typed s)). rewrite Htr. fold original. rewrite Hshown.
    destruct (decide (trim typed ≠ trim typed)); [congruence|reflexivity].
  - intros Hsame. rewrite Hcommit. fold original. rewrite Hc, Hsame.
    destruct (decide (trim typed ≠ trim typed)); [congruence|reflexivity].
  - intros blank Hblank. unfold commit, CaptionEditor.commitEdit. simpl.
    rewrite Hblank. reflexivity.
Qed.

Lemma commitEdit_round_trip_witness :
  let s := TrimScenario.spoken in
  let commit := fun txt st =>
                  (CaptionEditor.commitEdit TrimScenario.trimSpaces
                     (CaptionEditor.mkEditing (Some 1%Z) txt) st).2 in
  editConfig s = Some Sample.config0
  /\ TrimScenario.trimSpaces " earth " <> ""
  /\ CaptionEditor.displayText (editConfig (commit " earth " s)) 1 "world" = "earth"
  /\ commit " earth " (commit " earth " s) = commit " earth " s.
Proof.
  intros s commit.
  assert (Hne : TrimScenario.trimSpaces " earth " <> "") by discriminate.
  pose proof (commitEdit_round_trip TrimScenario.trimSpaces 1 " earth " s Sample.config0
                eq_refl Hne) as (H1 & H2 & _).
  split; [reflexivity|]. split; [exact Hne|]. split; [exact H1|exact H2].
Defined.
Lemma activeCandidate_test (cs ce t : Q) (w : Word) (k : Z) :
  let cw := CaptionEditor.mkClipWord w k (w_start w - cs) (w_end w - cs) in
  (Qle_bool cs (w_start (CaptionEditor.cw_word cw))
   && Qle_bool (w_end (CaptionEditor.cw_word cw)) ce
   && CaptionEditor.spokenAt t cw) = true
  <-> activeCandidate cs ce t w.
Proof.
  intros cw. unfold activeCandidate, inClip, spokenNear, CaptionEditor.spokenAt. subst cw.
  cbn [CaptionEditor.cw_word CaptionEditor.relativeStart CaptionEditor.relativeEnd].
  rewrite !andb_true_iff, !Qle_bool_iff. tauto.
Qed.

Lemma find_clipWords (cs ce t : Q) :
  forall (l : list Word) (k : nat),
    match List.find (CaptionEditor.spokenAt t)
            (filter (fun w => Qle_bool cs (w_start (CaptionEditor.cw_word w))
                              && Qle_bool (w_end (CaptionEditor.cw_word w)) ce)
               (imap (fun i w => CaptionEditor.mkClipWord w (Z.of_nat (k + i))
                                   (w_start w - cs) (w_end w - cs)) l)) with
    | Some cw =>
        exists i w, CaptionEditor.originalIndex cw = Z.of_nat (k + i)
                    /\ l !! i = Some w
                    /\ activeCandidate cs ce t w
                    /\ forall j w', (j < i)%nat -> l !! j = Some w' ->
                         ~ activeCandidate cs ce t w'
    | None => forall i w, l !! i = Some w -> ~ activeCandidate cs ce t w
    end.
Proof.
  induction l as [|x l IH]; intros k.
  - simpl. intros i w Hi. rewrite lookup_nil in Hi. discriminate.
  - cbn [imap].
    rewrite (imap_ext _ (fun i w => CaptionEditor.mkClipWord w (Z.of_nat (S k + i))
                                      (w_start w - cs) (w_end w - cs)) l)
      by (intros i w _; simpl; do 2 f_equal; lia).
    specialize (IH (S k)).
    pose proof (activeCandidate_test cs ce t x (Z.of_nat (k + 0))) as Htest.
    cbv zeta in Htest.
    set (cw := CaptionEditor.mkClipWord x (Z.of_nat (k + 0)) (w_start x - cs)
                 (w_end x - cs)) in *.
    set (rest := filter _ (imap _ l)) in *.
    assert (Hskip : ~ activeCandidate cs ce t x ->
              match List.find (CaptionEditor.spokenAt t) rest with
              | Some cw0 =>
                  exists i w, CaptionEditor.originalIndex cw0 = Z.of_nat (k + i)
                              /\ (x :: l) !! i = Some w
                              /\ activeCandidate cs ce t w
                              /\ forall j w', (j < i)%nat -> (x :: l) !! j = Some w' ->
                                   ~ activeCandidate cs ce t w'
              | None => forall i w, (x :: l) !! i = Some w -> ~ activeCandidate cs ce t w
              end).
    { intros Hx. destruct (List.find (CaptionEditor.spokenAt t) rest) as [cw0|].
      - destruct IH as (i & w & Hidx & Hi & Hcand & Hfirst).
        exists (S i), w. split; [rewrite Hidx; f_equal; lia|].
        split; [exact Hi|]. split; [exact Hcand|].
        intros [|j] w' Hj Hw'.
        + simpl in Hw'. injection Hw' as <-. exact Hx.
        + apply (Hfirst j w'); [lia|exact Hw'].
      - intros [|i] w Hi.
        + simpl in Hi. injection Hi as <-. exact Hx.
        + exact (IH i w Hi). }
    destruct (Qle_bool cs (w_start (CaptionEditor.cw_word cw))
              && Qle_bool (w_end (CaptionEditor.cw_word cw)) ce) eqn:Ein.
    + rewrite filter_cons_True by (rewrite Ein; exact I).
      cbn [List.find]. destruct (CaptionEditor.spokenAt t cw) eqn:Esp.
      * exists 0%nat, x. split; [reflexivity|]. split; [reflexivity|].
        split; [apply Htest; reflexivity|]. intros j w' Hj. lia.
      * apply Hskip. intros Hx. apply Htest in Hx. discriminate.
    + rewrite filter_cons_False by (rewrite Ein; exact id).
      apply Hskip. intros Hx. apply Htest in Hx. discriminate.
Qed.

(** X15. The active word of the caption editor is the first transcript
    word that lies within the clip range and whose clip-relative range,
    widened by 0.05 seconds, contains the playback time; it is -1 when
    there is none. The segments of the configuration have no part in it:
    the playback time is compared with source-relative word times as it
    is. *)
Theorem activeWordIndex_first_spoken_word (transcript : list Word) (clipStart clipEnd : Q)
    (c : EditConfig) (t : Q) :
  let words := CaptionEditor.clipWords transcript clipStart clipEnd in
  let idx := CaptionEditor.activeWordIndex words (Some c) t in
  (forall c', CaptionEditor.activeWordIndex words (Some c') t = idx)
  /\ (idx = (-1)%Z
      /\ (forall i w, transcript !! i = Some w -> ~ activeCandidate clipStart clipEnd t w)
      \/ exists i w,
           idx = Z.of_nat i
           /\ transcript !! i = Some w
           /\ activeCandidate clipStart clipEnd t w
           /\ forall j w', (j < i)%nat -> transcript !! j = Some w' ->
                ~ activeCandidate clipStart clipEnd t w').
Proof.
  intros words idx.
  assert (Hidx : forall c',
            CaptionEditor.activeWordIndex words (Some c') t
            = match List.find (CaptionEditor.spokenAt t) words with
              | Some w => CaptionEditor.originalIndex w
              | None => (-1)%Z
              end).
  { intros c'. unfold CaptionEditor.activeWordIndex. destruct words; reflexivity. }
  split; [intros c'; subst idx; rewrite !Hidx; reflexivity|].
  subst idx. rewrite Hidx.
  assert (Hwords : words
                   = filter (fun w => Qle_bool clipStart (w_start (CaptionEditor.cw_word w))
                                      && Qle_bool (w_end (CaptionEditor.cw_word w)) clipEnd)
                       (imap (fun i w => CaptionEditor.mkClipWord w (Z.of_nat (0 + i))
                                           (w_start w - clipStart) (w_end w - clipStart))
                          transcript)).
  { subst words. unfold CaptionEditor.clipWords. destruct transcript; reflexivity. }
  pose proof (find_clipWords clipStart clipEnd t transcript 0) as H.
  rewrite <- Hwords in H.
  destruct (List.find (CaptionEditor.spokenAt t) words) as [cw|].
  - right. destruct H as (i & w & Hi & Hw & Hcand & Hfirst).
    exists i, w. rewrite Hi. auto.
  - left. split; [reflexivity|exact H].
Qed.
(** ** Timeline gestures *)

Lemma pointerMoves_keep (xs : list Q) :
  forall ui s,
    (pointerMoves xs (ui, s)).2 = s
    /\ Timeline.dragState (pointerMoves xs (ui, s)).1 = Timeline.dragState ui
    /\ Timeline.dragStartX (pointerMoves xs (ui, s)).1 = Timeline.dragStartX ui.
Proof.
  induction xs as [|x xs IH]; intros ui s; [auto|].
  change (pointerMoves (x :: xs) (ui, s))
    with (pointerMoves xs (Timeline.handleMouseMove x ui s)).
  assert (Hm : exists ui', Timeline.handleMouseMove x ui s = (ui', s)
                           /\ Timeline.dragState ui' = Timeline.dragState ui
                           /\ Timeline.dragStartX ui' = Timeline.dragStartX ui).
  { unfold Timeline.handleMouseMove.
    destruct (Timeline.dragState ui) eqn:E; eexists; (split; [reflexivity|]); simpl; auto. }
  destruct Hm as (ui' & -> & Hd & Hx). destruct (IH ui' s) as (H1 & H2 & H3).
  rewrite H1, H2, H3. auto.
Qed.

Lemma release_without_move (lib : SegmentsLib) (ui : Timeline.Local) (s : EditorState)
    (x' : Q) :
  Qabs (x' - Timeline.dragStartX ui) <= 2 ->
  (Timeline.handleMouseUp lib x' ui s).2 = s.
Proof.
  intros Hnear. unfold Timeline.handleMouseUp.
  destruct (Timeline.dragState ui); [|reflexivity]. cbn [snd].
  apply round_within_2, Qltb_ge in Hnear. unfold Double.sub.
  rewrite Hnear. reflexivity.
Qed.

Lemma release_clears_drag (lib : SegmentsLib) (ui : Timeline.Local) (s : EditorState)
    (x' : Q) :
  Timeline.dragState (Timeline.handleMouseUp lib x' ui s).1
  = None.
Proof.
  unfold Timeline.handleMouseUp.
  destruct (Timeline.dragState ui) eqn:Ed; [reflexivity|exact Ed].
Qed.

(** X16. Pressing a segment edge or a zoom marker and releasing the pointer
    within 2 pixels of where it was pressed, whatever the moves in between,
    edits nothing: the store is the one the press left, which is the old
    store with at most the selection changed, and the drag is over. *)
Theorem press_and_release_only_selects (lib : SegmentsLib) (ui : Timeline.Local)
    (s : EditorState) (x x' : Q) (xs : list Q) :
  Timeline.dragState ui = None ->
  Qabs (x' - x) <= 2 ->
  forall pressed,
    (exists id edge, pressed = Timeline.handleSegmentEdgeMouseDown x id edge ui s)
    \/ (exists id, pressed = Timeline.handleZoomMouseDown x id ui s) ->
    let moved := pointerMoves xs pressed in
    let released := Timeline.handleMouseUp lib x' moved.1 moved.2 in
    released.2 = pressed.2
    /\ Timeline.dragState released.1 = None
    /\ exists sel, pressed.2 = selectElement sel s.
Proof.
  intros Hidle Hnear pressed Hpress moved released.
  assert (Hshape : (pressed = (ui, s)
                    \/ Timeline.dragStartX pressed.1 = x)
                   /\ exists sel, pressed.2 = selectElement sel s).
  { assert (Hsame : s = selectElement (selectedElement s) s) by (destruct s; reflexivity).
    destruct Hpress as [(id & edge & ->)|(id & ->)].
    - unfold Timeline.handleSegmentEdgeMouseDown.
      destruct (editConfig s) as [c|]; [|split; [left; reflexivity|eauto]].
      destruct (List.find _ (segments c)); [|split; [left; reflexivity|eauto]].
      split; [right; reflexivity|eauto].
    - unfold Timeline.handleZoomMouseDown.
      destruct (editConfig s) as [c|]; [|split; [left; reflexivity|eauto]].
      destruct (List.find _ (zooms c)); [|split; [left; reflexivity|eauto]].
      split; [right; reflexivity|eauto]. }
  destruct Hshape as (Hstart & Hsel).
  destruct pressed as [ui1 s1]. cbn [fst snd] in *.
  destruct (pointerMoves_keep xs ui1 s1) as (Hs & Hd & Hx).
  subst released moved. split; [|split; [apply release_clears_drag|exact Hsel]].
  destruct Hstart as [Heq|Hstart].
  - injection Heq as -> ->. unfold Timeline.handleMouseUp.
    rewrite Hd, Hidle. exact Hs.
  - rewrite release_without_move; [exact Hs|]. rewrite Hx, Hstart. exact Hnear.
Qed.

Lemma press_and_release_only_selects_witness :
  let pressed := Timeline.handleSegmentEdgeMouseDown 500 "seg_1" edge_end
                   TimelineScenario.idle Sample.store0 in
  let moved := pointerMoves [520; 480; 501] pressed in
  Timeline.dragState TimelineScenario.idle = None
  /\ Qabs (501 - 500) <= 2
  /\ (Timeline.handleMouseUp SegmentsSpec.lib 501 moved.1 moved.2).2 = pressed.2.
Proof.
  intros pressed moved.
  assert (Hnear : Qabs (501 - 500) <= 2) by (apply Qle_bool_iff; reflexivity).
  split; [reflexivity|]. split; [exact Hnear|].
  refine (proj1 (press_and_release_only_selects SegmentsSpec.lib TimelineScenario.idle
                   Sample.store0 500 501 [520; 480; 501] eq_refl Hnear pressed _)).
  left. exists "seg_1", edge_end. reflexivity.
Defined.
(** ** Split at the playhead *)

Lemma splitPoint_blocks (zoom t : Q) :
  forall segs off,
    Timeline.splitPoint off t segs
    = option_map (fun b => (seg_id (Timeline.block_seg b),
                            sourceStart (Timeline.block_seg b)
                            ⊕ (t ⊖ Timeline.outputStart b)))
        (List.find (blockContains t) (Timeline.segmentBlocksFrom64 zoom off segs)).
Proof.
  induction segs as [|seg rest IH]; intros off; [reflexivity|].
  simpl. unfold blockContains at 1. simpl.
  destruct (Qle_bool off t && Qle_bool t (off ⊕ (sourceEnd seg ⊖ sourceStart seg)));
    [reflexivity|apply IH].
Qed.

Lemma blocks_cover (zoom t : Q) :
  forall segs off bl,
    last (Timeline.segmentBlocksFrom64 zoom off segs) = Some bl ->
    off <= t -> t <= Timeline.outputEnd bl ->
    List.find (blockContains t) (Timeline.segmentBlocksFrom64 zoom off segs) <> None.
Proof.
  induction segs as [|seg rest IH]; intros off bl Hlast Hlo Hhi; [discriminate|].
  simpl. unfold blockContains at 1. simpl.
  destruct (Qle_bool t (off ⊕ (sourceEnd seg ⊖ sourceStart seg))) eqn:Ein.
  - apply Qle_bool_iff in Hlo. rewrite Hlo. discriminate.
  - rewrite andb_false_r. apply Qle_bool_false in Ein.
    destruct rest as [|seg' rest'].
    + simpl in Hlast. injection Hlast as <-. simpl in Hhi. lra.
    + apply (IH _ bl); [exact Hlast|lra|exact Hhi].
Qed.

(** The block of the [i]-th segment starts where the segments before it
    end and ends where the segments up to it end. *)
Lemma blocks64_lookup (zoom : Q) :
  forall segs off i b,
    Timeline.segmentBlocksFrom64 zoom off segs !! i = Some b ->
    segs !! i = Some (Timeline.block_seg b)
    /\ Timeline.outputStart b
       = foldl (fun acc sg => acc ⊕ (sourceEnd sg ⊖ sourceStart sg)) off (take i segs)
    /\ Timeline.outputEnd b
       = foldl (fun acc sg => acc ⊕ (sourceEnd sg ⊖ sourceStart sg)) off (take (S i) segs).
Proof.
  induction segs as [|seg rest IH]; intros off i b Hb; [discriminate|].
  destruct i as [|i].
  - injection Hb as <-. auto.
  - exact (IH _ i b Hb).
Qed.

(** X17. Split at the playhead, from the toolbar or with the S key, splits
    the first segment whose output range contains the playhead, the range
    running from the sum of the durations before the segment to that sum
    with its own duration, at the source time [sourceStart + (playhead -
    output start)]; with the playhead on no range it does nothing. Every
    playhead position from 0 to the end of the last range is on a range.
    Sums and differences are the code's, in double precision. *)
Theorem split_at_playhead_targets_block (lib : SegmentsLib) (s : EditorState)
    (c : EditConfig) :
  editConfig s = Some c ->
  let blocks := Timeline.segmentBlocks64 (Some c) (timelineZoom s) in
  match List.find (blockContains (currentTime s)) blocks with
  | Some b =>
      let splitSourceTime := sourceStart (Timeline.block_seg b)
                             ⊕ (currentTime s ⊖ Timeline.outputStart b) in
      Timeline.handleSplitAtPlayhead lib s
      = splitSegment lib (seg_id (Timeline.block_seg b)) splitSourceTime s
      /\ exists i, segments c !! i = Some (Timeline.block_seg b)
           /\ Timeline.outputStart b = outputEndOf (take i (segments c))
           /\ Timeline.outputEnd b = outputEndOf (take (S i) (segments c))
           /\ forall j seg, (j < i)%nat -> segments c !! j = Some seg ->
                ~ (outputEndOf (take j (segments c)) <= currentTime s
                   <= outputEndOf (take (S j) (segments c)))
  | None => Timeline.handleSplitAtPlayhead lib s = s
  end
  /\ (forall bl, last blocks = Some bl ->
        0 <= currentTime s -> currentTime s <= Timeline.outputEnd bl ->
        List.find (blockContains (currentTime s)) blocks <> None).
Proof.
  intros Hc blocks. subst blocks. unfold Timeline.segmentBlocks64. split.
  - unfold Timeline.handleSplitAtPlayhead. rewrite Hc.
    rewrite (splitPoint_blocks (timelineZoom s)).
    destruct (List.find _ _) as [b|] eqn:Efind; [|reflexivity].
    cbn [option_map]. split; [reflexivity|].
    destruct (find_split _ _ _ Efind) as (l1 & l2 & Hl & Hin & Hbefore).
    assert (Hi : Timeline.segmentBlocksFrom64 (timelineZoom s) 0 (segments c) !! length l1
                 = Some b).
    { rewrite Hl. rewrite lookup_app_r by lia. rewrite Nat.sub_diag. reflexivity. }
    destruct (blocks64_lookup _ _ _ _ _ Hi) as (Hseg & Hstart & Hend).
    exists (length l1). split; [exact Hseg|]. split; [exact Hstart|]. split; [exact Hend|].
    intros j seg Hj Hsegj [H1 H2].
    assert (Hlen : (j < length (Timeline.segmentBlocksFrom64 (timelineZoom s) 0 (segments c)))%nat).
    { rewrite Hl, length_app. lia. }
    apply lookup_lt_is_Some_2 in Hlen. destruct Hlen as [b' Hb'].
    destruct (blocks64_lookup _ _ _ _ _ Hb') as (_ & Hstart' & Hend').
    assert (Hl1 : l1 !! j = Some b').
    { rewrite Hl, lookup_app_l in Hb' by lia. exact Hb'. }
    assert (Hno : blockContains (currentTime s) b' = false).
    { rewrite Forall_forall in Hbefore. apply Hbefore.
      apply list_elem_of_lookup. eauto. }
    unfold blockContains in Hno. unfold outputEndOf in H1, H2.
    rewrite <- Hstart' in H1. rewrite <- Hend' in H2.
    apply Qle_bool_iff in H1, H2. rewrite H1, H2 in Hno. discriminate.
  - intros bl Hlast Hlo Hhi.
    exact (blocks_cover _ _ _ _ bl Hlast Hlo Hhi).
Qed.

Lemma split_at_playhead_targets_block_witness :
  let s := TimelineScenario.tenths in
  let a := Sample.seg "a" (1 ⊘ 10) (3 ⊘ 10) in
  let b := Sample.seg "b" (3 ⊘ 10) (6 ⊘ 10) in
  let outputStart := 0 ⊕ (sourceEnd a ⊖ sourceStart a) in
  let outputEnd := outputStart ⊕ (sourceEnd b ⊖ sourceStart b) in
  let splitSourceTime := sourceStart b ⊕ (currentTime s ⊖ outputStart) in
  editConfig s = Some (Sample.configOf [a; b] [])
  /\ Timeline.handleSplitAtPlayhead SegmentsSpec.lib s
     = splitSegment SegmentsSpec.lib "b" splitSourceTime s
  /\ (outputStart < currentTime s /\ currentTime s == outputEnd)
  /\ sourceEnd b < splitSourceTime.
Proof.
  intros s a b outputStart outputEnd splitSourceTime.
  assert (Hc : editConfig s = Some (Sample.configOf [a; b] [])) by reflexivity.
  assert (Efind : List.find (blockContains (currentTime s))
                    (Timeline.segmentBlocks64 (Some (Sample.configOf [a; b] []))
                       (timelineZoom s))
                  = Some (Timeline.mkBlock b outputStart outputEnd
                            (Timeline.timeToX64 (timelineZoom s)
                               (sourceEnd b ⊖ sourceStart b))
                            (Timeline.timeToX64 (timelineZoom s) outputStart))).
  { vm_compute. reflexivity. }
  pose proof (split_at_playhead_targets_block SegmentsSpec.lib s _ Hc) as H.
  cbv zeta in H. rewrite Efind in H. destruct H as [[H _] _].
  split; [exact Hc|]. split; [exact H|].
  split; [split|]; vm_compute; reflexivity.
Defined.
(** ** Source boundary markers *)

Lemma locateSource_first (blocks : list Timeline.SegmentBlock) (s : Q) :
  Timeline.locateSource blocks s
  = option_map (fun b => Timeline.outputStart b + (s - sourceStart (Timeline.block_seg b)))
      (List.find (blockKeeps s) blocks).
Proof.
  induction blocks as [|b rest IH]; [reflexivity|].
  simpl. unfold blockKeeps at 1.
  destruct (Qle_bool (sourceStart (Timeline.block_seg b)) s
            && Qle_bool s (sourceEnd (Timeline.block_seg b))); [reflexivity|exact IH].
Qed.

Lemma flat_map_at_most_one {A B} (f : A -> list B) (l : list A) :
  (forall x, (length (f x) <= 1)%nat) -> (length (flat_map f l) <= length l)%nat.
Proof.
  intros Hf. induction l as [|x l IH]; [reflexivity|].
  simpl. rewrite length_app. specialize (Hf x). lia.
Qed.

(** X18. The timeline marks the boundary between two source videos
    exactly when the start of the later video lies strictly inside the clip
    and in the source range of a block; the mark is at the pixel of the
    output time that the first such block gives that source time. A
    boundary in a removed range gets no mark, nor does the start of the
    first video, and with a single source video there are none. *)
Theorem boundary_markers_where_kept (videos : list SourceVideo) (c : EditConfig)
    (blocks : list Timeline.SegmentBlock) (clipStart clipEnd zoom : Q) :
  let markers :=
    Timeline.sourceBoundaryMarkers videos (Some c) blocks clipStart clipEnd zoom in
  (forall x name,
     (x, name) ∈ markers
     <-> exists video b,
           video ∈ drop 1 videos
           /\ name = originalName video
           /\ 0 < offsetInTimeline video - clipStart
           /\ offsetInTimeline video - clipStart < clipEnd - clipStart
           /\ List.find (blockKeeps (offsetInTimeline video - clipStart)) blocks = Some b
           /\ x = Timeline.timeToX zoom
                    (Timeline.outputStart b
                     + (offsetInTimeline video - clipStart
                        - sourceStart (Timeline.block_seg b))))
  /\ (length markers <= length videos - 1)%nat.
Proof.
  intros markers. subst markers. unfold Timeline.sourceBoundaryMarkers.
  set (f := fun video : SourceVideo => _).
  assert (Hf : forall video x name,
            (x, name) ∈ f video
            <-> exists b,
                  name = originalName video
                  /\ 0 < offsetInTimeline video - clipStart
                  /\ offsetInTimeline video - clipStart < clipEnd - clipStart
                  /\ List.find (blockKeeps (offsetInTimeline video - clipStart)) blocks
                     = Some b
                  /\ x = Timeline.timeToX zoom
                           (Timeline.outputStart b
                            + (offsetInTimeline video - clipStart
                               - sourceStart (Timeline.block_seg b)))).
  { intros video x name. subst f. cbv beta zeta.
    set (rel := offsetInTimeline video - clipStart).
    rewrite locateSource_first.
    destruct (Qle_bool rel 0) eqn:E0; cbn [orb].
    { apply Qle_bool_iff in E0. split; [intros H; apply elem_of_nil in H; contradiction|].
      intros (b & _ & Hpos & _). lra. }
    apply Qle_bool_false in E0.
    destruct (Qle_bool (clipEnd - clipStart) rel) eqn:E1.
    { apply Qle_bool_iff in E1. split; [intros H; apply elem_of_nil in H; contradiction|].
      intros (b & _ & _ & Hlt & _). lra. }
    apply Qle_bool_false in E1.
    destruct (List.find (blockKeeps rel) blocks) as [b|]; cbn [option_map].
    - rewrite list_elem_of_singleton. split.
      + intros Heq. injection Heq as -> ->. exists b. auto.
      + intros (b' & -> & _ & _ & Hb & ->). injection Hb as <-. reflexivity.
    - split; [intros H; apply elem_of_nil in H; contradiction|].
      intros (b' & _ & _ & _ & Hb & _). discriminate. }
  assert (Hlen : forall video, (length (f video) <= 1)%nat).
  { intros video. subst f. cbv beta zeta.
    destruct (_ || _); [simpl; lia|].
    destruct (Timeline.locateSource _ _); simpl; lia. }
  destruct (length videos <=? 1)%nat eqn:Elen.
  - apply Nat.leb_le in Elen. split; [|simpl; lia].
    intros x name. split; [intros H; apply elem_of_nil in H; contradiction|].
    intros (video & b & Hin & _).
    destruct videos as [|v [|v' rest]]; simpl in *;
      try (apply elem_of_nil in Hin; contradiction). lia.
  - split.
    + intros x name. rewrite elem_of_flat_map. split.
      * intros (video & Hin & Hx). apply Hf in Hx. destruct Hx as (b & Hx).
        exists video, b. tauto.
      * intros (video & b & Hin & Hx). exists video. split; [exact Hin|].
        apply Hf. exists b. exact Hx.
    + pose proof (flat_map_at_most_one f (drop 1 videos) Hlen) as H.
      rewrite length_drop in H. exact H.
Qed.

(** ** Blocks in pixels *)

Lemma blocks_pixels (zoom : Q) :
  forall segs off,
    Forall (fun b => Timeline.left b = Timeline.outputStart b ⊗ zoom
                     /\ Timeline.width b
                        = (sourceEnd (Timeline.block_seg b)
                           ⊖ sourceStart (Timeline.block_seg b)) ⊗ zoom
                     /\ Timeline.outputEnd b
                        = Timeline.outputStart b
                          ⊕ (sourceEnd (Timeline.block_seg b)
                             ⊖ sourceStart (Timeline.block_seg b)))
      (Timeline.segmentBlocksFrom64 zoom off segs).
Proof.
  induction segs as [|seg rest IH]; intros off; [constructor|].
  simpl. constructor; [auto|apply IH].
Qed.

Lemma blocks64_segs (zoom : Q) :
  forall segs off,
    map Timeline.block_seg (Timeline.segmentBlocksFrom64 zoom off segs) = segs.
Proof.
  induction segs as [|seg rest IH]; intros off; [reflexivity|].
  simpl. f_equal. apply IH.
Qed.

(** X19. The blocks follow one another on the segment track: the first
    block starts at output time 0 and pixel 0, every block starts at the
    output end of the one before it and is drawn from the pixel of that
    time, and a block ends its segment's duration after its start and is
    as wide as the zoom times that duration. Every sum, difference and
    product is the code's, in double precision. *)
Theorem segment_blocks_tile_the_track (c : EditConfig) (zoom : Q) :
  let blocks := Timeline.segmentBlocks64 (Some c) zoom in
  map Timeline.block_seg blocks = segments c
  /\ (forall b, head blocks = Some b -> Timeline.outputStart b = 0 /\ Timeline.left b = 0)
  /\ (forall i b b', blocks !! i = Some b -> blocks !! S i = Some b' ->
        Timeline.outputStart b' = Timeline.outputEnd b
        /\ Timeline.left b' = Timeline.outputEnd b ⊗ zoom)
  /\ (forall b, b ∈ blocks ->
        Timeline.outputEnd b
        = Timeline.outputStart b
          ⊕ (sourceEnd (Timeline.block_seg b) ⊖ sourceStart (Timeline.block_seg b))
        /\ Timeline.width b
           = (sourceEnd (Timeline.block_seg b) ⊖ sourceStart (Timeline.block_seg b)) ⊗ zoom
        /\ Timeline.left b = Timeline.outputStart b ⊗ zoom).
Proof.
  intros blocks. subst blocks. unfold Timeline.segmentBlocks64.
  pose proof (blocks_pixels zoom (segments c) 0) as Hpx.
  rewrite Forall_forall in Hpx.
  split; [|split; [|split]].
  - apply blocks64_segs.
  - intros b Hb. destruct (segments c); [discriminate|].
    simpl in Hb. injection Hb as <-. simpl. split; [reflexivity|].
    unfold Timeline.timeToX64, Double.mul.
    rewrite (round_proper (0 * zoom) 0) by ring. reflexivity.
  - intros i b b' Hi Hi'.
    destruct (blocks64_lookup _ _ _ _ _ Hi) as (_ & _ & Hend).
    destruct (blocks64_lookup _ _ _ _ _ Hi') as (_ & Hstart' & _).
    assert (Hnext : Timeline.outputStart b' = Timeline.outputEnd b) by congruence.
    split; [exact Hnext|].
    destruct (Hpx b' (proj2 (list_elem_of_lookup _ _) (ex_intro _ (S i) Hi'))) as (Hl' & _).
    rewrite Hl', Hnext. reflexivity.
  - intros b Hb. destruct (Hpx b Hb) as (Hl & Hw & He). auto.
Qed.

(** The left edge and the width of a block need not add up to the left
    edge of the next: with durations of 0.1, 0.2 and 0.3 seconds at 50
    pixels per second the second block ends at pixel 15 and the third
    starts past it. *)
Example blocks_need_not_meet :
  let segs := [Sample.seg "a" 0 (1 ⊘ 10); Sample.seg "b" 0 (2 ⊘ 10);
               Sample.seg "c" 0 (3 ⊘ 10)] in
  match Timeline.segmentBlocks64 (Some (Sample.configOf segs [])) 50 with
  | [_; second; third] =>
      Timeline.left second ⊕ Timeline.width second == 15
      /\ 15 < Timeline.left third
  | _ => False
  end.
Proof. vm_compute. split; reflexivity. Qed.
(** ** Snapping *)




(** ** Seeking and zooming the timeline *)


(** X22. A wheel turn with Ctrl or Cmd held changes the timeline zoom by
    at most 5 pixels per second, down for a positive [deltaY] and up
    otherwise, and never takes it out of the range from 10 to 200; without
    the modifier the store is untouched. *)
Theorem wheel_zoom_steps_by_five (deltaY : Q) (s : EditorState) :
  10 <= timelineZoom s <= 200 ->
  let s' := Timeline.handleWheel true deltaY s in
  10 <= timelineZoom s' <= 200
  /\ (0 < deltaY -> timelineZoom s' == Qmax 10 (timelineZoom s - 5))
  /\ (deltaY <= 0 -> timelineZoom s' == Qmin 200 (timelineZoom s + 5))
  /\ Timeline.handleWheel false deltaY s = s.
Proof.
  intros [Hlo Hhi] s'. subst s'. unfold Timeline.handleWheel, setTimelineZoom. simpl.
  split; [split; [apply Q.le_max_l|apply Q.max_lub; [lra|apply Q.le_min_l]]|].
  split; [|split; [|reflexivity]].
  - intros Hd. apply Qltb_lt in Hd. rewrite Hd.
    assert (Hsub : timelineZoom s + -5 == timelineZoom s - 5) by ring.
    rewrite Hsub. rewrite (Q.min_r 200 (timelineZoom s - 5)) by lra. reflexivity.
  - intros Hd. apply Qltb_ge in Hd. rewrite Hd.
    apply Q.max_r. apply Q.min_glb; lra.
Qed.

Lemma wheel_zoom_steps_by_five_witness :
  10 <= timelineZoom Sample.store0 <= 200
  /\ 10 <= timelineZoom (Timeline.handleWheel true 1 Sample.store0) <= 200.
Proof.
  assert (H : 10 <= timelineZoom Sample.store0 <= 200)
    by (split; apply Qle_bool_iff; reflexivity).
  split; [exact H|]. exact (proj1 (wheel_zoom_steps_by_five 1 Sample.store0 H)).
Defined.

(** ** The delete button *)

(** X23. With a configuration loaded, the toolbar shows its delete button
    exactly when deleting does something: where it is not shown, the button's
    handler and the Delete key leave the store as it is; where it is shown,
    they clear the selection, record the deletion and empty the redo
    stack. The key and the button act alike in every state. *)
Theorem delete_button_shown_when_it_acts (lib : SegmentsLib) (s : EditorState)
    (c : EditConfig) :
  editConfig s = Some c ->
  Timeline.handleDeleteKey lib s = Timeline.handleDeleteSelected lib s
  /\ (Timeline.canDeleteSelected s = false -> Timeline.handleDeleteSelected lib s = s)
  /\ (Timeline.canDeleteSelected s = true ->
      selectedElement (Timeline.handleDeleteSelected lib s) = None
      /\ editHistory (Timeline.handleDeleteSelected lib s)
         = sliceLast MAX_HISTORY (editHistory s ++ [c])
      /\ editFuture (Timeline.handleDeleteSelected lib s) = []
      /\ isDirty (Timeline.handleDeleteSelected lib s) = true).
Proof.
  intros Hc. split; [reflexivity|].
  unfold Timeline.canDeleteSelected, Timeline.handleDeleteSelected. rewrite Hc.
  destruct (selectedElement s) as [sel|]; [|split; [reflexivity|discriminate]].
  destruct (sel_type sel).
  - destruct (1 <? length (segments c))%nat; (split; [try reflexivity; discriminate|]);
      [|discriminate].
    intros _. unfold deleteSegment, pushHistory. rewrite Hc. simpl. auto.
  - split; [reflexivity|discriminate].
  - split; [discriminate|]. intros _. unfold deleteZoom, pushHistory. rewrite Hc.
    simpl. auto.
  - split; [discriminate|]. intros _. unfold deleteAnnotation, pushHistory. rewrite Hc.
    simpl. auto.
Qed.

Lemma delete_button_shown_when_it_acts_witness :
  let s := Scenario.single in
  editConfig s = Some (Sample.configOf [Sample.seg "seg_1" 0 10] [])
  /\ Timeline.canDeleteSelected s = false
  /\ Timeline.handleDeleteSelected SegmentsSpec.lib s = s.
Proof.
  intros s. split; [reflexivity|]. split; [reflexivity|].
  exact (proj1 (proj2 (delete_button_shown_when_it_acts SegmentsSpec.lib s _ eq_refl))
           eq_refl).
Defined.

(** ** The anchor sliders *)

Lemma Math_round_near (x : Q) :
  x - (1#2) < Timeline.Math_round x /\ Timeline.Math_round x <= x + (1#2).
Proof.
  unfold Timeline.Math_round.
  pose proof (Qfloor_le (x + (1#2))) as Hle.
  pose proof (Qlt_floor (x + (1#2))) as Hlt.
  rewrite inject_Z_plus in Hlt. change (inject_Z 1) with 1 in Hlt. split; lra.
Qed.

Lemma Math_round_mono (x y : Q) : x <= y -> Timeline.Math_round x <= Timeline.Math_round y.
Proof.
  intros H. unfold Timeline.Math_round. rewrite <- Zle_Qle.
  apply Qfloor_resp_le. lra.
Qed.

(** X24. For a zoom with a scale of at least 1, the range the two anchor
    sliders offer is not empty, lies within the frame, and each of its ends
    is within half a hundredth of the bound the clamp uses. *)
Theorem anchor_slider_range (z : ZoomConfig) :
  1 <= scale z ->
  let half := (1#2) / scale z in
  0 <= PropertiesPanel.anchorMin z
  /\ PropertiesPanel.anchorMin z <= PropertiesPanel.anchorMax z
  /\ PropertiesPanel.anchorMax z <= 1
  /\ Qabs (PropertiesPanel.anchorMin z - half) <= 1#200
  /\ Qabs (PropertiesPanel.anchorMax z - (1 - half)) <= 1#200.
Proof.
  intros Hsc half. destruct (half_le (scale z) Hsc) as [Hpos Hhalf]. fold half in Hpos, Hhalf.
  unfold PropertiesPanel.anchorMin, PropertiesPanel.anchorMax. fold half.
  pose proof (Math_round_near (half * 100)) as [Hlo Hhi].
  pose proof (Math_round_near ((1 - half) * 100)) as [Hlo' Hhi'].
  pose proof (Math_round_mono (half * 100) ((1 - half) * 100)) as Hmono.
  pose proof (Math_round_mono 0 (half * 100)) as Hzero.
  pose proof (Math_round_mono ((1 - half) * 100) 100) as Hfull.
  change (Timeline.Math_round 0) with 0 in Hzero.
  change (Timeline.Math_round 100) with 100 in Hfull.
  set (lo := Timeline.Math_round (half * 100)) in *.
  set (hi := Timeline.Math_round ((1 - half) * 100)) in *.
  assert (Hlo100 : lo / 100 * 100 == lo) by (field; lra).
  assert (Hhi100 : hi / 100 * 100 == hi) by (field; lra).
  split; [apply Qle_shift_div_l; lra|].
  split; [apply Qle_shift_div_l; [lra|]; rewrite Hlo100; apply Hmono; lra|].
  split; [apply Qle_shift_div_r; lra|].
  split; apply Qabs_Qle_condition; split; lra.
Qed.

Lemma anchor_slider_range_witness :
  1 <= scale Scenario.defaultZoom
  /\ PropertiesPanel.anchorMin Scenario.defaultZoom
     <= PropertiesPanel.anchorMax Scenario.defaultZoom.
Proof.
  assert (H : 1 <= scale Scenario.defaultZoom) by (apply Qle_bool_iff; reflexivity).
  split; [exact H|]. exact (proj1 (proj2 (anchor_slider_range Scenario.defaultZoom H))).
Defined.
(** ** Transitions *)

Lemma layout_from_ranges (zoom : Q) :
  forall segs segs' off,
    rangesOf segs' = rangesOf segs ->
    layoutOf (Timeline.segmentBlocksFrom zoom off segs')
    = layoutOf (Timeline.segmentBlocksFrom zoom off segs).
Proof.
  induction segs as [|sg segs IH]; intros [|sg' segs'] off H; try discriminate;
    [reflexivity|].
  simpl in H. injection H as _ Hs He Hrest. simpl. rewrite Hs, He.
  f_equal. apply IH. exact Hrest.
Qed.

Lemma retag_ranges (f : SegmentConfig -> SegmentConfig) (segs : list SegmentConfig) :
  (forall sg, (seg_id (f sg), sourceStart (f sg), sourceEnd (f sg))
              = (seg_id sg, sourceStart sg, sourceEnd sg)) ->
  rangesOf (map f segs) = rangesOf segs.
Proof.
  intros Hf. unfold rangesOf. rewrite map_map. apply map_ext. exact Hf.
Qed.

Lemma retagged_update (lib : SegmentsLib) (f : SegmentConfig -> SegmentConfig)
    (s : EditorState) (c : EditConfig) (zoom : Q) :
  editConfig s = Some c ->
  (forall sg, (seg_id (f sg), sourceStart (f sg), sourceEnd (f sg))
              = (seg_id sg, sourceStart sg, sourceEnd sg)) ->
  let s' := updateEditConfig lib (PropertiesPanel.segmentsChange (map f (segments c))) s in
  configHolds (fun c' => segments c' = map f (segments c)
                         /\ rangesOf (segments c') = rangesOf (segments c)
                         /\ layoutOf (Timeline.segmentBlocks (Some c') zoom)
                            = layoutOf (Timeline.segmentBlocks (Some c) zoom)
                         /\ zooms c' = zooms c
                         /\ captionOverrides c' = captionOverrides c)
    s'
  /\ editHistory s' = sliceLast MAX_HISTORY (editHistory s ++ [c])
  /\ editFuture s' = [].
Proof.
  intros Hc Hf s'. subst s'. unfold updateEditConfig, pushHistory, configHolds.
  rewrite Hc. simpl. split; [|auto].
  split; [reflexivity|]. split; [apply retag_ranges; exact Hf|].
  split; [|auto]. apply layout_from_ranges. apply retag_ranges. exact Hf.
Qed.

(** X25. Choosing a transition or a transition duration for a segment, in
    the popover or in the segment panel, moves nothing on the timeline: the
    ids and source ranges of all segments, the output ranges and the pixel
    geometry of all blocks stay as they are, and so do the zooms and the
    caption overrides. Only the chosen field of the segments with that id
    changes, and the change is recorded as one undo step. *)
Theorem transition_change_keeps_layout (lib : SegmentsLib) (s : EditorState)
    (c : EditConfig) (segment : SegmentConfig) (tr : SegmentTransition) (d zoom : Q) :
  editConfig s = Some c ->
  forall op field,
    (op, field)
    ∈ [(TransitionPopover.setTransition lib (seg_id segment) tr,
        fun sg => PropertiesPanel.withTransition sg tr);
       (PropertiesPanel.transitionSelectChange lib segment tr,
        fun sg => PropertiesPanel.withTransition sg tr);
       (TransitionPopover.setDuration lib (seg_id segment) d,
        fun sg => PropertiesPanel.withTransitionDuration sg d)] ->
    configHolds
      (fun c' => segments c'
                 = map (fun sg => if decide (seg_id sg = seg_id segment)
                                  then field sg else sg)
                     (segments c)
                 /\ rangesOf (segments c') = rangesOf (segments c)
                 /\ layoutOf (Timeline.segmentBlocks (Some c') zoom)
                    = layoutOf (Timeline.segmentBlocks (Some c) zoom)
                 /\ zooms c' = zooms c
                 /\ captionOverrides c' = captionOverrides c)
      (op s)
    /\ editHistory (op s) = sliceLast MAX_HISTORY (editHistory s ++ [c])
    /\ editFuture (op s) = [].
Proof.
  intros Hc op field Hop.
  apply list_elem_of_In in Hop. simpl in Hop.
  destruct Hop as [Heq | [Heq | [Heq | []]]]; injection Heq as <- <-;
    unfold TransitionPopover.setTransition, PropertiesPanel.transitionSelectChange,
      TransitionPopover.setDuration;
    rewrite Hc; apply (retagged_update lib _ s c zoom Hc);
    intros sg; destruct (decide (seg_id sg = seg_id segment)); reflexivity.
Qed.

Lemma transition_change_keeps_layout_witness :
  let s := Sample.store0 in
  let segment := Sample.seg "seg_2" 12 20 in
  let field := fun sg => PropertiesPanel.withTransition sg t_crossfade in
  let op := TransitionPopover.setTransition SegmentsSpec.lib (seg_id segment) t_crossfade in
  editConfig s = Some Sample.config0
  /\ editHistory (op s) = sliceLast MAX_HISTORY (editHistory s ++ [Sample.config0])
  /\ configHolds
       (fun c' => segments c'
                  = map (fun sg => if decide (seg_id sg = seg_id segment)
                                   then field sg else sg)
                      (segments Sample.config0)
                  /\ rangesOf (segments c') = rangesOf (segments Sample.config0)
                  /\ layoutOf (Timeline.segmentBlocks (Some c') 50)
                     = layoutOf (Timeline.segmentBlocks (Some Sample.config0) 50)
                  /\ zooms c' = zooms Sample.config0
                  /\ captionOverrides c' = captionOverrides Sample.config0)
       (op s).
Proof.
  intros s segment field op.
  assert (Hop : (op, field)
                ∈ [(TransitionPopover.setTransition SegmentsSpec.lib (seg_id segment)
                      t_crossfade,
                    fun sg => PropertiesPanel.withTransition sg t_crossfade);
                   (PropertiesPanel.transitionSelectChange SegmentsSpec.lib segment
                      t_crossfade,
                    fun sg => PropertiesPanel.withTransition sg t_crossfade);
                   (TransitionPopover.setDuration SegmentsSpec.lib (seg_id segment) 0,
                    fun sg => PropertiesPanel.withTransitionDuration sg 0)]) by left.
  pose proof (transition_change_keeps_layout SegmentsSpec.lib s Sample.config0 segment
                t_crossfade 0 50 eq_refl op field Hop) as (Hcfg & Hhist & _).
  split; [reflexivity|]. split; [exact Hhist|exact Hcfg].
Defined.
(** ** Zoom intensity *)

(** X26. The zoom intensity the global panel shows is the one last chosen:
    choosing an intensity sets the scale of every zoom to the value of that
    intensity and touches nothing else of a zoom, anchors included, and the
    panel then reads the chosen intensity back from the first zoom. Passed
    through the editor page to the store, the choice is one undo step.
    Switching zooms off empties the list; switching them on does
    nothing. *)
Theorem intensity_round_trip (lib : SegmentsLib) (s : EditorState) (c : EditConfig)
    (i : EditConfigPanel.ZoomIntensity) :
  editConfig s = Some c ->
  zooms c <> [] ->
  let chosen := EditConfigPanel.intensityChange c i in
  EditConfigPanel.intensity chosen = i
  /\ zooms chosen
     = map (fun z => PropertiesPanel.withScale z (EditConfigPanel.scaleMap i)) (zooms c)
  /\ configHolds (fun c' => EditConfigPanel.intensity c' = i
                            /\ zooms c' = zooms chosen
                            /\ segments c' = segments c)
       (EditorPage.onChange lib chosen s)
  /\ editHistory (EditorPage.onChange lib chosen s)
     = sliceLast MAX_HISTORY (editHistory s ++ [c])
  /\ EditConfigPanel.enabledChange c true = None
  /\ (forall c', EditConfigPanel.enabledChange c false = Some c' ->
        zooms c' = [] /\ EditConfigPanel.enabled c' = false).
Proof.
  intros Hc Hz chosen.
  assert (Hzooms : zooms chosen
                   = map (fun z => PropertiesPanel.withScale z (EditConfigPanel.scaleMap i))
                       (zooms c)) by reflexivity.
  assert (Hint : forall c', zooms c' = zooms chosen -> EditConfigPanel.intensity c' = i).
  { intros c' Hc'. unfold EditConfigPanel.intensity. rewrite Hc', Hzooms.
    destruct (zooms c) as [|z rest]; [contradiction|]. simpl.
    destruct i; reflexivity. }
  split; [apply Hint; reflexivity|]. split; [exact Hzooms|].
  unfold EditorPage.onChange, updateEditConfig, pushHistory, configHolds.
  rewrite Hc. simpl.
  split; [split; [apply Hint; reflexivity|split; reflexivity]|].
  split; [reflexivity|]. split; [reflexivity|].
  intros c' Hc'. injection Hc' as <-. split; reflexivity.
Qed.

Lemma intensity_round_trip_witness :
  let s := store (Scenario.zoomed Scenario.wideZoom) in
  let c := Sample.configOf [Sample.seg "seg_1" 0 10; Sample.seg "seg_2" 12 20]
             [Scenario.wideZoom] in
  editConfig s = Some c
  /\ zooms c <> []
  /\ EditConfigPanel.intensity
       (EditConfigPanel.intensityChange c EditConfigPanel.subtle)
     = EditConfigPanel.subtle.
Proof.
  intros s c.
  assert (Hz : zooms c <> []) by discriminate.
  split; [reflexivity|]. split; [exact Hz|].
  exact (proj1 (intensity_round_trip SegmentsSpec.lib s c EditConfigPanel.subtle
                  eq_refl Hz)).
Defined.

(** ** Shuttle keys *)

(** X27. Whatever keys are pressed, the shuttle speed stays between -2 and
    2; Space and K stop the shuttle. *)
Theorem shuttle_speed_in_range (keys : list EditorPage.ShuttleKey) :
  (-2 <= shuttleAfter keys 0 <= 2)%Z
  /\ shuttleAfter (keys ++ [EditorPage.KeyK]) 0 = 0%Z
  /\ shuttleAfter (keys ++ [EditorPage.KeySpace]) 0 = 0%Z.
Proof.
  assert (H : forall ks v, (-2 <= v <= 2)%Z -> (-2 <= shuttleAfter ks v <= 2)%Z).
  { induction ks as [|k ks IH]; intros v Hv; [exact Hv|].
    unfold shuttleAfter. simpl. apply IH. destruct k; simpl; lia. }
  split; [apply H; lia|].
  unfold shuttleAfter. rewrite !foldl_snoc. split; reflexivity.
Qed.

(** ** Cuts *)

(** X28. The cut list follows the segments: every edit that changes the
    segment list, and every [updateEditConfig] that carries a segment list,
    leaves the cuts that the segment library derives from the new segments
    and the clip duration; all other edits leave the cuts in step with the
    segments if they were, except an [updateEditConfig] that carries cuts
    and no segments. *)
Theorem cuts_follow_segments (lib : SegmentsLib) (e : DiscreteEdit) (s : EditorState) :
  (resyncsCuts e -> cutsSynced lib (discrete lib e s))
  /\ (cutsSynced lib s -> ~ carriesBareCuts e -> cutsSynced lib (discrete lib e s)).
Proof.
  unfold cutsSynced, configHolds.
  destruct (editConfig s) as [c|] eqn:Hc;
    [|rewrite (discrete_unloaded lib e s Hc), Hc; auto].
  destruct e; simpl;
    unfold updateEditConfig, splitSegment, deleteSegment, adjustSegmentEdge,
      addZoom, updateZoom, deleteZoom, updateCaptionText, toggleWordHighlight,
      hideWord, updateCaptionStyle, addAnnotation, updateAnnotation,
      deleteAnnotation;
    rewrite Hc; simpl; try (split; [contradiction|auto]); try (split; reflexivity).
  unfold applyChanges, spreadConfig.
  destruct (ch_segments changes) as [segs|] eqn:Es; simpl.
  - split; reflexivity.
  - split; [congruence|]. intros Hsync Hbare.
    destruct (ch_cuts changes); simpl; [exfalso; apply Hbare; split; congruence|exact Hsync].
Qed.

Lemma cuts_follow_segments_witness :
  let e := DeleteSegment "seg_1" in
  resyncsCuts e
  /\ cutsSynced SegmentsSpec.lib (discrete SegmentsSpec.lib e Sample.store0).
Proof.
  intros e. split; [exact I|].
  exact (proj1 (cuts_follow_segments SegmentsSpec.lib e Sample.store0) I).
Defined.
(** ** An edit in the middle of a gesture *)

(** X29. An immediate edit made while a slider gesture is still pending
    puts the gesture's result on the undo stack at once, and the timer then
    puts the configuration from before the gesture on top of it: the first
    [undo] afterwards goes back to the state before the gesture and the
    second one forward again to the gesture's result (here for a stack with
    room for both entries). *)
Theorem edit_during_gesture_reorders_history (lib : SegmentsLib) (w : Session)
    (c0 : EditConfig) (changes : EditConfigChanges) (e : DiscreteEdit) (gap quiet : nat) :
  editConfig (store w) = Some c0 ->
  _debounceSnapshot w = None ->
  (gap < DEBOUNCE_MS)%nat ->
  (DEBOUNCE_MS <= gap + quiet)%nat ->
  (length (editHistory (store w)) + 2 <= MAX_HISTORY)%nat ->
  let c1 := applyChanges lib (store w) c0 changes in
  let w' := run lib w [Call (UpdateEditConfigDebounced changes); Elapse gap;
                       Call (Edit e); Elapse quiet] in
  editHistory (store w') = editHistory (store w) ++ [c1; c0]
  /\ editConfig (store (undo w')) = Some c0
  /\ editConfig (store (undo (undo w'))) = Some c1.
Proof.
  intros Hc Hs Hgap Hquiet Hroom c1 w'.
  assert (Hw' : exists c' sel,
            w' = mkSession
                   (setEdit (store w) (Some c') (editHistory (store w) ++ [c1; c0]) []
                      true sel)
                   None None (clock w + gap + quiet)%nat).
  { subst w'. unfold run. cbn [foldl step perform].
    unfold updateEditConfigDebounced. rewrite Hc, Hs. fold c1.
    unfold elapse at 2. cbn [_debounceTimer clock store _debounceSnapshot].
    assert (Hno : (clock w + DEBOUNCE_MS <=? clock w + gap)%nat = false)
      by (apply Nat.leb_gt; lia).
    rewrite Hno. unfold onStore. cbn [_debounceTimer clock store _debounceSnapshot].
    set (s1 := setEdit (store w) (Some c1) (editHistory (store w)) (editFuture (store w))
                 true (selectedElement (store w))).
    destruct (discrete_shape lib e s1 c1 eq_refl) as (c' & sel & ->).
    unfold elapse. cbn [_debounceTimer clock store _debounceSnapshot].
    assert (Hyes : (clock w + DEBOUNCE_MS <=? clock w + gap + quiet)%nat = true)
      by (apply Nat.leb_le; lia).
    rewrite Hyes. unfold debounceFire.
    cbn [_debounceTimer clock store _debounceSnapshot setEdit editConfig editHistory
         isDirty selectedElement s1].
    exists c', sel. f_equal. unfold setEdit. simpl.
    rewrite (sliceLast_short MAX_HISTORY (editHistory (store w) ++ [c1]))
      by (rewrite length_app; simpl; lia).
    rewrite sliceLast_short by (rewrite !length_app; simpl; lia).
    rewrite <- app_assoc. reflexivity. }
  destruct Hw' as (c' & sel & ->). cbn [store editHistory setEdit].
  split; [reflexivity|].
  assert (Hu1 : store (undo (mkSession
                        (setEdit (store w) (Some c') (editHistory (store w) ++ [c1; c0]) []
                           true sel) None None (clock w + gap + quiet)%nat))
                = setEdit (store w) (Some c0) (editHistory (store w) ++ [c1]) [c'] true sel).
  { unfold undo. cbn [_debounceSnapshot store].
    erewrite (popUndo_last _ (editHistory (store w) ++ [c1]) c0 c');
      [reflexivity|reflexivity|].
    simpl. rewrite <- app_assoc. reflexivity. }
  split; [rewrite Hu1; reflexivity|].
  unfold undo at 1. cbn [_debounceSnapshot]. cbn [store]. rewrite Hu1.
  erewrite (popUndo_last _ (editHistory (store w)) c1 c0); reflexivity.
Qed.

Lemma edit_during_gesture_reorders_history_witness :
  let changes := PropertiesPanel.zoomsChange [Scenario.wideZoom] in
  let w' := run SegmentsSpec.lib Sample.session0
              [Call (UpdateEditConfigDebounced changes); Elapse 100;
               Call (Edit (HideWord 0)); Elapse 200] in
  editConfig (store Sample.session0) = Some Sample.config0
  /\ _debounceSnapshot Sample.session0 = None
  /\ (100 < DEBOUNCE_MS)%nat
  /\ (DEBOUNCE_MS <= 100 + 200)%nat
  /\ (length (editHistory (store Sample.session0)) + 2 <= MAX_HISTORY)%nat
  /\ editConfig (store (undo w')) = Some Sample.config0
  /\ editConfig (store (undo (undo w')))
     = Some (withZooms Sample.config0 [Scenario.wideZoom]).
Proof.
  intros changes w'.
  assert (Hgap : (100 < DEBOUNCE_MS)%nat) by (unfold DEBOUNCE_MS; lia).
  assert (Hquiet : (DEBOUNCE_MS <= 100 + 200)%nat) by (unfold DEBOUNCE_MS; lia).
  assert (Hroom : (length (editHistory (store Sample.session0)) + 2 <= MAX_HISTORY)%nat)
    by (simpl; unfold MAX_HISTORY; lia).
  pose proof (edit_during_gesture_reorders_history SegmentsSpec.lib Sample.session0
                Sample.config0 changes (HideWord 0) 100 200 eq_refl eq_refl Hgap Hquiet
                Hroom) as (_ & H1 & H2).
  split; [reflexivity|]. split; [reflexivity|]. split; [exact Hgap|].
  split; [exact Hquiet|]. split; [exact Hroom|]. split; [exact H1|exact H2].
Defined.

(** ** The dirty flag *)

Lemma popUndo_dirty (s : EditorState) :
  popUndo s = s \/ (isDirty (popUndo s) = true /\ editConfig (popUndo s) <> None).
Proof.
  unfold popUndo. destruct (last (editHistory s)); [|left; reflexivity].
  destruct (editConfig s); [right; split; [reflexivity|discriminate]|left; reflexivity].
Qed.

Lemma popRedo_dirty (s : EditorState) :
  popRedo s = s \/ (isDirty (popRedo s) = true /\ editConfig (popRedo s) <> None).
Proof.
  unfold popRedo. destruct (editFuture s); [left; reflexivity|].
  destruct (editConfig s); [right; split; [reflexivity|discriminate]|left; reflexivity].
Qed.

(** X30. No change of the configuration goes unmarked: whenever an action
    other than [initialize], or a timer firing, leaves a configuration
    different from the one before, [isDirty] is set afterwards; and a
    configuration once loaded is never unloaded. *)
Theorem config_change_marks_dirty (lib : SegmentsLib) (w : Session) (e : Event) :
  (editConfig (store (step lib w e)) <> editConfig (store w) ->
   ~ isInitialize e ->
   isDirty (store (step lib w e)) = true)
  /\ (editConfig (store w) <> None -> editConfig (store (step lib w e)) <> None).
Proof.
  destruct e as [a|dt].
  - destruct a; simpl; try (split; [intros H; congruence|auto]).
    + split; [intros _ H; exfalso; exact (H I)|discriminate].
    + unfold toggleProxy. destruct (truthyString (proxyVideoUrl (store w)));
        (split; [intros H; simpl in H; congruence|auto]).
    + destruct (editConfig (store w)) as [c|] eqn:Hc.
      * destruct (discrete_shape lib e (store w) c Hc) as (c' & sel & ->).
        split; [reflexivity|discriminate].
      * rewrite (discrete_unloaded lib e (store w) Hc). split; congruence.
    + unfold updateEditConfigDebounced.
      destruct (editConfig (store w)) as [c|] eqn:Hc; simpl.
      * split; [reflexivity|discriminate].
      * split; congruence.
    + set (st := match _debounceSnapshot w with
                 | Some snapshot => _
                 | None => store w
                 end).
      assert (Hst : editConfig st = editConfig (store w))
        by (subst st; destruct (_debounceSnapshot w); reflexivity).
      rewrite <- Hst. destruct (popUndo_dirty st) as [->|[Hd Hn]]; [split; congruence|].
      split; [intros _ _; exact Hd|intros _; exact Hn].
    + destruct (popRedo_dirty (store w)) as [->|[Hd Hn]]; [split; congruence|].
      split; [intros _ _; exact Hd|intros _; exact Hn].
  - simpl. unfold elapse. simpl.
    assert (Hfire : editConfig (store (debounceFire w)) = editConfig (store w)).
    { unfold debounceFire. simpl. destruct (_debounceSnapshot w); [|reflexivity].
      destruct (editConfig (store w)) eqn:E; simpl; congruence. }
    destruct (_debounceTimer w) as [due|]; [|split; congruence].
    destruct (due <=? clock w + dt)%nat; [rewrite Hfire|]; split; congruence.
Qed.

Lemma config_change_marks_dirty_witness :
  let w := mkSession (markSaved 0 (store HistoryScenario.midHistory)) None None 0 in
  editConfig (store (step SegmentsSpec.lib w (Call Redo))) <> editConfig (store w)
  /\ ~ isInitialize (Call Redo)
  /\ isDirty (store w) = false
  /\ isDirty (store (step SegmentsSpec.lib w (Call Redo))) = true.
Proof.
  intros w.
  assert (Hne : editConfig (store (step SegmentsSpec.lib w (Call Redo)))
                <> editConfig (store w)).
  { intros H. apply (f_equal (fmap (fun c => size (captionOverrides c)))) in H.
    vm_compute in H. discriminate. }
  assert (Hni : ~ isInitialize (Call Redo)) by exact id.
  split; [exact Hne|]. split; [exact Hni|]. split; [reflexivity|].
  exact (proj1 (config_change_marks_dirty SegmentsSpec.lib w (Call Redo)) Hne Hni).
Defined.
